(** * A retrieval-augmented-generation service: chunker, embedding providers,
      vector store and retrieval orchestrator

    Shallow embedding of the Python sources

      - [src/document_parsers.py]  (chunk_text, get_file_info, validate_file_size,
                                    auto_detect_and_parse)
      - [src/embeddings.py]        (OpenAIEmbeddings, CohereEmbeddings, factory)
      - [src/vector_databases.py]  (FAISSDatabase)
      - [src/query_utils.py]       (normalize_query)
      - [config.py], [app.py]      (upload_document, query_knowledge_base)

    Conventions.  A Python [str] is a list of characters; characters are the
    code points below 256, so that the character classes of the interpreter
    ([str.isspace], [\s], [\d], [\w], [str.lower]) are finite tables written
    out below.  Python integers are [Z]; floats that are only compared, added
    or inverted are exact rationals [Q].  A call that may raise returns a
    [result]; an object that is mutated is passed in and returned. *)

From Stdlib Require Import String Ascii List Bool Arith ZArith QArith Qround Lia.
From Stdlib Require Import DecimalString DecimalNat Sorted.
Import ListNotations.

Open Scope string_scope.
Open Scope list_scope.

(* ================================================================= *)
(** ** Python values *)

Definition pystr := list ascii.

Coercion list_ascii_of_string : string >-> list.

(** [len(s)] *)
Definition len {A : Type} (l : list A) : Z := Z.of_nat (length l).

(** Truthiness of a sequence: [if s:] *)
Definition truthy {A : Type} (l : list A) : bool :=
  match l with [] => false | _ :: _ => true end.

Definition pystr_eqb (a b : pystr) : bool :=
  if list_eq_dec ascii_dec a b then true else false.

(** Exceptions raised by the modelled code. *)
Inductive exn : Type :=
| ValueError (msg : string)
| IndexError
| AssertionError
| HTTPException (status_code : Z) (detail : string).

Inductive result (A : Type) : Type :=
| Ok (a : A)
| Raise (e : exn).
Arguments Ok {A} a.
Arguments Raise {A} e.

Definition bind {A B : Type} (m : result A) (f : A -> result B) : result B :=
  match m with Ok a => f a | Raise e => Raise e end.

Notation "x <- m ;; k" := (bind m (fun x => k))
  (at level 61, m at next level, right associativity).

(** Values stored in a metadata dictionary. *)
Inductive pyval : Type :=
| VStr (s : pystr)
| VInt (n : Z)
| VFloat (q : Q).

(** A [Dict[str, Any]], in insertion order. *)
Definition pydict := list (string * pyval).

Fixpoint dict_get {V : Type} (d : list (string * V)) (key : string) (default : V) : V :=
  match d with
  | [] => default
  | (k, v) :: d' => if String.eqb k key then v else dict_get d' key default
  end.

Fixpoint dict_find {V : Type} (d : list (string * V)) (key : string) : option V :=
  match d with
  | [] => None
  | (k, v) :: d' => if String.eqb k key then Some v else dict_find d' key
  end.

(* ================================================================= *)
(** ** Character classes of the interpreter (code points 0..255) *)

Module Chars.

Definition code (c : ascii) : N := N_of_ascii c.

Definition between (lo hi : N) (c : ascii) : bool :=
  (N.leb lo (code c) && N.leb (code c) hi)%bool.

(** [str.isspace] and the regex class [\s]. *)
Definition is_space (c : ascii) : bool :=
  between 9 13 c || between 28 32 c || N.eqb (code c) 133 || N.eqb (code c) 160.

(** The regex class [\d] (decimal digits). *)
Definition is_digit (c : ascii) : bool := between 48 57 c.

Definition is_upper (c : ascii) : bool :=
  between 65 90 c || between 192 214 c || between 216 222 c.

Definition is_lower (c : ascii) : bool :=
  between 97 122 c || N.eqb (code c) 170 || N.eqb (code c) 181
  || N.eqb (code c) 186 || between 223 246 c || between 248 255 c.

(** Other numeric characters of Latin-1 (superscripts and fractions). *)
Definition is_numeric_other (c : ascii) : bool :=
  between 178 179 c || N.eqb (code c) 185 || between 188 190 c.

(** The regex class [\w]: alphanumerics and the underscore. *)
Definition is_word (c : ascii) : bool :=
  is_digit c || is_upper c || is_lower c || is_numeric_other c || N.eqb (code c) 95.

(** [str.lower] on one character. *)
Definition lower (c : ascii) : ascii :=
  if is_upper c then ascii_of_N (code c + 32) else c.

Definition eqc (a : ascii) : ascii -> bool := Ascii.eqb a.

(** A literal character matched under [re.IGNORECASE]. *)
Definition eqc_nocase (a : ascii) (c : ascii) : bool := Ascii.eqb (lower a) (lower c).

(** A bracketed class such as [[Bb]] or [[.!?]]. *)
Definition one_of (cls : pystr) (c : ascii) : bool := existsb (Ascii.eqb c) cls.

End Chars.

(** [s.lower()] *)
Definition str_lower (s : pystr) : pystr := map Chars.lower s.

(** [s.lstrip()], [s.rstrip()], [s.strip()] *)
Fixpoint lstrip (s : pystr) : pystr :=
  match s with
  | c :: s' => if Chars.is_space c then lstrip s' else s
  | [] => []
  end.

Definition rstrip (s : pystr) : pystr := rev (lstrip (rev s)).

Definition strip (s : pystr) : pystr := rstrip (lstrip s).

(** [sep.join(parts)] *)
Fixpoint join (sep : pystr) (parts : list pystr) : pystr :=
  match parts with
  | [] => []
  | [p] => p
  | p :: ps => p ++ sep ++ join sep ps
  end.

(** [s.endswith(suffix)] *)
Definition endswith (s suffix : pystr) : bool :=
  pystr_eqb (skipn (length s - length suffix) s) suffix
  && Nat.leb (length suffix) (length s).

(** [s.split(sep)] for a one-character separator. *)
Fixpoint split_char (sep : ascii) (s : pystr) : list pystr :=
  match s with
  | [] => [[]]
  | c :: s' =>
      if Ascii.eqb c sep then [] :: split_char sep s'
      else match split_char sep s' with
           | p :: ps => (c :: p) :: ps
           | [] => [[c]]
           end
  end.

(** [f"{n}"] for a non-negative integer. *)
Definition str_of_nat (n : nat) : string := NilEmpty.string_of_uint (Nat.to_uint n).

(* ================================================================= *)
(** ** The regular expressions of the sources ([re] module)

    A backtracking matcher for the constructs that occur in the patterns of
    [chunk_text] and [normalize_query]: character classes, concatenation,
    alternation, greedy [?], greedy [*] over a class, one capture group, a
    one-character look-behind and the word boundary [\b]. *)

Module Re.

Inductive regex : Type :=
| Eps
| Chr (p : ascii -> bool)
| Seq (r1 r2 : regex)
| Alt (r1 r2 : regex)
| Opt (r : regex)
| Star (p : ascii -> bool)
| Group (r : regex)
| LookBehind (p : ascii -> bool)
| WordBoundary.

(** A literal string. *)
Fixpoint lit (mk : ascii -> ascii -> bool) (s : pystr) : regex :=
  match s with
  | [] => Eps
  | [c] => Chr (mk c)
  | c :: s' => Seq (Chr (mk c)) (lit mk s')
  end.

Definition Plus (p : ascii -> bool) : regex := Seq (Chr p) (Star p).

(** The cursor is the pair of the text already passed, most recent character
    first, and the text still ahead. *)
Definition word_before (prev : pystr) : bool :=
  match prev with c :: _ => Chars.is_word c | [] => false end.

Definition word_after (s : pystr) : bool :=
  match s with c :: _ => Chars.is_word c | [] => false end.

Definition at_boundary (prev s : pystr) : bool := xorb (word_before prev) (word_after s).

(** Greedy repetition of a class: the longest run first, then shorter ones. *)
Fixpoint star {A : Type} (p : ascii -> bool) (prev s : pystr)
         (k : pystr -> pystr -> option A) : option A :=
  match s with
  | c :: s' =>
      if p c then
        match star p (c :: prev) s' k with
        | Some x => Some x
        | None => k prev s
        end
      else k prev s
  | [] => k prev s
  end.

(** [rmatch r prev s cap k]: match [r] at the cursor [(prev, s)], with [cap]
    the text of group 1 so far, and continue with [k]; [None] makes the
    matcher backtrack to the latest choice. *)
Fixpoint rmatch {A : Type} (r : regex) (prev s : pystr) (cap : option pystr)
         (k : pystr -> pystr -> option pystr -> option A) : option A :=
  match r with
  | Eps => k prev s cap
  | Chr p =>
      match s with
      | c :: s' => if p c then k (c :: prev) s' cap else None
      | [] => None
      end
  | Seq r1 r2 => rmatch r1 prev s cap (fun prev' s' cap' => rmatch r2 prev' s' cap' k)
  | Alt r1 r2 =>
      match rmatch r1 prev s cap k with
      | Some x => Some x
      | None => rmatch r2 prev s cap k
      end
  | Opt r1 =>
      match rmatch r1 prev s cap k with
      | Some x => Some x
      | None => k prev s cap
      end
  | Star p => star p prev s (fun prev' s' => k prev' s' cap)
  | Group r1 =>
      rmatch r1 prev s cap
        (fun prev' s' _ =>
           k prev' s' (Some (rev (firstn (length prev' - length prev) prev'))))
  | LookBehind p =>
      match prev with
      | c :: _ => if p c then k prev s cap else None
      | [] => None
      end
  | WordBoundary => if at_boundary prev s then k prev s cap else None
  end.

(** A match that starts at the cursor: the cursor after it and group 1.  None
    of the patterns of the sources matches the empty string; an empty match
    is not a match here. *)
Definition match_at (r : regex) (prev s : pystr) : option (pystr * pystr * option pystr) :=
  rmatch r prev s None
    (fun prev' s' cap =>
       if Nat.ltb (length s') (length s) then Some (prev', s', cap) else None).

(** A replacement template: literal text and the back-reference [\1]. *)
Inductive titem : Type :=
| TLit (s : pystr)
| TGroup1.

Definition template := list titem.

Definition expand (t : template) (cap : option pystr) : pystr :=
  flat_map (fun i => match i with
                     | TLit s => s
                     | TGroup1 => match cap with Some g => g | None => [] end
                     end) t.

(** [re.sub(r, t, s)]: the leftmost matches, left to right, not overlapping. *)
Fixpoint sub_loop (fuel : nat) (r : regex) (t : template) (prev s : pystr) : pystr :=
  match fuel with
  | O => s
  | S fuel' =>
      match match_at r prev s with
      | Some (prev', rest, cap) => expand t cap ++ sub_loop fuel' r t prev' rest
      | None =>
          match s with
          | [] => []
          | c :: s' => c :: sub_loop fuel' r t (c :: prev) s'
          end
      end
  end.

Definition sub (r : regex) (t : template) (s : pystr) : pystr :=
  sub_loop (S (length s)) r t [] s.

(** [re.split(r, s)] for a pattern without groups: [piece] is the text since
    the last match, most recent character first. *)
Fixpoint split_loop (fuel : nat) (r : regex) (prev s piece : pystr) : list pystr :=
  match fuel with
  | O => [rev piece ++ s]
  | S fuel' =>
      match match_at r prev s with
      | Some (prev', rest, _) => rev piece :: split_loop fuel' r prev' rest []
      | None =>
          match s with
          | [] => [rev piece]
          | c :: s' => split_loop fuel' r (c :: prev) s' (c :: piece)
          end
      end
  end.

Definition split (r : regex) (s : pystr) : list pystr :=
  split_loop (S (length s)) r [] s [].

End Re.

(* ================================================================= *)
(** ** [src/document_parsers.py] *)

Module DocumentParsers.

Definition bytes := list Byte.byte.

(** The byte-level parsers are external libraries. *)
Record stream_parsers : Type := {
  parse_pdf_stream : bytes -> string -> result pystr;
  parse_docx_stream : bytes -> result pystr;
  parse_excel_stream : bytes -> string -> bool -> result pystr;
  parse_txt_stream : bytes -> result pystr
}.

Definition auto_detect_and_parse (ps : stream_parsers) (file_bytes : bytes)
           (filename : pystr) (pdf_parser excel_parser : string)
           (excel_combine_sheets : bool) : result pystr :=
  let filename_lower := str_lower filename in
  if endswith filename_lower ".pdf" then
    parse_pdf_stream ps file_bytes pdf_parser
  else if endswith filename_lower ".docx" then
    parse_docx_stream ps file_bytes
  else if endswith filename_lower ".xlsx" || endswith filename_lower ".xls" then
    parse_excel_stream ps file_bytes excel_parser excel_combine_sheets
  else if endswith filename_lower ".txt" then
    parse_txt_stream ps file_bytes
  else
    Raise (ValueError
             ("Unsupported file type: " ++ string_of_list_ascii filename
              ++ ". Supported: .pdf, .docx, .xlsx, .xls, .txt")%string).

Definition validate_file_size (file_bytes : bytes) (max_size_mb : Z) : bool :=
  let size_mb := (inject_Z (len file_bytes) / inject_Z (1024 * 1024))%Q in
  Qle_bool size_mb (inject_Z max_size_mb).

Record file_info : Type := {
  fi_filename : pystr;
  fi_extension : pystr;
  fi_size_bytes : Z
}.

Definition get_file_info (file_bytes : bytes) (filename : pystr) : file_info :=
  let extension :=
    if existsb (Ascii.eqb ".") filename
    then str_lower (last (split_char "." filename) [])
    else ("unknown" : pystr) in
  {| fi_filename := filename;
     fi_extension := extension;
     fi_size_bytes := len file_bytes |}.

(** *** Text chunking *)

(** [(?<=[.!?])\s+] *)
Definition sentence_boundary : Re.regex :=
  Re.Seq (Re.LookBehind (Chars.one_of ".!?")) (Re.Plus Chars.is_space).

(** [[s.strip() for s in re.split(...) if s.strip()]] *)
Definition split_sentences (text : pystr) : list pystr :=
  map strip (filter (fun s => truthy (strip s)) (Re.split sentence_boundary text)).

(** The inner loop over [reversed(current_sentences)]: [rest] is what is left
    to visit, last sentence first. *)
Fixpoint overlap_loop (overlap : Z) (rest : list pystr)
         (overlap_sentences : list pystr) (overlap_length : Z) : list pystr * Z :=
  match rest with
  | [] => (overlap_sentences, overlap_length)
  | s :: rest' =>
      if (overlap_length + len s + 1 >? overlap)%Z
      then (overlap_sentences, overlap_length)
      else overlap_loop overlap rest' (s :: overlap_sentences) (overlap_length + len s + 1)%Z
  end.

Definition build_overlap (overlap : Z) (current_sentences : list pystr) : list pystr * Z :=
  overlap_loop overlap (rev current_sentences) [] 0%Z.

Record chunker : Type := {
  chunks : list pystr;
  current_sentences : list pystr;
  current_length : Z
}.

(** One iteration of [for sentence in sentences]. *)
Definition chunk_step (chunk_size overlap : Z) (st : chunker) (sentence : pystr) : chunker :=
  let st1 :=
    if (current_length st + len sentence + 1 >? chunk_size)%Z
       && truthy (current_sentences st)
    then
      let '(overlap_sentences, overlap_length) :=
        build_overlap overlap (current_sentences st) in
      {| chunks := chunks st ++ [join " " (current_sentences st)];
         current_sentences := overlap_sentences;
         current_length := overlap_length |}
    else st in
  {| chunks := chunks st1;
     current_sentences := current_sentences st1 ++ [sentence];
     current_length := (current_length st1 + len sentence + 1)%Z |}.

Definition chunk_loop (chunk_size overlap : Z) (sentences : list pystr) : chunker :=
  fold_left (chunk_step chunk_size overlap) sentences
            {| chunks := []; current_sentences := []; current_length := 0%Z |}.

Definition chunk_text (text : pystr) (chunk_size overlap : Z) : list pystr :=
  let sentences := split_sentences text in
  if truthy sentences then
    let st := chunk_loop chunk_size overlap sentences in
    let chunks :=
      if truthy (current_sentences st)
      then chunks st ++ [join " " (current_sentences st)]
      else chunks st in
    filter (fun c => truthy (strip c)) chunks
  else [].

End DocumentParsers.

(* ================================================================= *)
(** ** [src/embeddings.py] *)

Module Embeddings.



Inductive provider_kind : Type := Local | OpenAI | Cohere.

(** An instantiated provider; the API client it holds is external. *)
Record EmbeddingProvider : Type := {
  kind : provider_kind;
  model_name : string;
  dimensions : Z
}.

Definition get_dimensions (p : EmbeddingProvider) : Z := dimensions p.
Definition get_model_name (p : EmbeddingProvider) : string := model_name p.






End Embeddings.

(* ================================================================= *)
(** ** [src/vector_databases.py] *)

Module VectorDatabases.

Definition vector := list Q.

(** A 2-D array of embeddings, one row per text. *)
Definition ndarray := list vector.

(** *** The exact index of the external library

    [faiss.IndexFlatL2] and [faiss.IndexFlatIP] keep the vectors in insertion
    order and answer a search by scanning all of them.  The L2 index reports
    squared Euclidean distances, smallest first; the inner-product index
    reports inner products, largest first.  Both reject an array whose width
    differs from the index's [d], and a search for fewer than one result. *)

Inductive metric : Type := METRIC_L2 | METRIC_INNER_PRODUCT.

Record faiss_index : Type := {
  metric_type : metric;
  d : Z;
  xb : ndarray
}.

Definition IndexFlatL2 (dimensions : Z) : faiss_index :=
  {| metric_type := METRIC_L2; d := dimensions; xb := [] |}.

Definition IndexFlatIP (dimensions : Z) : faiss_index :=
  {| metric_type := METRIC_INNER_PRODUCT; d := dimensions; xb := [] |}.

Definition ntotal (index : faiss_index) : Z := len (xb index).

Definition index_add (index : faiss_index) (x : ndarray) : result faiss_index :=
  if forallb (fun v => Z.eqb (len v) (d index)) x
  then Ok {| metric_type := metric_type index; d := d index; xb := xb index ++ x |}
  else Raise AssertionError.

Definition index_reset (index : faiss_index) : faiss_index :=
  {| metric_type := metric_type index; d := d index; xb := [] |}.

Fixpoint l2_sqr (x y : vector) : Q :=
  match x, y with
  | a :: x', b :: y' => (a - b) * (a - b) + l2_sqr x' y'
  | _, _ => 0
  end.

Fixpoint inner_product (x y : vector) : Q :=
  match x, y with
  | a :: x', b :: y' => a * b + inner_product x' y'
  | _, _ => 0
  end.

(** [before m a b]: a result with score [a] is reported no later than one with
    score [b]. *)
Definition before (m : metric) (a b : Q) : bool :=
  match m with
  | METRIC_L2 => Qle_bool a b
  | METRIC_INNER_PRODUCT => Qle_bool b a
  end.

Fixpoint insert_hit (m : metric) (h : Q * nat) (l : list (Q * nat)) : list (Q * nat) :=
  match l with
  | [] => [h]
  | h' :: l' => if before m (fst h) (fst h') then h :: l else h' :: insert_hit m h l'
  end.

Fixpoint rank (m : metric) (l : list (Q * nat)) : list (Q * nat) :=
  match l with
  | [] => []
  | h :: l' => insert_hit m h (rank m l')
  end.

Definition score (m : metric) (x v : vector) : Q :=
  match m with
  | METRIC_L2 => l2_sqr x v
  | METRIC_INNER_PRODUCT => inner_product x v
  end.

(** [index.search(x, k)] for one query row: the pair (distances, indices),
    here zipped. *)
Definition index_search (index : faiss_index) (x : vector) (k : Z)
  : result (list (Q * nat)) :=
  if negb (Z.eqb (len x) (d index)) then Raise AssertionError
  else if negb (0 <? k)%Z then Raise AssertionError
  else
    let scored :=
      combine (map (score (metric_type index) x) (xb index))
              (seq 0 (length (xb index))) in
    Ok (firstn (Z.to_nat k) (rank (metric_type index) scored)).

(** *** [FAISSDatabase] *)

Record chunk : Type := {
  id : string;
  text : pystr;
  metadata : pydict
}.

Record FAISSDatabase : Type := {
  dimensions : Z;
  index_type : string;
  chunks : list chunk;
  index : faiss_index
}.

Definition set_chunks (self : FAISSDatabase) (cs : list chunk) : FAISSDatabase :=
  {| dimensions := dimensions self; index_type := index_type self;
     chunks := cs; index := index self |}.

Definition set_index (self : FAISSDatabase) (ix : faiss_index) : FAISSDatabase :=
  {| dimensions := dimensions self; index_type := index_type self;
     chunks := chunks self; index := ix |}.

(** [FAISSDatabase.__init__] *)
Definition init (dimensions : Z) (index_type : string) : FAISSDatabase :=
  {| dimensions := dimensions;
     index_type := index_type;
     chunks := [];
     index := if String.eqb index_type "IndexFlatL2" then IndexFlatL2 dimensions
              else if String.eqb index_type "IndexFlatIP" then IndexFlatIP dimensions
              else IndexFlatL2 dimensions |}.

(** [[f"vec_{start_id + i}" for i in range(n)]] *)
Definition make_ids (start_id n : nat) : list string :=
  map (fun i => ("vec_" ++ str_of_nat (start_id + i))%string) (seq 0 n).

(** The loop [for i, (text, meta) in enumerate(zip(texts, metadata))] of
    [add]; [ids[i]] raises when [i] is out of range, after the earlier rows
    have been appended. *)
Fixpoint append_chunks (ids : list string) (i : nat) (rows : list (pystr * pydict))
         (cs : list chunk) : result unit * list chunk :=
  match rows with
  | [] => (Ok tt, cs)
  | (text, meta) :: rows' =>
      match nth_error ids i with
      | None => (Raise IndexError, cs)
      | Some vec_id =>
          append_chunks ids (S i) rows'
                        (cs ++ [{| id := vec_id; text := text; metadata := meta |}])
      end
  end.

(** [FAISSDatabase.add]: the value returned or the exception raised, and the
    object as the call leaves it. *)
Definition add (self : FAISSDatabase) (embeddings : ndarray) (texts : list pystr)
           (metadata : list pydict) : result (list string) * FAISSDatabase :=
  let start_id := length (chunks self) in
  let ids := make_ids start_id (length embeddings) in
  match append_chunks ids 0 (combine texts metadata) (chunks self) with
  | (Raise e, cs) => (Raise e, set_chunks self cs)
  | (Ok _, cs) =>
      let self1 := set_chunks self cs in
      match index_add (index self1) embeddings with
      | Raise e => (Raise e, self1)
      | Ok ix => (Ok ids, set_index self1 ix)
      end
  end.

Definition hit : Type := string * pystr * pydict * Q.

Definition similarity (h : hit) : Q := snd h.

(** The loop over [indices[0]] of [search]. *)
Definition format_hits (cs : list chunk) (found : list (Q * nat)) : list hit :=
  flat_map
    (fun '(distance, idx) =>
       match nth_error cs idx with
       | Some chunk => [(id chunk, text chunk, metadata chunk, 1 / (1 + distance))]
       | None => []
       end)
    found.

(** [FAISSDatabase.search] *)
Definition search (self : FAISSDatabase) (query_embedding : vector) (top_k : Z)
  : result (list hit) :=
  if Z.eqb (ntotal (index self)) 0 then Ok []
  else
    found <- index_search (index self) query_embedding
                          (Z.min top_k (ntotal (index self))) ;;
    Ok (format_hits (chunks self) found).

(** [FAISSDatabase.reset] *)
Definition reset (self : FAISSDatabase) : FAISSDatabase :=
  {| dimensions := dimensions self; index_type := index_type self;
     chunks := []; index := index_reset (index self) |}.

(** [FAISSDatabase.get_stats] *)
Definition get_stats (self : FAISSDatabase) : pydict :=
  [ ("provider", VStr "faiss");
    ("index_type", VStr (list_ascii_of_string (index_type self)));
    ("total_vectors", VInt (ntotal (index self)));
    ("dimensions", VInt (dimensions self));
    ("total_chunks", VInt (len (chunks self))) ].

(** *** Timestamp ids of the cloud and relational stores

    [[f"vec_{timestamp}_{i}" for i in range(n)]], where [timestamp] is the
    clock reading [int(time.time() * 1000)] taken by the call. *)
Definition make_timestamp_ids (timestamp n : nat) : list string :=
  map (fun i => ("vec_" ++ str_of_nat timestamp ++ "_" ++ str_of_nat i)%string) (seq 0 n).

(** *** The store interface ([VectorDatabase]) *)

Class VectorDatabase (DB : Type) : Type := {
  vdb_add : DB -> ndarray -> list pystr -> list pydict -> result (list string) * DB;
  vdb_search : DB -> vector -> Z -> result (list hit);
  vdb_reset : DB -> DB;
  vdb_get_stats : DB -> pydict
}.

#[export] Instance FAISS_VectorDatabase : VectorDatabase FAISSDatabase := {
  vdb_add := add;
  vdb_search := search;
  vdb_reset := reset;
  vdb_get_stats := get_stats
}.

(** Operations of a store's life. *)
Inductive op : Type :=
| OpAdd (embeddings : ndarray) (texts : list pystr) (metadata : list pydict)
| OpReset.

(** Run a sequence of operations; the trace lists what each [add] returned. *)
Fixpoint run (self : FAISSDatabase) (ops : list op)
  : list (result (list string)) * FAISSDatabase :=
  match ops with
  | [] => ([], self)
  | OpAdd e t m :: ops' =>
      let '(r, self1) := add self e t m in
      let '(trace, self2) := run self1 ops' in
      (r :: trace, self2)
  | OpReset :: ops' => run (reset self) ops'
  end.

End VectorDatabases.

(* ================================================================= *)
(** ** [src/query_utils.py] *)

Module QueryUtils.

Import Re.

Fixpoint seqs (rs : list regex) : regex :=
  match rs with
  | [] => Eps
  | [r] => r
  | r :: rs' => Seq r (seqs rs')
  end.

Definition digit : regex := Chr Chars.is_digit.
Definition spaces : regex := Star Chars.is_space.
Definition cls (s : pystr) : regex := Chr (Chars.one_of s).
Definition dot : regex := Chr (Chars.eqc ".").

(** [(\d)\s*[Bb][Hh][Kk]]  and  [\1 BHK] *)
Definition bhk_re : regex :=
  seqs [Group digit; spaces; cls "Bb"; cls "Hh"; cls "Kk"].
Definition bhk_to : template := [TGroup1; TLit " BHK"].

(** [(\d)\s*(?:sq\.?\s*ft\.?|sqft)] with [re.IGNORECASE]  and  [\1 sq.ft.] *)
Definition sqft_re : regex :=
  seqs [Group digit; spaces;
        Alt (seqs [lit Chars.eqc_nocase "sq"; Opt dot; spaces;
                   lit Chars.eqc_nocase "ft"; Opt dot])
            (lit Chars.eqc_nocase "sqft")].
Definition sqft_to : template := [TGroup1; TLit " sq.ft."].

(** [(\d)\s*[Cc][Rr](?:ores?)?\.?\b]  and  [\1 Crores] *)
Definition crore_re : regex :=
  seqs [Group digit; spaces; cls "Cc"; cls "Rr";
        Opt (seqs [lit Chars.eqc "ore"; Opt (Chr (Chars.eqc "s"))]);
        Opt dot; WordBoundary].
Definition crore_to : template := [TGroup1; TLit " Crores"].

(** [(\d)\s*[Ll](?:akhs?)?\.?\b]  and  [\1 Lakhs] *)
Definition lakh_re : regex :=
  seqs [Group digit; spaces; cls "Ll";
        Opt (seqs [lit Chars.eqc "akh"; Opt (Chr (Chars.eqc "s"))]);
        Opt dot; WordBoundary].
Definition lakh_to : template := [TGroup1; TLit " Lakhs"].

(** [(?:INR|inr)\s*]  and  ['Rs. '] *)
Definition inr_re : regex :=
  Seq (Alt (lit Chars.eqc "INR") (lit Chars.eqc "inr")) spaces.
Definition inr_to : template := [TLit "Rs. "].

(** [[Rr][Ss]\.?\s*(\d)]  and  [Rs. \1] *)
Definition rs_re : regex :=
  seqs [cls "Rr"; cls "Ss"; Opt dot; spaces; Group digit].
Definition rs_to : template := [TLit "Rs. "; TGroup1].

Definition normalize_query (query : pystr) : pystr :=
  let text := query in
  let text := sub bhk_re bhk_to text in
  let text := sub sqft_re sqft_to text in
  let text := sub crore_re crore_to text in
  let text := sub lakh_re lakh_to text in
  let text := sub inr_re inr_to text in
  let text := sub rs_re rs_to text in
  strip text.

End QueryUtils.

(* ================================================================= *)
(** ** [config.py] *)

Module Config.

Record rag_config : Type := {
  chunk_size : Z;
  chunk_overlap : Z;
  top_k : Z;
  similarity_threshold : option Q
}.

Definition RAG_CONFIG : rag_config :=
  {| chunk_size := 800;
     chunk_overlap := 200;
     top_k := 10;
     similarity_threshold := Some (15 # 100) |}.

Record document_config : Type := {
  supported_formats : list pystr;
  max_file_size_mb : Z;
  pdf_parser : option string;
  excel_combine_sheets : option bool
}.

Definition DOCUMENT_CONFIG : document_config :=
  {| supported_formats :=
       [ (".pdf" : pystr); (".docx" : pystr); (".xlsx" : pystr); (".txt" : pystr) ];
     max_file_size_mb := 50;
     pdf_parser := Some "pypdf2";
     excel_combine_sheets := Some true |}.

End Config.

(* ================================================================= *)
(** ** [app.py] *)

Module App.

Import DocumentParsers VectorDatabases Config.

(** [str(e)] *)
Definition exn_str (e : exn) : string :=
  match e with
  | ValueError msg => msg
  | IndexError => "list index out of range"
  | AssertionError => ""
  | HTTPException _ detail => detail
  end.

(** [except HTTPException: raise] followed by
    [except Exception as e: raise HTTPException(500, prefix + str(e))] *)
Definition reraise {A : Type} (prefix : string) (r : result A) : result A :=
  match r with
  | Ok a => Ok a
  | Raise (HTTPException c detail) => Raise (HTTPException c detail)
  | Raise e => Raise (HTTPException 500 (String.append prefix (exn_str e)))
  end.

Definition option_default {A : Type} (o : option A) (default : A) : A :=
  match o with Some a => a | None => default end.

Definition str_of_Z (z : Z) : string := NilEmpty.string_of_int (Z.to_int z).

(** [repr] of a list of strings, as an f-string prints it. *)
Definition quoted (s : pystr) : pystr := ("'" : pystr) ++ s ++ ("'" : pystr).

Definition repr_list (l : list pystr) : string :=
  String.append "[" (String.append (string_of_list_ascii (join ", " (map quoted l))) "]").

(** [a > b] on floats *)
Definition Qgt_bool (a b : Q) : bool := negb (Qle_bool a b).

(** [round(x)] to the nearest integer, ties to even, and [round(x, 3)]. *)
Definition round_half_even (x : Q) : Z :=
  let f := Qfloor x in
  match Qcompare (x - inject_Z f) (1 # 2) with
  | Lt => f
  | Gt => (f + 1)%Z
  | Eq => if Z.even f then f else (f + 1)%Z
  end.

Definition round3 (x : Q) : Q := inject_Z (round_half_even (x * 1000)) / 1000.

(** [v == 0] *)
Definition is_zero (v : pyval) : bool :=
  match v with
  | VInt n => Z.eqb n 0
  | VFloat q => Qeq_bool q 0
  | VStr _ => false
  end.

Record QueryRequest : Type := {
  question : pystr;
  req_top_k : Z
}.

Record source : Type := {
  src_text : pystr;
  src_filename : pyval;
  src_chunk_index : pyval;
  src_similarity_score : Q
}.

Record QueryResponse : Type := {
  resp_question : pystr;
  answer : pystr;
  sources : list source;
  processing_time_ms : Q
}.

Record UploadResponse : Type := {
  up_status : string;
  up_message : string;
  up_document_id : string;
  up_filename : pystr;
  up_file_info : file_info;
  up_chunks_added : Z;
  up_total_chunks : pyval;
  up_processing_time_ms : Q
}.

Section Server.

Context {DB : Type} {store : VectorDatabase DB}.

(** The configuration records imported from [config.py]. *)
Variable RAG : rag_config.
Variable DOCUMENT : document_config.

(** External collaborators: the byte-level parsers, the text cleaner, the
    embedding model ([embedder.embed]), the answer generator and the clock
    ([now] in seconds, [elapsed_ms] for the time a request took). *)
Variable parsers : stream_parsers.
Variable clean_text : pystr -> pystr.
Variable embed : list pystr -> result ndarray.
Variable generate_answer : pystr -> list hit -> result pystr.
Variable now : Q.
Variable elapsed_ms : Q.

(** The global state of the server. *)
Record server : Type := {
  vector_db : DB;
  document_counter : Z
}.

(** [upload_document] after its two checks: parse, clean, chunk, embed, store. *)
Definition process_document (st : server) (filename : pystr) (file_bytes : bytes)
           (file_info : file_info) : result UploadResponse * server :=
  match auto_detect_and_parse parsers file_bytes filename
          (option_default (pdf_parser DOCUMENT) "pypdf2") "pandas"
          (option_default (excel_combine_sheets DOCUMENT) true) with
  | Raise e => (Raise e, st)
  | Ok text =>
      if negb (truthy (strip text)) then
        (Raise (HTTPException 400 "No text could be extracted from the document"), st)
      else
        let text := clean_text text in
        let chunks := chunk_text text (chunk_size RAG) (chunk_overlap RAG) in
        match embed chunks with
        | Raise e => (Raise e, st)
        | Ok embeddings =>
            let count := (document_counter st + 1)%Z in
            let doc_id :=
              ("doc_" ++ str_of_Z count ++ "_" ++ str_of_Z (Qfloor now))%string in
            let metadata :=
              map (fun i =>
                     [ ("filename", VStr filename);
                       ("document_id", VStr (list_ascii_of_string doc_id));
                       ("chunk_index", VInt (Z.of_nat i));
                       ("total_chunks", VInt (len chunks));
                       ("upload_time", VFloat now) ])
                  (seq 0 (length chunks)) in
            let '(added, db) := vdb_add (vector_db st) embeddings chunks metadata in
            let st' := {| vector_db := db; document_counter := count |} in
            match added with
            | Raise e => (Raise e, st')
            | Ok _ =>
                let stats := vdb_get_stats db in
                (Ok {| up_status := "success";
                       up_message := "Document processed successfully";
                       up_document_id := doc_id;
                       up_filename := filename;
                       up_file_info := file_info;
                       up_chunks_added := len chunks;
                       up_total_chunks := dict_get stats "total_vectors" (VInt 0);
                       up_processing_time_ms := elapsed_ms |}, st')
            end
        end
  end.

(** [extension not in DOCUMENT_CONFIG["supported_formats"]] *)
Definition unsupported (extension : pystr) : bool :=
  negb (existsb (pystr_eqb extension) (supported_formats DOCUMENT)).

(** The body of [upload_document], inside its [try]. *)
Definition upload_body (st : server) (filename : pystr) (file_bytes : bytes)
  : result UploadResponse * server :=
  let max_size_mb := max_file_size_mb DOCUMENT in
  if negb (validate_file_size file_bytes max_size_mb) then
    (Raise (HTTPException 413
              ("File too large. Max size: " ++ str_of_Z max_size_mb ++ " MB")%string), st)
  else
    let file_info := get_file_info file_bytes filename in
    let extension := ("." : pystr) ++ fi_extension file_info in
    if unsupported extension then
      (Raise (HTTPException 400
                ("Unsupported file type: " ++ string_of_list_ascii extension
                 ++ ". Supported: " ++ repr_list (supported_formats DOCUMENT))%string),
       st)
    else process_document st filename file_bytes file_info.

Definition upload_document (st : server) (filename : pystr) (file_bytes : bytes)
  : result UploadResponse * server :=
  let '(r, st') := upload_body st filename file_bytes in
  (reraise "Processing error: " r, st').

(** One entry of the [sources] list of a query response. *)
Definition format_source (r : hit) : source :=
  let '(_, text, metadata, score) := r in
  {| src_text :=
       if (len text >? 200)%Z then firstn 200 text ++ ("..." : pystr) else text;
     src_filename := dict_get metadata "filename" (VStr "Unknown");
     src_chunk_index := dict_get metadata "chunk_index" (VInt 0);
     src_similarity_score := round3 score |}.

(** The search of [query_knowledge_base] followed by its threshold filter. *)
Definition retrieve (db : DB) (query_embedding : ndarray) (top_k : Z)
  : result (list hit) :=
  results <- vdb_search db (hd [] query_embedding) top_k ;;
  let similarity_threshold :=
    option_default (similarity_threshold RAG) (15 # 100) in
  Ok (filter (fun r => Qgt_bool (similarity r) similarity_threshold) results).

Definition no_answer : pystr :=
  "I couldn't find relevant information for your query. Please try rephrasing your question or upload related documents.".

(** The body of [query_knowledge_base], inside its [try]. *)
Definition query_body (st : server) (request : QueryRequest) : result QueryResponse :=
  if negb (truthy (strip (question request))) then
    Raise (HTTPException 400 "Question cannot be empty")
  else
    let stats := vdb_get_stats (vector_db st) in
    if is_zero (dict_get stats "total_vectors" (VInt 0)) then
      Raise (HTTPException 400
               "No documents in knowledge base. Please upload documents first.")
    else
      let normalized_question := QueryUtils.normalize_query (question request) in
      query_embedding <- embed [normalized_question] ;;
      results <- retrieve (vector_db st) query_embedding (req_top_k request) ;;
      if negb (truthy results) then
        Ok {| resp_question := question request;
              answer := no_answer;
              sources := [];
              processing_time_ms := elapsed_ms |}
      else
        answer <- generate_answer (question request) results ;;
        let sources := map format_source results in
        Ok {| resp_question := question request;
              answer := answer;
              sources := sources;
              processing_time_ms := elapsed_ms |}.

Definition query_knowledge_base (st : server) (request : QueryRequest)
  : result QueryResponse :=
  reraise "Query error: " (query_body st request).

(** [reset_database] *)
Definition reset_database (st : server) : server :=
  {| vector_db := vdb_reset (vector_db st); document_counter := 0 |}.

End Server.

End App.

(* ================================================================= *)
(** ** Sample collaborators and inputs

    Concrete parsers, embedding model, answer generator and stores, used to
    run the definitions on explicit inputs. *)

Module Samples.

Import DocumentParsers VectorDatabases Config App.

Definition parsers : stream_parsers :=
  {| parse_pdf_stream := fun _ _ => Ok ("Sunrise Heights offers 2 BHK." : pystr);
     parse_docx_stream := fun _ => Ok ("Green Valley Villas cost 1.95 Crores." : pystr);
     parse_excel_stream := fun _ _ _ => Ok ("Metro Edge 1 BHK is 32 Lakhs." : pystr);
     parse_txt_stream := fun _ => Ok ("Plain text. Two sentences." : pystr) |}.

(** A two-dimensional embedding: the length of the text and the constant 1. *)
Definition embed (texts : list pystr) : result ndarray :=
  Ok (map (fun t => [inject_Z (len t); 1]) texts).

Definition generate_answer (question : pystr) (hits : list hit) : result pystr :=
  Ok ("Generated answer." : pystr).

Definition file_bytes : bytes := [Byte.x25; Byte.x50; Byte.x44; Byte.x46].

Definition empty_server : server (DB := FAISSDatabase) :=
  {| vector_db := init 2 "IndexFlatL2"; document_counter := 0 |}.

(** A store holding three chunks. *)
Definition three_chunks : FAISSDatabase :=
  snd (add (init 2 "IndexFlatL2")
           [[13; 1]; [40; 1]; [90; 1]]
           [ ("Sunrise Heights offers 2 BHK." : pystr);
             ("Green Valley Villas cost 1.95 Crores." : pystr);
             ("Metro Edge 1 BHK is 32 Lakhs." : pystr) ]
           [ [("filename", VStr "a.txt")]; [("filename", VStr "b.txt")];
             [("filename", VStr "c.txt")] ]).

Definition loaded_server : server :=
  {| vector_db := three_chunks; document_counter := 3 |}.

Definition request : QueryRequest :=
  {| question := "price of 2BHK"; req_top_k := 3 |}.

Definition query_result : result QueryResponse :=
  Eval vm_compute in
    query_knowledge_base RAG_CONFIG embed generate_answer 0 loaded_server request.

Definition response : QueryResponse :=
  Eval vm_compute in
    match query_result with
    | Ok r => r
    | Raise _ =>
        {| resp_question := []; answer := []; sources := []; processing_time_ms := 0 |}
    end.

End Samples.

(* ================================================================= *)
(** ** The chunker, chunk by chunk

    The same loop as [chunk_text], keeping every chunk as the list of the
    sentences it is the join of. *)

Module ChunkTrace.

Import DocumentParsers.

(** What [current_length] counts: every sentence with one separator. *)
Definition weight (l : list pystr) : Z :=
  fold_right (fun s acc => (len s + 1 + acc)%Z) 0%Z l.

Record trace : Type := {
  groups : list (list pystr);
  buffer : list pystr
}.

Definition trace_step (chunk_size overlap : Z) (t : trace) (sentence : pystr) : trace :=
  if (weight (buffer t) + len sentence + 1 >? chunk_size)%Z && truthy (buffer t)
  then {| groups := groups t ++ [buffer t];
          buffer := fst (build_overlap overlap (buffer t)) ++ [sentence] |}
  else {| groups := groups t; buffer := buffer t ++ [sentence] |}.

Definition trace_loop (chunk_size overlap : Z) (sentences : list pystr) : trace :=
  fold_left (trace_step chunk_size overlap) sentences {| groups := []; buffer := [] |}.

Definition flush (t : trace) : list (list pystr) :=
  if truthy (buffer t) then groups t ++ [buffer t] else groups t.

Definition chunk_groups (text : pystr) (chunk_size overlap : Z) : list (list pystr) :=
  flush (trace_loop chunk_size overlap (split_sentences text)).

(** A text has a character that is not white space. *)
Definition has_nonspace (s : pystr) : bool :=
  existsb (fun c => negb (Chars.is_space c)) s.

(** The chunker state and the trace describe the same run. *)
Definition same_run (st : chunker) (t : trace) : Prop :=
  chunks st = map (join " ") (groups t)
  /\ current_sentences st = buffer t
  /\ current_length st = weight (buffer t).

(** A chunk within the size, or an overlap seed followed by one sentence. *)
Definition bounded (chunk_size overlap : Z) (g : list pystr) : Prop :=
  (len (join " " g) <= chunk_size)%Z
  \/ exists seed s, g = seed ++ [s] /\ (weight seed <= Z.max 0 overlap)%Z.

(** What holds of a trace once the sentences [done] have been consumed. *)
Record covers (done : list pystr) (t : trace) : Prop := {
  buffer_suffix : exists pre, done = pre ++ buffer t;
  groups_infix :
    Forall (fun g => g <> [] /\ exists a b, done = a ++ g ++ b) (groups t);
  all_placed :
    forall s, In s done -> (exists g, In g (groups t) /\ In s g) \/ In s (buffer t)
}.

(** The size property of all chunks made so far and of the buffer. *)
Definition sized (chunk_size overlap : Z) (t : trace) : Prop :=
  Forall (bounded chunk_size overlap) (groups t)
  /\ (buffer t = [] \/ bounded chunk_size overlap (buffer t)).

End ChunkTrace.

(* ================================================================= *)
(** ** Batches and traces of a store *)

Module StoreTrace.

Import VectorDatabases.

(** The chunk entries that [add] builds from ids, texts and metadata. *)
Definition zip_chunks (ids : list string) (rows : list (pystr * pydict)) : list chunk :=
  map (fun '(vec_id, (t, m)) => {| id := vec_id; text := t; metadata := m |})
      (combine ids rows).

(** The precondition of [add]: one text and one metadata per vector. *)
Definition batch_ok (o : op) : Prop :=
  match o with
  | OpAdd e t m => length t = length e /\ length m = length e
  | OpReset => False
  end.

(** The ids handed out along a trace. *)
Definition returned (trace : list (result (list string))) : list string :=
  flat_map (fun r => match r with Ok ids => ids | Raise _ => [] end) trace.

(** Results in the order of the claim: similarity never increases. *)
Definition by_similarity (a b : hit) : Prop := (similarity b <= similarity a)%Q.

(** An inner-product store holding the vectors (1) and (3). *)
Definition ip_store : FAISSDatabase :=
  snd (add (init 1 "IndexFlatIP") [[1]; [3]]
           [("one" : pystr); ("three" : pystr)] [[]; []]).

(** An L2 store holding the same vectors. *)
Definition l2_store : FAISSDatabase :=
  snd (add (init 1 "IndexFlatL2") [[1]; [3]]
           [("one" : pystr); ("three" : pystr)] [[]; []]).

End StoreTrace.

(* ================================================================= *)
(** ** The rewrite rules of [normalize_query], read off their patterns

    Every rule looks at the text from the cursor on and never at the text
    before it, so one pass of [re.sub] is a left-to-right scan with a
    function that tells whether a match starts here, what replaces it and
    where the scan goes on.  The functions below are these matchers written
    as plain case distinctions; [RuleFacts] proves them equal to what the
    backtracking matcher finds. *)

Module Rules.

Import Re QueryUtils.

(** A matcher: the replacement text and the text after the match. *)
Definition matcher : Type := pystr -> option (pystr * pystr).

(** What [re.sub] finds at a cursor: [match_at] without the passed text. *)
Definition found (r : regex) (t : template) (prev s : pystr) : option (pystr * pystr) :=
  match match_at r prev s with
  | Some (_, rest, cap) => Some (expand t cap, rest)
  | None => None
  end.

Fixpoint scan_loop (fuel : nat) (m : matcher) (s : pystr) : pystr :=
  match fuel with
  | O => s
  | S fuel' =>
      match m s with
      | Some (repl, rest) => repl ++ scan_loop fuel' m rest
      | None =>
          match s with
          | [] => []
          | c :: s' => c :: scan_loop fuel' m s'
          end
      end
  end.

Definition scan (m : matcher) (s : pystr) : pystr := scan_loop (S (length s)) m s.

Fixpoint drop_spaces (s : pystr) : pystr :=
  match s with
  | c :: s' => if Chars.is_space c then drop_spaces s' else s
  | [] => []
  end.

Fixpoint take_spaces (s : pystr) : pystr :=
  match s with
  | c :: s' => if Chars.is_space c then c :: take_spaces s' else []
  | [] => []
  end.

(** [(\d)\s*BODY] replaced by [\1 CANON]: the shape of the four unit rules. *)
Definition unit_at (body : pystr -> option pystr) (canon : pystr) : matcher :=
  fun s =>
    match s with
    | d :: s1 =>
        if Chars.is_digit d then
          match body (drop_spaces s1) with
          | Some rest => Some (d :: " "%char :: canon, rest)
          | None => None
          end
        else None
    | [] => None
    end.

(** [[Bb][Hh][Kk]] *)
Definition bhk_body (s : pystr) : option pystr :=
  match s with
  | b :: h :: k :: rest =>
      if Chars.one_of "Bb" b && Chars.one_of "Hh" h && Chars.one_of "Kk" k
      then Some rest else None
  | _ => None
  end.

(** [ft\.?] under [re.IGNORECASE] *)
Definition ft_part (s : pystr) : option pystr :=
  match s with
  | f :: t :: rest =>
      if Chars.eqc_nocase "f" f && Chars.eqc_nocase "t" t then
        match rest with
        | c :: rest' => if Chars.eqc "." c then Some rest' else Some rest
        | [] => Some []
        end
      else None
  | _ => None
  end.

(** [sq\.?\s*ft\.?|sqft] under [re.IGNORECASE]; the second alternative never
    matches where the first does not. *)
Definition sqft_body (s : pystr) : option pystr :=
  match s with
  | a :: b :: s2 =>
      if Chars.eqc_nocase "s" a && Chars.eqc_nocase "q" b then
        match s2 with
        | c :: s3 =>
            if Chars.eqc "." c then ft_part (drop_spaces s3)
            else ft_part (drop_spaces s2)
        | [] => None
        end
      else None
  | _ => None
  end.

(** [\.?\b] after a word character *)
Definition dotb (s : pystr) : option pystr :=
  match s with
  | c :: s' =>
      if Chars.eqc "." c then (if word_after s' then Some s' else Some s)
      else if Chars.is_word c then None else Some s
  | [] => Some []
  end.

(** [(?:xyz w?)?\.?\b] after a word character, for the letters x, y, z, w *)
Definition long_tail (x y z w : ascii) (s : pystr) : option pystr :=
  match s with
  | a :: b :: c :: s3 =>
      if Chars.eqc x a && Chars.eqc y b && Chars.eqc z c then
        match s3 with
        | e :: s4 => if Chars.eqc w e then dotb s4 else dotb s3
        | [] => dotb s3
        end
      else dotb s
  | _ => dotb s
  end.

(** [[Cc][Rr](?:ores?)?\.?\b] *)
Definition crore_body (s : pystr) : option pystr :=
  match s with
  | c :: r :: s2 =>
      if Chars.one_of "Cc" c && Chars.one_of "Rr" r
      then long_tail "o" "r" "e" "s" s2 else None
  | _ => None
  end.

(** [[Ll](?:akhs?)?\.?\b] *)
Definition lakh_body (s : pystr) : option pystr :=
  match s with
  | l :: s1 => if Chars.one_of "Ll" l then long_tail "a" "k" "h" "s" s1 else None
  | _ => None
  end.

Definition bhk_at : matcher := unit_at bhk_body "BHK".
Definition sqft_at : matcher := unit_at sqft_body "sq.ft.".
Definition crore_at : matcher := unit_at crore_body "Crores".
Definition lakh_at : matcher := unit_at lakh_body "Lakhs".

(** [(?:INR|inr)\s*] replaced by [Rs. ] *)
Definition inr_at : matcher :=
  fun s =>
    match s with
    | a :: b :: c :: s3 =>
        if (Chars.eqc "I" a && Chars.eqc "N" b && Chars.eqc "R" c)
           || (Chars.eqc "i" a && Chars.eqc "n" b && Chars.eqc "r" c)
        then Some (("Rs. " : pystr), drop_spaces s3) else None
    | _ => None
    end.

(** [[Rr][Ss]\.?\s*(\d)] replaced by [Rs. \1] *)
Definition rs_at : matcher :=
  fun s =>
    match s with
    | r :: x :: s2 =>
        if Chars.one_of "Rr" r && Chars.one_of "Ss" x then
          let s3 := match s2 with
                    | c :: s2' => if Chars.eqc "." c then s2' else s2
                    | [] => []
                    end in
          match drop_spaces s3 with
          | d :: rest =>
              if Chars.is_digit d then Some (("Rs. " : pystr) ++ [d], rest) else None
          | [] => None
          end
        else None
    | _ => None
    end.

(** [normalize_query] as six scans and a strip. *)
Definition passes (s : pystr) : pystr :=
  scan rs_at (scan inr_at (scan lakh_at (scan crore_at (scan sqft_at (scan bhk_at s))))).

(** The end of a pattern inside [match_at]: a match must consume something. *)
Definition final (n : nat) : pystr -> pystr -> option pystr -> option (pystr * pystr * option pystr) :=
  fun p' s' cap' => if Nat.ltb (length s') (S n) then Some (p', s', cap') else None.

(** What a sub-pattern finds, compared with a function on the text ahead. *)
Definition agrees (r : regex) (f : pystr -> option pystr) (p u : pystr)
           (cap : option pystr) (n : nat) : Prop :=
  match rmatch r p u cap (final n) with
  | Some (_, rest, cap') => cap' = cap /\ f u = Some rest
  | None => f u = None
  end.

(** A matcher whose matches are never empty. *)
Definition shrinking (m : matcher) : Prop :=
  forall s repl rest, m s = Some (repl, rest) -> (length rest < length s)%nat.

(** [b] is the text from some cursor on. *)
Definition suffix (b y : pystr) : Prop := exists a, y = a ++ b.

Definition fixes (m : matcher) (y : pystr) : Prop :=
  forall b, suffix b y -> forall repl rest, m b = Some (repl, rest) -> b = repl ++ rest.

(** A character that no replacement starts with: neither a digit nor [R]. *)
Definition plain (c : ascii) : bool := negb (Chars.is_digit c) && negb (Chars.eqc "R" c).

(** What the six matchers have in common.  A match starts at a word
    character and its replacement starts with a word character, which is a
    digit or the letter [R] of [Rs. ]; and a digit further inside a
    replacement is its last character, copied from the text, at which the
    matcher itself finds nothing. *)
Definition rewriter (m : matcher) : Prop :=
  forall s repl rest,
    m s = Some (repl, rest) ->
    exists c s1 h r1,
      s = c :: s1 /\ repl = h :: r1
      /\ Chars.is_word c = true /\ Chars.is_word h = true
      /\ plain h = false
      /\ (h = "R"%char -> exists r2, r1 = ("s. " : pystr) ++ r2)
      /\ (forall v x u, r1 = v ++ x :: u -> Chars.is_digit x = true ->
                        u = [] /\ suffix (x :: rest) s /\ m (x :: rest) = None).

(** No match of the matcher starts anywhere in the text. *)
Definition absent (m : matcher) (y : pystr) : Prop :=
  forall b, suffix b y -> m b = None.

(** A match consumes a non-empty prefix of the text. *)
Definition consuming (m : matcher) : Prop :=
  forall s repl rest, m s = Some (repl, rest) -> exists w, w <> [] /\ s = w ++ rest.

(** Where a tail [b'] of the output of a scan of [z] comes from: it is empty,
    or it starts with a replacement, or with a character that was copied, or
    inside a replacement. *)
Definition origin (m : matcher) (z b' : pystr) : Prop :=
  b' = []
  \/ (exists b repl rest,
        suffix b z /\ m b = Some (repl, rest) /\ b' = repl ++ scan m rest)
  \/ (exists c tail,
        suffix (c :: tail) z /\ m (c :: tail) = None /\ b' = c :: scan m tail)
  \/ (exists b repl rest v u,
        suffix b z /\ m b = Some (repl, rest) /\ repl = v ++ u /\ v <> [] /\ u <> []
        /\ b' = u ++ scan m rest).

(** What [body] reads in the output of a scan by [m], it reads in the input
    of the scan, over the same characters. *)
Definition transfers (m : matcher) (body : pystr -> option pystr) : Prop :=
  forall t rest',
    body (scan m t) = Some rest' ->
    exists w rest,
      t = w ++ rest /\ body t = Some rest /\ scan m t = w ++ rest' /\ rest' = scan m rest.

(** A match is not changed by a white-space character added at the end of
    the text. *)
Definition padded (m : matcher) : Prop :=
  forall b R rest x,
    Chars.is_space x = true -> m b = Some (R, rest) -> m (b ++ [x]) = Some (R, rest ++ [x]).

Definition padded_body (body : pystr -> option pystr) : Prop :=
  forall b rest x,
    Chars.is_space x = true -> body b = Some rest -> body (b ++ [x]) = Some (rest ++ [x]).

(** The text has [INR] or [inr] somewhere. *)
Fixpoint has_INR (s : pystr) : bool :=
  match s with
  | a :: s' =>
      match s' with
      | b :: c :: _ =>
          (Chars.eqc "I" a && Chars.eqc "N" b && Chars.eqc "R" c)
          || (Chars.eqc "i" a && Chars.eqc "n" b && Chars.eqc "r" c)
          || has_INR s'
      | _ => false
      end
  | [] => false
  end.

(** A character of a number: a digit or the decimal point. *)
Definition numeral_char (c : ascii) : bool := Chars.is_digit c || Chars.eqc "." c.

(** The text starts with a character of a number. *)
Definition numeral_headed (u : pystr) : bool :=
  match u with x :: _ => numeral_char x | [] => false end.


End Rules.

(* ================================================================= *)
(** ** Chunks as an overlap and new sentences *)

Module ChunkParts.

Import DocumentParsers ChunkTrace.

(** A chunk seen as the sentences it repeats from the chunk before it (the
    overlap) and the sentences it adds. *)
Definition part : Type := (list pystr * list pystr)%type.

Definition whole (p : part) : list pystr := fst p ++ snd p.

(** Every overlap is a tail of the chunk before it; [prev] is the chunk
    before the first part. *)
Fixpoint chained (prev : list pystr) (parts : list part) : Prop :=
  match parts with
  | [] => True
  | p :: rest => (exists pre, prev = pre ++ fst p) /\ chained (whole p) rest
  end.

(** What the trace is after the sentences [done]: the chunks made so far and
    the buffer are parts that add the sentences in order. *)
Definition tiles (overlap : Z) (done : list pystr) (t : trace) : Prop :=
  exists (ps : list part) (seed new : list pystr),
    groups t = map whole ps
    /\ buffer t = seed ++ new
    /\ concat (map snd ps) ++ new = done
    /\ chained [] (ps ++ [(seed, new)])
    /\ Forall (fun p => snd p <> [] /\ (weight (fst p) <= Z.max 0 overlap)%Z)
              (ps ++ [(seed, new)]).

End ChunkParts.

(* ================================================================= *)
(** ** Well-formed operations of a store *)

Module StoreOps.

Import VectorDatabases.

(** A reset, or an add with one text and one metadata per vector. *)
Definition well_formed (o : op) : Prop :=
  match o with
  | OpAdd e t m => length t = length e /\ length m = length e
  | OpReset => True
  end.

(** The chunk list has an entry for every vector of the index. *)
Definition in_sync (self : FAISSDatabase) : Prop :=
  (ntotal (index self) <= len (chunks self))%Z.

(** A hit is the entry of a chunk with a score. *)
Definition hit_of (c : chunk) (h : hit) : Prop :=
  h = (id c, text c, metadata c, similarity h).

End StoreOps.

(* ================================================================= *)
(** ** What a rewrite rule keeps *)

Module RuleKeeps.

Import Rules.

(** The characters of the class [f] that a match consumes are those of its
    replacement, in the same order. *)
Definition keeps (f : ascii -> bool) (m : matcher) : Prop :=
  forall s repl rest,
    m s = Some (repl, rest) ->
    exists w, s = w ++ rest /\ filter f repl = filter f w.

(** The same for the part of a pattern after the digit: it consumes no
    character of the class. *)
Definition skips (f : ascii -> bool) (body : pystr -> option pystr) : Prop :=
  forall u rest, body u = Some rest -> exists w, u = w ++ rest /\ filter f w = [].

(** The digits of a text. *)
Definition digits (s : pystr) : pystr := filter Chars.is_digit s.

(** The spellings of the other shorthands, as the patterns accept them
    after a number: [bhk] in either case letter by letter; [sq], an optional
    point, optional white space, [ft] and an optional point, ignoring case;
    [l], [lakh], [lakhs] with either case for the first letter; and what
    the two rupee rules take before an amount: [INR], [inr], or [rs] in
    either case letter by letter with an optional point. *)
Definition bhk_spelling (w : pystr) : Prop :=
  exists b h k,
    w = [b; h; k] /\ Chars.one_of "Bb" b = true /\ Chars.one_of "Hh" h = true
    /\ Chars.one_of "Kk" k = true.

Definition sqft_spelling (w : pystr) : Prop :=
  exists a b dot1 ws f t dot2,
    w = a :: b :: dot1 ++ ws ++ f :: t :: dot2
    /\ Chars.eqc_nocase "s" a = true /\ Chars.eqc_nocase "q" b = true
    /\ In dot1 [([] : pystr); ("." : pystr)]
    /\ forallb Chars.is_space ws = true
    /\ Chars.eqc_nocase "f" f = true /\ Chars.eqc_nocase "t" t = true
    /\ In dot2 [([] : pystr); ("." : pystr)].

Definition lakh_spelling (w : pystr) : Prop :=
  exists l t,
    w = l :: t /\ Chars.one_of "Ll" l = true
    /\ In t [([] : pystr); ("akh" : pystr); ("akhs" : pystr)].

Definition rupee_spelling (w : pystr) : Prop :=
  In w [("INR" : pystr); ("inr" : pystr)]
  \/ exists r s dot,
      w = r :: s :: dot /\ Chars.one_of "Rr" r = true /\ Chars.one_of "Ss" s = true
      /\ In dot [([] : pystr); ("." : pystr)].

End RuleKeeps.

(* ================================================================= *)
(** ** [src/document_parsers.py]: cleaning the extracted text *)

Module TextCleaning.

Import Re QueryUtils Rules.

Definition nl : ascii := "010"%char.
Definition tab : ascii := "009"%char.

(** The class [[ \t]]. *)
Definition is_blank (c : ascii) : bool := Chars.eqc " " c || Chars.eqc tab c.

Definition newline : regex := Chr (Chars.eqc nl).
Definition number : regex := Plus Chars.is_digit.

(** [\[Page \d+\]\n?] *)
Definition page_marker : regex :=
  seqs [lit Chars.eqc "[Page "; number; Chr (Chars.eqc "]"); Opt newline].

(** [\[(?:Page \d+ - )?Table \d+\]\n?] *)
Definition table_marker : regex :=
  seqs [Chr (Chars.eqc "[");
        Opt (seqs [lit Chars.eqc "Page "; number; lit Chars.eqc " - "]);
        lit Chars.eqc "Table "; number; Chr (Chars.eqc "]"); Opt newline].

(** [\n{3,}] *)
Definition blank_lines : regex := seqs [newline; newline; newline; Star (Chars.eqc nl)].

(** [[ \t]{2,}] *)
Definition blank_run : regex := seqs [Chr is_blank; Chr is_blank; Star is_blank].

(** [(\w)-\n(\w)] replaced by [\1\2].  The pattern has two groups and no
    choice in it: a match is four characters at the cursor, and the scan
    goes on after the fourth. *)
Definition hyphen_at : matcher :=
  fun s =>
    match s with
    | a :: h :: n :: b :: rest =>
        if Chars.is_word a && Chars.eqc "-" h && Chars.eqc nl n && Chars.is_word b
        then Some ([a; b], rest) else None
    | _ => None
    end.

Definition clean_text (text : pystr) : pystr :=
  let text := sub page_marker [] text in
  let text := sub table_marker [] text in
  let text := scan hyphen_at text in
  let text := sub blank_lines [TLit [nl; nl]] text in
  let text := sub blank_run [TLit " "] text in
  let text := join [nl] (map strip (split_char nl text)) in
  strip text.

(** [parse_pdf_pypdf2] after the PDF reader: [pages] holds what
    [page.extract_text()] returns for each page, in page order, and
    [page_num] counts from the number given. *)
Fixpoint text_parts (page_num : nat) (pages : list pystr) : list pystr :=
  match pages with
  | [] => []
  | text :: rest =>
      if truthy (strip text)
      then (("[Page " : pystr) ++ (str_of_nat page_num : pystr) ++ ("]" : pystr)
              ++ [nl] ++ text) :: text_parts (S page_num) rest
      else text_parts (S page_num) rest
  end.

Definition parse_pdf_pypdf2 (pages : list pystr) : pystr :=
  join [nl; nl] (text_parts 1 pages).

(** *** The passes read off their patterns *)

Fixpoint take_run (p : ascii -> bool) (s : pystr) : pystr :=
  match s with
  | c :: s' => if p c then c :: take_run p s' else []
  | [] => []
  end.

Fixpoint drop_run (p : ascii -> bool) (s : pystr) : pystr :=
  match s with
  | c :: s' => if p c then drop_run p s' else s
  | [] => []
  end.

(** A literal at the cursor: the text after it. *)
Fixpoint after (l s : pystr) : option pystr :=
  match l with
  | [] => Some s
  | c :: l' =>
      match s with
      | x :: s' => if Chars.eqc c x then after l' s' else None
      | [] => None
      end
  end.

(** [\n?] *)
Definition opt_newline (s : pystr) : pystr :=
  match s with
  | c :: s' => if Chars.eqc nl c then s' else s
  | [] => []
  end.

(** [\d+\]\n?] *)
Definition number_closed (s : pystr) : option pystr :=
  match s with
  | d :: s' =>
      if Chars.is_digit d then
        match drop_run Chars.is_digit s' with
        | c :: v => if Chars.eqc "]" c then Some (opt_newline v) else None
        | [] => None
        end
      else None
  | [] => None
  end.

Definition page_at : matcher :=
  fun s =>
    match after "[Page " s with
    | Some u => match number_closed u with
                | Some rest => Some ([], rest)
                | None => None
                end
    | None => None
    end.

Definition lines_at : matcher :=
  fun s =>
    match s with
    | a :: b :: c :: rest =>
        if Chars.eqc nl a && Chars.eqc nl b && Chars.eqc nl c
        then Some ([nl; nl], drop_run (Chars.eqc nl) rest) else None
    | _ => None
    end.

Definition blank_at : matcher :=
  fun s =>
    match s with
    | a :: b :: rest =>
        if is_blank a && is_blank b
        then Some ((" " : pystr), drop_run is_blank rest) else None
    | _ => None
    end.

(** Two neighbouring characters, the first in [p] and the second in [q]. *)
Fixpoint adjacent (p q : ascii -> bool) (s : pystr) : bool :=
  match s with
  | a :: s' =>
      match s' with
      | b :: _ => (p a && q b) || adjacent p q s'
      | [] => false
      end
  | [] => false
  end.

(** Three characters of [p] in a row. *)
Fixpoint triple (p : ascii -> bool) (s : pystr) : bool :=
  match s with
  | a :: s' =>
      match s' with
      | b :: c :: _ => (p a && p b && p c) || triple p s'
      | _ => false
      end
  | [] => false
  end.

(** The lines of a text. *)
Definition lines (s : pystr) : list pystr := split_char nl s.

(** The five substitutions of [clean_text], four of them as scans. *)
Definition cleaning_passes (text : pystr) : pystr :=
  scan blank_at (scan lines_at (scan hyphen_at (sub table_marker [] (scan page_at text)))).

(** The text starts with a character of [q]. *)
Definition headed (q : ascii -> bool) (s : pystr) : bool :=
  match s with b :: _ => q b | [] => false end.

(** No line of the text starts or ends with white space. *)
Definition trimmed (s : pystr) : Prop := Forall (fun l => strip l = l) (lines s).

(** A line [a], then [k] lines that hold one space each, then the line
    [b]. *)
Definition spaced (a : pystr) (k : nat) (b : pystr) : pystr :=
  a ++ nl :: concat (repeat [" "%char; nl] k) ++ b.

(** The character [c] does not occur in the text. *)
Definition free_of (c : ascii) (s : pystr) : bool :=
  forallb (fun x => negb (Chars.eqc c x)) s.

(** The pages that [parse_pdf_pypdf2] keeps. *)
Definition kept_pages (pages : list pystr) : list pystr :=
  filter (fun text => truthy (strip text)) pages.

End TextCleaning.

(* ================================================================= *)
(** * Properties *)

(** ** Embedding providers *)

Module EmbeddingFacts.

Import Embeddings.





End EmbeddingFacts.

(* ================================================================= *)
(** ** Upload boundary and retrieval orchestrator *)

Module AppFacts.

Import DocumentParsers VectorDatabases Config App.

Lemma pystr_eqb_eq (a b : pystr) : pystr_eqb a b = true <-> a = b.
Proof.
  unfold pystr_eqb. destruct (list_eq_dec ascii_dec a b); split; congruence.
Qed.

(** The extensions that the configured allow-list lets through, without their
    leading dot. *)
Lemma unsupported_DOCUMENT_CONFIG (ext : pystr) :
  unsupported DOCUMENT_CONFIG (("." : pystr) ++ ext) = false
  <-> In ext [("pdf" : pystr); ("docx" : pystr); ("xlsx" : pystr); ("txt" : pystr)].
Proof.
  unfold unsupported. rewrite negb_false_iff, existsb_exists. split.
  - intros [x [Hin Heq]]. apply pystr_eqb_eq in Heq. subst x.
    simpl in Hin.
    repeat (destruct Hin as [Hin|Hin];
            [injection Hin as <-; simpl; tauto|]).
    contradiction.
  - intros Hin. exists (("." : pystr) ++ ext). split; [|now apply pystr_eqb_eq].
    simpl in Hin.
    repeat (destruct Hin as [<-|Hin]; [simpl; tauto|]).
    contradiction.
Qed.

(** C8 (as stated, refuted): an upload named [prices.xls] does not pass the
    format check; it is rejected with status 400 although [.xls] is one of
    the five extensions of the claim (and the parser would accept it). *)
Lemma xls_upload_rejected :
  upload_document RAG_CONFIG DOCUMENT_CONFIG Samples.parsers (fun t => t)
                  Samples.embed 0 0 Samples.empty_server
                  ("prices.xls" : pystr) Samples.file_bytes
  = (Raise (HTTPException 400
       "Unsupported file type: .xls. Supported: ['.pdf', '.docx', '.xlsx', '.txt']"),
     Samples.empty_server)
  /\ auto_detect_and_parse Samples.parsers Samples.file_bytes ("prices.xls" : pystr)
                           "pypdf2" "pandas" true
     = Ok ("Metro Edge 1 BHK is 32 Lakhs." : pystr).
Proof. split; vm_compute; reflexivity. Qed.

(** C8 (amended): with the configured [DOCUMENT_CONFIG], an upload within the
    size limit passes the format check exactly when the lower-cased text
    after the last dot of its filename is one of [pdf], [docx], [xlsx],
    [txt]; then the document goes on to the parser.  Any other filename
    (among them those ending in [.xls]) is rejected with status 400 before
    any parser, embedding or store call, and the server state is unchanged. *)
Theorem upload_allow_list
        {DB : Type} {store : VectorDatabase DB}
        (RAG : rag_config) (parsers : stream_parsers) (clean_text : pystr -> pystr)
        (embed : list pystr -> result ndarray) (now elapsed_ms : Q)
        (st : server) (filename : pystr) (file_bytes : bytes) :
  validate_file_size file_bytes (max_file_size_mb DOCUMENT_CONFIG) = true ->
  let info := get_file_info file_bytes filename in
  let allowed := [("pdf" : pystr); ("docx" : pystr); ("xlsx" : pystr); ("txt" : pystr)] in
  (In (fi_extension info) allowed ->
   upload_body RAG DOCUMENT_CONFIG parsers clean_text embed now elapsed_ms
               st filename file_bytes
   = process_document RAG DOCUMENT_CONFIG parsers clean_text embed now elapsed_ms
                      st filename file_bytes info)
  /\ (~ In (fi_extension info) allowed ->
      upload_document RAG DOCUMENT_CONFIG parsers clean_text embed now elapsed_ms
                      st filename file_bytes
      = (Raise (HTTPException 400
                  ("Unsupported file type: ."
                   ++ string_of_list_ascii (fi_extension info)
                   ++ ". Supported: ['.pdf', '.docx', '.xlsx', '.txt']")%string),
         st)).
Proof.
  intros Hsize info allowed.
  pose proof (unsupported_DOCUMENT_CONFIG (fi_extension info)) as Hiff.
  split; intros Hin.
  - unfold upload_body. rewrite Hsize. cbn [negb].
    fold info. apply Hiff in Hin. now rewrite Hin.
  - unfold upload_document, upload_body. rewrite Hsize. cbn [negb].
    fold info.
    destruct (unsupported DOCUMENT_CONFIG (("." : pystr) ++ fi_extension info)) eqn:E.
    + reflexivity.
    + exfalso. apply Hin, Hiff. reflexivity.
Qed.

Lemma upload_allow_list_witness :
  validate_file_size Samples.file_bytes (max_file_size_mb DOCUMENT_CONFIG) = true
  /\ upload_body RAG_CONFIG DOCUMENT_CONFIG Samples.parsers (fun t => t)
                 Samples.embed 0 0 Samples.empty_server
                 ("Report.XLSX" : pystr) Samples.file_bytes
     = process_document RAG_CONFIG DOCUMENT_CONFIG Samples.parsers (fun t => t)
                        Samples.embed 0 0 Samples.empty_server
                        ("Report.XLSX" : pystr) Samples.file_bytes
                        (get_file_info Samples.file_bytes ("Report.XLSX" : pystr))
  /\ upload_document RAG_CONFIG DOCUMENT_CONFIG Samples.parsers (fun t => t)
                     Samples.embed 0 0 Samples.empty_server
                     ("notes.md" : pystr) Samples.file_bytes
     = (Raise (HTTPException 400
          "Unsupported file type: .md. Supported: ['.pdf', '.docx', '.xlsx', '.txt']"),
        Samples.empty_server).
Proof.
  split; [reflexivity|]. split.
  - apply (proj1 (upload_allow_list RAG_CONFIG Samples.parsers (fun t => t)
                    Samples.embed 0 0 Samples.empty_server
                    ("Report.XLSX" : pystr) Samples.file_bytes eq_refl)).
    vm_compute. tauto.
  - apply (proj2 (upload_allow_list RAG_CONFIG Samples.parsers (fun t => t)
                    Samples.embed 0 0 Samples.empty_server
                    ("notes.md" : pystr) Samples.file_bytes eq_refl)).
    vm_compute. intros H.
    repeat (destruct H as [H|H]; [discriminate H|]). exact H.
Defined.

(** *** Threshold filter *)

Lemma Qgt_bool_lt (a b : Q) : Qgt_bool a b = true <-> (b < a)%Q.
Proof.
  unfold Qgt_bool. rewrite negb_true_iff. split.
  - intros H. apply Qnot_le_lt. intros Hle. apply Qle_bool_iff in Hle. congruence.
  - intros H. destruct (Qle_bool a b) eqn:E; [|reflexivity].
    apply Qle_bool_iff in E. exfalso. exact (Qlt_not_le _ _ H E).
Qed.

Lemma reraise_Ok {A : Type} (prefix : string) (r : result A) (a : A) :
  reraise prefix r = Ok a -> r = Ok a.
Proof. destruct r as [a'|[]]; simpl; congruence. Qed.

(** C5: whenever [query_knowledge_base] answers, its [sources] list is the
    image of exactly those search candidates whose similarity is strictly
    greater than the configured threshold (0.15 when none is configured), in
    the order of the search; a candidate whose similarity is at most the
    threshold is not among the candidates the sources are built from. *)
Theorem threshold_filtering
        {DB : Type} {store : VectorDatabase DB}
        (RAG : rag_config) (embed : list pystr -> result ndarray)
        (generate_answer : pystr -> list hit -> result pystr) (elapsed_ms : Q)
        (st : server) (request : QueryRequest) (resp : QueryResponse) :
  query_knowledge_base RAG embed generate_answer elapsed_ms st request = Ok resp ->
  let threshold := option_default (similarity_threshold RAG) (15 # 100) in
  exists (query_embedding : ndarray) (candidates kept : list hit),
    embed [QueryUtils.normalize_query (question request)] = Ok query_embedding
    /\ vdb_search (vector_db st) (hd [] query_embedding) (req_top_k request)
       = Ok candidates
    /\ kept = filter (fun r => Qgt_bool (similarity r) threshold) candidates
    /\ sources resp = map format_source kept
    /\ Forall (fun r => (threshold < similarity r)%Q) kept
    /\ (forall r, In r candidates -> (similarity r <= threshold)%Q -> ~ In r kept).
Proof.
  intros H threshold.
  apply reraise_Ok in H. unfold query_body in H.
  destruct (negb (truthy (strip (question request)))); [discriminate|].
  destruct (is_zero _); [discriminate|].
  destruct (embed _) as [qe|e] eqn:Hembed; [|discriminate].
  cbn [bind] in H. unfold retrieve in H.
  destruct (vdb_search _ _ _) as [cands|e] eqn:Hsearch; [|discriminate].
  cbn [bind] in H. fold threshold in H.
  set (kept := filter (fun r => Qgt_bool (similarity r) threshold) cands) in *.
  exists qe, cands, kept.
  assert (Hsrc : sources resp = map format_source kept).
  { destruct (negb (truthy kept)) eqn:Hk.
    - injection H as <-. destruct kept; [reflexivity|discriminate].
    - destruct (generate_answer _ _); [|discriminate].
      cbn [bind] in H. injection H as <-. reflexivity. }
  repeat split; try assumption; try reflexivity.
  - apply Forall_forall. intros r Hr. apply filter_In in Hr.
    now apply Qgt_bool_lt.
  - intros r _ Hle Hin. apply filter_In in Hin. destruct Hin as [_ Hgt].
    apply Qgt_bool_lt in Hgt. exact (Qlt_not_le _ _ Hgt Hle).
Qed.

Lemma threshold_filtering_witness :
  query_knowledge_base RAG_CONFIG Samples.embed Samples.generate_answer 0
                       Samples.loaded_server Samples.request
  = Ok Samples.response
  /\ exists (query_embedding : ndarray) (candidates kept : list hit),
    Samples.embed [QueryUtils.normalize_query (question Samples.request)]
    = Ok query_embedding
    /\ vdb_search (vector_db Samples.loaded_server) (hd [] query_embedding)
                  (req_top_k Samples.request) = Ok candidates
    /\ kept = filter (fun r => Qgt_bool (similarity r) (15 # 100)) candidates
    /\ sources Samples.response = map format_source kept
    /\ Forall (fun r => (15 # 100 < similarity r)%Q) kept
    /\ (forall r, In r candidates -> (similarity r <= 15 # 100)%Q -> ~ In r kept).
Proof.
  split; [vm_compute; reflexivity|].
  apply (threshold_filtering RAG_CONFIG Samples.embed Samples.generate_answer 0
                             Samples.loaded_server Samples.request Samples.response).
  vm_compute. reflexivity.
Defined.

End AppFacts.

(* ================================================================= *)
(** ** The chunker *)

Module ChunkFacts.

Import DocumentParsers ChunkTrace.

(** *** Stripping *)

Lemma lstrip_head (s : pystr) (c : ascii) (r : pystr) :
  lstrip s = c :: r -> Chars.is_space c = false.
Proof.
  induction s as [|a s IH]; simpl; [discriminate|].
  destruct (Chars.is_space a) eqn:E; [exact IH|].
  intros H. injection H as <- _. exact E.
Qed.

Lemma truthy_lstrip (s : pystr) : truthy (lstrip s) = has_nonspace s.
Proof.
  induction s as [|a s IH]; simpl; [reflexivity|].
  destruct (Chars.is_space a); simpl; [exact IH|reflexivity].
Qed.

Lemma has_nonspace_rev (s : pystr) : has_nonspace (rev s) = has_nonspace s.
Proof.
  unfold has_nonspace. induction s as [|a s IH]; simpl; [reflexivity|].
  rewrite existsb_app, IH. simpl. rewrite orb_false_r. apply orb_comm.
Qed.

Lemma has_nonspace_lstrip (s : pystr) : has_nonspace (lstrip s) = has_nonspace s.
Proof.
  induction s as [|a s IH]; simpl; [reflexivity|].
  destruct (Chars.is_space a) eqn:E; simpl; rewrite ?E; simpl; [exact IH|reflexivity].
Qed.

Lemma truthy_rev {A : Type} (l : list A) : truthy (rev l) = truthy l.
Proof.
  destruct l as [|a l]; simpl; [reflexivity|].
  destruct (rev l); reflexivity.
Qed.

Lemma truthy_strip (s : pystr) : truthy (strip s) = has_nonspace s.
Proof.
  unfold strip, rstrip.
  now rewrite truthy_rev, truthy_lstrip, has_nonspace_rev, has_nonspace_lstrip.
Qed.

Lemma has_nonspace_strip (s : pystr) : has_nonspace (strip s) = has_nonspace s.
Proof.
  unfold strip, rstrip.
  now rewrite has_nonspace_rev, has_nonspace_lstrip, has_nonspace_rev,
    has_nonspace_lstrip.
Qed.

(** Every sentence of the split is trimmed and not blank. *)
Lemma split_sentences_nonblank (text s : pystr) :
  In s (split_sentences text) -> has_nonspace s = true.
Proof.
  unfold split_sentences. intros H. apply in_map_iff in H.
  destruct H as [x [<- Hx]]. apply filter_In in Hx. destruct Hx as [_ Hx].
  now rewrite has_nonspace_strip, <- truthy_strip.
Qed.

Lemma has_nonspace_join (g : list pystr) (s : pystr) :
  In s g -> has_nonspace s = true -> has_nonspace (join " " g) = true.
Proof.
  unfold has_nonspace. induction g as [|p g IH]; [contradiction|].
  intros Hin Hs. destruct g as [|q g].
  - destruct Hin as [->|[]]. exact Hs.
  - change (join " " (p :: q :: g)) with (p ++ (" " : pystr) ++ join " " (q :: g)).
    rewrite !existsb_app. destruct Hin as [->|Hin].
    + now rewrite Hs.
    + rewrite (IH Hin Hs). now rewrite !orb_true_r.
Qed.

(** *** Lengths *)

Lemma len_app {A : Type} (a b : list A) : len (a ++ b) = (len a + len b)%Z.
Proof. unfold len. rewrite length_app. lia. Qed.

Lemma len_nonneg {A : Type} (a : list A) : (0 <= len a)%Z.
Proof. unfold len. lia. Qed.

Lemma weight_app (a b : list pystr) : weight (a ++ b) = (weight a + weight b)%Z.
Proof.
  induction a as [|s a IH]; simpl; [reflexivity|]. rewrite IH. lia.
Qed.

Lemma weight_nonneg (a : list pystr) : (0 <= weight a)%Z.
Proof.
  induction a as [|s a IH]; simpl; [lia|]. pose proof (len_nonneg s). lia.
Qed.

Lemma len_join (g : list pystr) :
  g <> [] -> len (join " " g) = (weight g - 1)%Z.
Proof.
  induction g as [|p g IH]; [congruence|]. intros _.
  destruct g as [|q g].
  - simpl. lia.
  - change (join " " (p :: q :: g)) with (p ++ (" " : pystr) ++ join " " (q :: g)).
    rewrite !len_app, IH by discriminate.
    change (weight (p :: q :: g)) with (len p + 1 + weight (q :: g))%Z.
    change (len (" " : pystr)) with 1%Z. lia.
Qed.

(** *** The overlap seed *)

Lemma overlap_loop_spec (overlap : Z) (rest acc : list pystr) :
  (weight acc <= Z.max 0 overlap)%Z ->
  let r := overlap_loop overlap rest acc (weight acc) in
  snd r = weight (fst r)
  /\ (weight (fst r) <= Z.max 0 overlap)%Z
  /\ exists taken left, rest = taken ++ left /\ fst r = rev taken ++ acc.
Proof.
  revert acc. induction rest as [|s rest IH]; intros acc Hacc; simpl.
  - repeat split; [exact Hacc|]. exists [], []. split; reflexivity.
  - destruct (weight acc + len s + 1 >? overlap)%Z eqn:E.
    + repeat split; [exact Hacc|]. exists [], (s :: rest). split; reflexivity.
    + assert (Hw : weight (s :: acc) = (weight acc + len s + 1)%Z) by (simpl; lia).
      rewrite <- Hw.
      assert (Hle : (weight (s :: acc) <= Z.max 0 overlap)%Z) by lia.
      destruct (IH (s :: acc) Hle) as [H1 [H2 [taken [left [-> H3]]]]].
      repeat split; [exact H1|exact H2|].
      exists (s :: taken), left. split; [reflexivity|].
      rewrite H3. simpl. now rewrite <- app_assoc.
Qed.

Lemma build_overlap_spec (overlap : Z) (l : list pystr) :
  let r := build_overlap overlap l in
  snd r = weight (fst r)
  /\ (weight (fst r) <= Z.max 0 overlap)%Z
  /\ exists pre, l = pre ++ fst r.
Proof.
  unfold build_overlap.
  assert (H0 : (weight [] <= Z.max 0 overlap)%Z) by (simpl; lia).
  destruct (overlap_loop_spec overlap (rev l) [] H0) as [H1 [H2 [taken [left [Hl H3]]]]].
  change (weight []) with 0%Z in *.
  repeat split; [exact H1|exact H2|].
  exists (rev left). rewrite H3, app_nil_r.
  rewrite <- (rev_involutive l), Hl, rev_app_distr. reflexivity.
Qed.

(** *** The chunker and its trace are the same run *)

Lemma same_run_step (chunk_size overlap : Z) (st : chunker) (t : trace) (s : pystr) :
  same_run st t ->
  same_run (chunk_step chunk_size overlap st s) (trace_step chunk_size overlap t s).
Proof.
  intros [Hc [Hb Hl]]. unfold chunk_step, trace_step.
  rewrite Hl, Hb.
  destruct ((weight (buffer t) + len s + 1 >? chunk_size)%Z && truthy (buffer t)).
  - destruct (build_overlap_spec overlap (buffer t)) as [H1 _].
    destruct (build_overlap overlap (buffer t)) as [seed n].
    unfold same_run.
    cbn [chunks current_sentences current_length groups buffer fst snd] in *.
    rewrite Hc, map_app, weight_app, H1. simpl. repeat split. lia.
  - unfold same_run.
    cbn [chunks current_sentences current_length groups buffer fst snd] in *.
    rewrite Hc, Hb, Hl, weight_app. simpl. repeat split. lia.
Qed.

Lemma same_run_loop (chunk_size overlap : Z) (sentences : list pystr) :
  same_run (chunk_loop chunk_size overlap sentences)
           (trace_loop chunk_size overlap sentences).
Proof.
  unfold chunk_loop, trace_loop.
  set (st0 := {| chunks := []; current_sentences := []; current_length := 0 |}).
  set (t0 := {| groups := []; buffer := [] |}).
  assert (H0 : same_run st0 t0) by (repeat split).
  clearbody st0 t0. revert st0 t0 H0.
  induction sentences as [|s l IH]; intros st0 t0 H0; simpl; [exact H0|].
  apply IH. now apply same_run_step.
Qed.

(** *** What the trace covers *)

Lemma covers_step (chunk_size overlap : Z) (done : list pystr) (t : trace) (s : pystr) :
  covers done t -> covers (done ++ [s]) (trace_step chunk_size overlap t s).
Proof.
  intros [[pre Hpre] Hg Hp]. unfold trace_step.
  destruct ((weight (buffer t) + len s + 1 >? chunk_size)%Z && truthy (buffer t)) eqn:E.
  - apply andb_true_iff in E. destruct E as [_ Hne].
    destruct (build_overlap_spec overlap (buffer t)) as [_ [_ [pre2 Hseed]]].
    constructor; simpl.
    + exists (pre ++ pre2). rewrite Hpre at 1. rewrite Hseed at 1.
      now rewrite <- !app_assoc.
    + apply Forall_app. split.
      * eapply Forall_impl; [|exact Hg]. intros g [Hn [a [b Hab]]].
        split; [exact Hn|]. exists a, (b ++ [s]). rewrite Hab.
        now rewrite <- !app_assoc.
      * constructor; [|constructor]. split.
        -- destruct (buffer t); [discriminate|congruence].
        -- exists pre, [s]. rewrite Hpre at 1. now rewrite <- app_assoc.
    + intros x Hx. apply in_app_iff in Hx. destruct Hx as [Hx|[<-|[]]].
      * left. destruct (Hp x Hx) as [[g [Hgin Hxg]]|Hxb].
        -- exists g. split; [apply in_app_iff; now left|exact Hxg].
        -- exists (buffer t). split; [apply in_app_iff; right; now left|exact Hxb].
      * right. apply in_app_iff. right. now left.
  - constructor; simpl.
    + exists pre. rewrite Hpre at 1. now rewrite <- app_assoc.
    + eapply Forall_impl; [|exact Hg]. intros g [Hn [a [b Hab]]].
      split; [exact Hn|]. exists a, (b ++ [s]). rewrite Hab.
      now rewrite <- !app_assoc.
    + intros x Hx. apply in_app_iff in Hx. destruct Hx as [Hx|[<-|[]]].
      * destruct (Hp x Hx) as [H|H]; [now left|].
        right. apply in_app_iff. now left.
      * right. apply in_app_iff. right. now left.
Qed.

Lemma covers_fold (chunk_size overlap : Z) (todo done : list pystr) (t : trace) :
  covers done t ->
  covers (done ++ todo) (fold_left (trace_step chunk_size overlap) todo t).
Proof.
  revert done t. induction todo as [|s todo IH]; intros done t H; simpl.
  - now rewrite app_nil_r.
  - replace (done ++ s :: todo) with ((done ++ [s]) ++ todo)
      by (now rewrite <- app_assoc).
    apply IH. now apply covers_step.
Qed.

Lemma covers_loop (chunk_size overlap : Z) (sentences : list pystr) :
  covers sentences (trace_loop chunk_size overlap sentences).
Proof.
  apply (covers_fold chunk_size overlap sentences []).
  constructor; simpl.
  - exists []. reflexivity.
  - constructor.
  - contradiction.
Qed.

Lemma covers_flush (sentences : list pystr) (t : trace) :
  covers sentences t ->
  Forall (fun g => g <> [] /\ exists a b, sentences = a ++ g ++ b) (flush t)
  /\ forall s, In s sentences -> exists g, In g (flush t) /\ In s g.
Proof.
  intros [[pre Hpre] Hg Hp]. unfold flush. split.
  - destruct (buffer t) as [|x b] eqn:Eb; simpl; [exact Hg|].
    apply Forall_app. split; [exact Hg|].
    constructor; [|constructor]. split; [discriminate|].
    exists pre, []. now rewrite app_nil_r.
  - intros s Hs. destruct (Hp s Hs) as [[g [Hgin Hsg]]|Hsb].
    + exists g. split; [|exact Hsg].
      destruct (truthy (buffer t)); [apply in_app_iff; now left|exact Hgin].
    + exists (buffer t). split; [|exact Hsb].
      destruct (buffer t); [contradiction|]. simpl. apply in_app_iff. right. now left.
Qed.

Lemma lstrip_fixed (s : pystr) :
  match s with c :: _ => Chars.is_space c = false | [] => True end -> lstrip s = s.
Proof. destruct s as [|c s]; simpl; [reflexivity|]. now intros ->. Qed.

Lemma strip_idempotent (s : pystr) : strip (strip s) = strip s.
Proof.
  unfold strip, rstrip.
  set (a := lstrip (rev (lstrip s))).
  assert (Ha : lstrip a = a).
  { apply lstrip_fixed. subst a. destruct (lstrip (rev (lstrip s))) eqn:E; [exact I|].
    now apply lstrip_head in E. }
  destruct (lstrip s) as [|c r] eqn:Es.
  - reflexivity.
  - assert (Hc : Chars.is_space c = false) by now apply lstrip_head in Es.
    (* [rev a] starts with [c]: stripping the reversed text keeps its last character *)
    assert (Hkeep : forall l acc, exists l', lstrip (l ++ c :: acc) = l' ++ c :: acc).
    { induction l as [|x l IH]; intros acc; simpl.
      - exists []. simpl. now rewrite Hc.
      - destruct (Chars.is_space x); [apply IH|]. now exists (x :: l). }
    destruct (Hkeep (rev r) []) as [l' Hl'].
    assert (Hrev : rev a = c :: rev l').
    { subst a. simpl rev at 1. rewrite Hl', rev_app_distr. reflexivity. }
    rewrite (lstrip_fixed (rev a)) by (rewrite Hrev; exact Hc).
    now rewrite rev_involutive, Ha.
Qed.

(** *** Sizes *)

Lemma sized_step (chunk_size overlap : Z) (t : trace) (s : pystr) :
  sized chunk_size overlap t -> sized chunk_size overlap (trace_step chunk_size overlap t s).
Proof.
  intros [Hg Hb]. unfold trace_step.
  destruct ((weight (buffer t) + len s + 1 >? chunk_size)%Z && truthy (buffer t)) eqn:E.
  - apply andb_true_iff in E. destruct E as [_ Hne].
    destruct (build_overlap_spec overlap (buffer t)) as [_ [Hw _]].
    split; cbn [groups buffer].
    + apply Forall_app. split; [exact Hg|]. constructor; [|constructor].
      destruct Hb as [Hb|Hb]; [|exact Hb]. rewrite Hb in Hne. discriminate.
    + right. right. eexists _, s. split; [reflexivity|exact Hw].
  - split; cbn [groups buffer]; [exact Hg|]. right.
    apply andb_false_iff in E. destruct E as [E|E].
    + left. rewrite len_join by (destruct (buffer t); discriminate).
      rewrite weight_app. simpl. lia.
    + right. destruct (buffer t); [|discriminate].
      exists [], s. split; [reflexivity|simpl; lia].
Qed.

Lemma sized_loop (chunk_size overlap : Z) (sentences : list pystr) :
  sized chunk_size overlap (trace_loop chunk_size overlap sentences).
Proof.
  unfold trace_loop.
  set (t0 := {| groups := []; buffer := [] |}).
  assert (H0 : sized chunk_size overlap t0) by (split; [constructor|now left]).
  clearbody t0. revert t0 H0.
  induction sentences as [|s l IH]; intros t0 H0; simpl; [exact H0|].
  apply IH. now apply sized_step.
Qed.

Lemma sized_flush (chunk_size overlap : Z) (t : trace) :
  sized chunk_size overlap t -> Forall (bounded chunk_size overlap) (flush t).
Proof.
  intros [Hg Hb]. unfold flush. destruct (buffer t) eqn:E; simpl; [exact Hg|].
  apply Forall_app. split; [exact Hg|]. constructor; [|constructor].
  destruct Hb as [Hb|Hb]; [discriminate|exact Hb].
Qed.

(** *** [chunk_text] returns the joins of its groups *)

Lemma filter_all {A : Type} (f : A -> bool) (l : list A) :
  Forall (fun x => f x = true) l -> filter f l = l.
Proof.
  induction 1 as [|x l Hx _ IH]; simpl; [reflexivity|]. now rewrite Hx, IH.
Qed.

Lemma chunk_text_groups (text : pystr) (chunk_size overlap : Z) :
  chunk_text text chunk_size overlap
  = map (join " ") (chunk_groups text chunk_size overlap).
Proof.
  unfold chunk_text, chunk_groups.
  destruct (same_run_loop chunk_size overlap (split_sentences text)) as [Hc [Hb _]].
  destruct (covers_flush _ _ (covers_loop chunk_size overlap (split_sentences text)))
    as [Hinfix _].
  destruct (truthy (split_sentences text)) eqn:E.
  - rewrite Hc, Hb.
    replace (if truthy (buffer (trace_loop chunk_size overlap (split_sentences text)))
             then _ else _)
      with (map (join " ") (flush (trace_loop chunk_size overlap (split_sentences text)))).
    2:{ unfold flush. destruct (truthy (buffer _)); [now rewrite map_app|reflexivity]. }
    apply filter_all. apply Forall_map.
    eapply Forall_impl; [|exact Hinfix]. intros g [Hne [a [b Hab]]].
    rewrite truthy_strip. destruct g as [|s g]; [congruence|].
    apply (has_nonspace_join (s :: g) s); [now left|].
    apply (split_sentences_nonblank text). rewrite Hab.
    apply in_app_iff. right. now left.
  - destruct (split_sentences text); [reflexivity|discriminate].
Qed.

(** C1 (as stated, refuted): with [chunk_size = 10] and [overlap = 3] the
    text [A. Bbbbbbb.] has the two sentences [A.] and [Bbbbbbb.], neither
    longer than 10; the second chunk is the overlap seed [A.] followed by
    [Bbbbbbb.]: two sentences, 11 characters. *)
Lemma overlap_seed_exceeds_chunk_size :
  split_sentences "A. Bbbbbbb." = [("A." : pystr); ("Bbbbbbb." : pystr)]
  /\ chunk_text "A. Bbbbbbb." 10 3 = [("A." : pystr); ("A. Bbbbbbb." : pystr)]
  /\ len ("A. Bbbbbbb." : pystr) = 11%Z
  /\ ~ (Forall (fun c => (len c <= 10)%Z
                         \/ (In c (split_sentences "A. Bbbbbbb.") /\ (10 < len c)%Z))
               (chunk_text "A. Bbbbbbb." 10 3)).
Proof.
  repeat split.
  change (chunk_text "A. Bbbbbbb." 10 3) with [("A." : pystr); ("A. Bbbbbbb." : pystr)].
  change (split_sentences "A. Bbbbbbb.") with [("A." : pystr); ("Bbbbbbb." : pystr)].
  intros H. inversion H as [|? ? _ H2]; subst. inversion H2 as [|? ? H3 _]; subst.
  destruct H3 as [H3|[[H3|[H3|[]]] _]]; [vm_compute in H3; congruence| |]; discriminate.
Qed.

(** C1 (amended): every chunk returned by [chunk_text] has length at most
    [chunk_size], except a chunk that consists of the overlap carried over
    from the previous chunk (sentences weighing at most [overlap], each
    counted with one separator; none when [overlap] is not positive) followed
    by exactly one further sentence.  Such a chunk is made of sentences of
    the text and is at most [max 0 overlap] longer than its last sentence; in
    particular a chunk with no carried-over sentence that exceeds
    [chunk_size] is a single sentence longer than [chunk_size]. *)
Theorem chunk_size_soft_bound (text : pystr) (chunk_size overlap : Z) :
  Forall (fun c =>
            (len c <= chunk_size)%Z
            \/ exists seed s,
                c = join " " (seed ++ [s])
                /\ (forall x, In x (seed ++ [s]) -> In x (split_sentences text))
                /\ (weight seed <= Z.max 0 overlap)%Z
                /\ (len c <= Z.max 0 overlap + len s)%Z
                /\ (seed = [] -> c = s /\ (chunk_size < len s)%Z))
         (chunk_text text chunk_size overlap).
Proof.
  rewrite chunk_text_groups. apply Forall_map. unfold chunk_groups.
  pose proof (sized_flush _ _ _ (sized_loop chunk_size overlap (split_sentences text)))
    as Hsz.
  destruct (covers_flush _ _ (covers_loop chunk_size overlap (split_sentences text)))
    as [Hinfix _].
  set (gs := flush _) in *. clearbody gs.
  induction gs as [|g gs IH]; constructor.
  - inversion Hsz as [|? ? Hb _]; subst. inversion Hinfix as [|? ? Hi _]; subst.
    destruct (Z_le_gt_dec (len (join " " g)) chunk_size) as [Hle|Hgt]; [now left|].
    destruct Hb as [Hb|[seed [s [-> Hw]]]]; [lia|]. right.
    exists seed, s. destruct Hi as [_ [a [b Hab]]].
    repeat split.
    + intros x Hx. rewrite Hab. apply in_app_iff. right. apply in_app_iff. now left.
    + exact Hw.
    + rewrite len_join by (destruct seed; discriminate).
      rewrite weight_app. simpl. lia.
    + subst seed. reflexivity.
    + subst seed. simpl in Hgt. lia.
  - inversion Hsz; subst. inversion Hinfix; subst. now apply IH.
Qed.

(** C7: the chunks returned by [chunk_text] are the space-joins of groups of
    whole sentences; every group is a non-empty run of consecutive sentences
    of the boundary split, and every sentence of the split lies in at least
    one group. *)
Theorem chunk_coverage (text : pystr) (chunk_size overlap : Z) :
  exists groups : list (list pystr),
    chunk_text text chunk_size overlap = map (join " ") groups
    /\ Forall (fun g => g <> [] /\ exists a b, split_sentences text = a ++ g ++ b) groups
    /\ (forall s, In s (split_sentences text) ->
        has_nonspace s = true /\ strip s = s
        /\ exists g, In g groups /\ In s g).
Proof.
  exists (chunk_groups text chunk_size overlap).
  destruct (covers_flush _ _ (covers_loop chunk_size overlap (split_sentences text)))
    as [Hinfix Hin].
  split; [apply chunk_text_groups|]. split; [exact Hinfix|].
  intros s Hs. split; [now apply (split_sentences_nonblank text)|].
  split; [|now apply Hin].
  unfold split_sentences in Hs. apply in_map_iff in Hs.
  destruct Hs as [x [<- _]]. apply strip_idempotent.
Qed.

End ChunkFacts.

(* ================================================================= *)
(** ** The in-memory vector store *)

Module StoreFacts.

Import VectorDatabases StoreTrace.

Local Open Scope nat_scope.

(** *** [add] *)

Lemma append_chunks_spec (ids : list string) (rows : list (pystr * pydict))
      (i : nat) (cs : list chunk) :
  snd (append_chunks ids i rows cs) = cs ++ zip_chunks (skipn i ids) rows
  /\ (length rows + i <= length ids ->
      fst (append_chunks ids i rows cs) = Ok tt
      /\ length (zip_chunks (skipn i ids) rows) = length rows)
  /\ (i <= length ids -> length ids < length rows + i ->
      fst (append_chunks ids i rows cs) = Raise IndexError).
Proof.
  revert i cs. induction rows as [|[t m] rows IH]; intros i cs.
  - simpl. unfold zip_chunks. rewrite combine_nil, app_nil_r. repeat split.
    simpl. lia.
  - cbn [append_chunks].
    destruct (nth_error ids i) as [vec_id|] eqn:E.
    + destruct (IH (S i) (cs ++ [{| id := vec_id; text := t; metadata := m |}]))
        as [H1 [H2 H3]].
      assert (Hskip : skipn i ids = vec_id :: skipn (S i) ids).
      { clear -E. revert i E. induction ids as [|x ids IH]; intros [|i] E;
          simpl in *; try discriminate.
        - now injection E as ->.
        - now apply IH. }
      rewrite Hskip. unfold zip_chunks in *. cbn [combine map length].
      repeat split.
      * rewrite H1, <- app_assoc. reflexivity.
      * apply H2. lia.
      * f_equal. apply H2. lia.
      * intros Hi Hlt. apply H3; [|lia].
        assert (i < length ids) by (apply nth_error_Some; congruence). lia.
    + apply nth_error_None in E.
      rewrite (skipn_all2 ids) by exact E.
      unfold zip_chunks. cbn [combine map fst snd].
      split; [now rewrite app_nil_r|]. split.
      * simpl. intros. lia.
      * reflexivity.
Qed.

Lemma index_add_Ok (ix ix' : faiss_index) (x : ndarray) :
  index_add ix x = Ok ix' ->
  xb ix' = xb ix ++ x /\ metric_type ix' = metric_type ix /\ d ix' = d ix
  /\ Forall (fun v => len v = d ix) x.
Proof.
  unfold index_add.
  destruct (forallb (fun v => Z.eqb (len v) (d ix)) x) eqn:E; [|discriminate].
  intros H. injection H as <-. repeat split.
  apply Forall_forall. intros v Hv.
  rewrite forallb_forall in E. apply Z.eqb_eq. now apply E.
Qed.

(** What [add] leaves behind, whether it returns or raises. *)
Lemma add_spec (self : FAISSDatabase) (e : ndarray) (t : list pystr) (m : list pydict) :
  let ids := make_ids (length (chunks self)) (length e) in
  let r := add self e t m in
  chunks (snd r) = chunks self ++ zip_chunks ids (combine t m)
  /\ dimensions (snd r) = dimensions self
  /\ index_type (snd r) = index_type self
  /\ match fst r with
     | Ok ids' =>
         ids' = ids
         /\ xb (index (snd r)) = xb (index self) ++ e
         /\ metric_type (index (snd r)) = metric_type (index self)
         /\ d (index (snd r)) = d (index self)
         /\ length (combine t m) <= length e
     | Raise _ => index (snd r) = index self
     end.
Proof.
  intros ids r. subst r. unfold add. fold ids.
  destruct (append_chunks_spec ids (combine t m) 0 (chunks self)) as [H1 [H2 H3]].
  change (skipn 0 ids) with ids in *.
  destruct (append_chunks ids 0 (combine t m) (chunks self)) as [[[]|ex] cs];
    cbn [fst snd] in *.
  - destruct (index_add (index (set_chunks self cs)) e) as [ix|ex] eqn:E;
      cbn [fst snd set_index set_chunks chunks dimensions index_type index] in *.
    + apply index_add_Ok in E. destruct E as [Hx [Hm [Hd _]]].
      repeat split; try assumption.
      destruct (le_lt_dec (length (combine t m) + 0) (length ids)) as [Hle|Hlt].
      * unfold ids, make_ids in Hle. rewrite length_map, length_seq in Hle. lia.
      * specialize (H3 (Nat.le_0_l _) Hlt). discriminate.
    + repeat split; assumption.
  - cbn [set_chunks chunks dimensions index_type index]. repeat split; assumption.
Qed.

(** *** [search] *)

Lemma insert_hit_In (m : metric) (h x : Q * nat) (l : list (Q * nat)) :
  In x (insert_hit m h l) <-> x = h \/ In x l.
Proof.
  induction l as [|h' l IH]; simpl; [intuition congruence|].
  destruct (before m (fst h) (fst h')); simpl; [intuition congruence|].
  rewrite IH. intuition congruence.
Qed.

Lemma rank_In (m : metric) (x : Q * nat) (l : list (Q * nat)) :
  In x (rank m l) <-> In x l.
Proof.
  induction l as [|h l IH]; simpl; [tauto|].
  rewrite insert_hit_In, IH. intuition congruence.
Qed.

Lemma In_firstn {A : Type} (n : nat) (l : list A) (x : A) :
  In x (firstn n l) -> In x l.
Proof.
  revert l. induction n as [|n IH]; intros [|a l]; simpl; try tauto.
  intros [H|H]; [now left|right; now apply IH].
Qed.

Lemma index_search_bound (ix : faiss_index) (x : vector) (k : Z)
      (found : list (Q * nat)) :
  index_search ix x k = Ok found ->
  Forall (fun h => snd h < length (xb ix)) found.
Proof.
  unfold index_search.
  destruct (negb (len x =? d ix)%Z); [discriminate|].
  destruct (negb (0 <? k)%Z); [discriminate|].
  intros H. injection H as <-. apply Forall_forall. intros [q i] Hin.
  apply In_firstn, rank_In, in_combine_r, in_seq in Hin. simpl. lia.
Qed.





(** *** Ids *)

Lemma string_of_uint_digits (u : Decimal.uint) :
  forallb Chars.is_digit (list_ascii_of_string (NilEmpty.string_of_uint u)) = true.
Proof. induction u; simpl; try reflexivity; exact IHu. Qed.

Lemma str_of_nat_inj (n n' : nat) : str_of_nat n = str_of_nat n' -> n = n'.
Proof.
  unfold str_of_nat. intros H. apply Unsigned.to_uint_inj.
  apply (f_equal NilEmpty.uint_of_string) in H. rewrite !NilEmpty.usu in H.
  congruence.
Qed.

Lemma append_inj_l (p a b : string) : (p ++ a)%string = (p ++ b)%string -> a = b.
Proof. induction p as [|c p IH]; simpl; [tauto|]. intros H. injection H as H. auto. Qed.

(** Two texts [a_b] and [a'_b'] with digits before the underscore are equal
    only if both parts are. *)
Lemma split_at_underscore (a a' b b' : string) :
  forallb Chars.is_digit (list_ascii_of_string a) = true ->
  forallb Chars.is_digit (list_ascii_of_string a') = true ->
  (a ++ String "_" b)%string = (a' ++ String "_" b')%string ->
  a = a' /\ b = b'.
Proof.
  revert a'. induction a as [|c a IH]; intros [|c' a'] Ha Ha' H; simpl in *.
  - injection H as ->. split; reflexivity.
  - injection H as <- _. discriminate Ha'.
  - injection H as -> _. discriminate Ha.
  - injection H as -> H.
    apply andb_true_iff in Ha, Ha'. destruct Ha as [_ Ha], Ha' as [_ Ha'].
    destruct (IH a' Ha Ha' H) as [-> ->]. split; reflexivity.
Qed.

Lemma make_ids_seq (start n : nat) :
  make_ids start n = map (fun k => ("vec_" ++ str_of_nat k)%string) (seq start n).
Proof.
  unfold make_ids. revert start. induction n as [|n IH]; intros start; [reflexivity|].
  rewrite !seq_S, !map_app, IH. reflexivity.
Qed.

Lemma vec_id_inj (k k' : nat) :
  ("vec_" ++ str_of_nat k)%string = ("vec_" ++ str_of_nat k')%string -> k = k'.
Proof. intros H. apply append_inj_l in H. now apply str_of_nat_inj. Qed.

Lemma NoDup_map_inj {A B : Type} (f : A -> B) (l : list A) :
  (forall x y, f x = f y -> x = y) -> NoDup l -> NoDup (map f l).
Proof.
  intros Hf. induction 1 as [|x l Hx _ IH]; simpl; constructor; [|exact IH].
  intros Hin. apply in_map_iff in Hin. destruct Hin as [y [Hy Hin]].
  apply Hf in Hy. now subst y.
Qed.

Lemma length_zip_chunks (ids : list string) (rows : list (pystr * pydict)) :
  length (zip_chunks ids rows) = Nat.min (length ids) (length rows).
Proof. unfold zip_chunks. now rewrite length_map, length_combine. Qed.

(** The ids returned by a run without reset are numbered upwards from the
    size of the chunk list. *)
Lemma run_returned (ops : list op) (self : FAISSDatabase) :
  Forall batch_ok ops ->
  exists ks : list nat,
    returned (fst (run self ops)) = map (fun k => ("vec_" ++ str_of_nat k)%string) ks
    /\ NoDup ks
    /\ Forall (fun k => length (chunks self) <= k) ks.
Proof.
  intros Hops. revert self.
  induction Hops as [|o ops Ho _ IH]; intros self.
  - exists []. repeat split; constructor.
  - destruct o as [e t m|]; [|contradiction]. destruct Ho as [Ht Hm].
    cbn [run].
    destruct (add_spec self e t m) as [Hc [_ [_ Hr]]].
    destruct (add self e t m) as [r self1]. cbn [fst snd] in *.
    destruct (IH self1) as [ks [Hks [Hnd Hge]]].
    destruct (run self1 ops) as [trace self2]. cbn [fst snd] in *.
    assert (Hlen : length (chunks self1) = length (chunks self) + length e).
    { rewrite Hc, length_app, length_zip_chunks, length_combine.
      unfold make_ids. rewrite length_map, length_seq. lia. }
    destruct r as [ids|ex].
    + destruct Hr as [-> _].
      exists (seq (length (chunks self)) (length e) ++ ks).
      cbn [returned flat_map]. fold (returned trace).
      rewrite Hks, make_ids_seq, map_app. repeat split.
      * apply NoDup_app; [apply seq_NoDup|exact Hnd|].
        intros k Hk Hk'. apply in_seq in Hk.
        rewrite Forall_forall in Hge. specialize (Hge k Hk'). lia.
      * apply Forall_app. split.
        -- apply Forall_forall. intros k Hk. apply in_seq in Hk. lia.
        -- eapply Forall_impl; [|exact Hge]. intros k Hk. cbn beta in Hk. lia.
    + exists ks. cbn [returned flat_map]. fold (returned trace).
      repeat split; [exact Hks|exact Hnd|].
      eapply Forall_impl; [|exact Hge]. intros k Hk. cbn beta in Hk. lia.
Qed.

Lemma timestamp_id_inj (ts ts' i i' : nat) :
  ("vec_" ++ str_of_nat ts ++ "_" ++ str_of_nat i)%string
  = ("vec_" ++ str_of_nat ts' ++ "_" ++ str_of_nat i')%string ->
  ts = ts' /\ i = i'.
Proof.
  intros H. apply append_inj_l in H.
  apply split_at_underscore in H; try apply string_of_uint_digits.
  destruct H as [H1 H2]. split; now apply str_of_nat_inj.
Qed.

(** C3 (as stated, refuted): the id returned by the first [add] is returned
    again by the [add] that follows a [reset]. *)
Lemma id_reused_after_reset :
  fst (run (init 2%Z "IndexFlatL2")
           [ OpAdd [[1; 0]]%Q [("before the reset" : pystr)] [[]];
             OpReset;
             OpAdd [[0; 1]]%Q [("after the reset" : pystr)] [[]] ])
  = [Ok ["vec_0"%string]; Ok ["vec_0"%string]].
Proof. reflexivity. Qed.

(** C3 (amended): over any sequence of [add] calls without a [reset] in
    between, each with one text and one metadata per vector, the ids returned
    are pairwise distinct.  A [reset] starts the numbering again: the first
    [add] after it returns [vec_0], [vec_1], ... whatever was returned
    before.  The timestamp scheme gives distinct ids within one call and
    across calls made at different clock readings. *)
Theorem ids_unique_between_resets (self : FAISSDatabase) (ops : list op) :
  Forall batch_ok ops ->
  NoDup (returned (fst (run self ops)))
  /\ (forall e t m ids,
        fst (add (reset self) e t m) = Ok ids -> ids = make_ids 0 (length e))
  /\ (forall ts ts' n n',
        NoDup (make_timestamp_ids ts n)
        /\ (ts <> ts' ->
            forall x, In x (make_timestamp_ids ts n) ->
                      ~ In x (make_timestamp_ids ts' n'))).
Proof.
  intros Hops. split; [|split].
  - destruct (run_returned ops self Hops) as [ks [-> [Hnd _]]].
    apply NoDup_map_inj; [exact vec_id_inj|exact Hnd].
  - intros e t m ids H.
    destruct (add_spec (reset self) e t m) as [_ [_ [_ Hr]]].
    rewrite H in Hr. destruct Hr as [-> _]. reflexivity.
  - intros ts ts' n n'. unfold make_timestamp_ids. split.
    + apply NoDup_map_inj; [|apply seq_NoDup].
      intros i i' H. now apply timestamp_id_inj in H.
    + intros Hne x Hx Hx'. apply in_map_iff in Hx, Hx'.
      destruct Hx as [i [<- _]], Hx' as [i' [H _]].
      apply timestamp_id_inj in H. destruct H as [H _]. congruence.
Qed.

Lemma ids_unique_between_resets_witness :
  NoDup (returned (fst (run StoreTrace.l2_store
                            [ OpAdd [[5]; [6]]%Q [("five" : pystr); ("six" : pystr)]
                                    [[]; []];
                              OpAdd [[7]]%Q [("seven" : pystr)] [[]] ])))
  /\ returned (fst (run StoreTrace.l2_store
                        [ OpAdd [[5]; [6]]%Q [("five" : pystr); ("six" : pystr)]
                                [[]; []];
                          OpAdd [[7]]%Q [("seven" : pystr)] [[]] ]))
     = ["vec_2"%string; "vec_3"%string; "vec_4"%string].
Proof.
  split; [|reflexivity].
  apply (ids_unique_between_resets StoreTrace.l2_store).
  repeat constructor.
Defined.

(** *** Order of the results *)

Lemma before_total (m : metric) (a b : Q) : before m a b = false -> before m b a = true.
Proof.
  assert (H : forall x y, Qle_bool x y = false -> Qle_bool y x = true).
  { intros x y E. apply Qle_bool_iff. apply Qlt_le_weak, Qnot_le_lt.
    intros Hle. apply Qle_bool_iff in Hle. congruence. }
  destruct m; simpl; apply H.
Qed.

Lemma before_trans (m : metric) (a b c : Q) :
  before m a b = true -> before m b c = true -> before m a c = true.
Proof.
  destruct m; simpl; rewrite !Qle_bool_iff; intros H1 H2.
  - exact (Qle_trans _ _ _ H1 H2).
  - exact (Qle_trans _ _ _ H2 H1).
Qed.

Lemma insert_hit_sorted (m : metric) (h : Q * nat) (l : list (Q * nat)) :
  StronglySorted (fun a b => before m (fst a) (fst b) = true) l ->
  StronglySorted (fun a b => before m (fst a) (fst b) = true) (insert_hit m h l).
Proof.
  induction 1 as [|h' l Hl IH Hall]; simpl.
  - constructor; constructor.
  - destruct (before m (fst h) (fst h')) eqn:E.
    + constructor; [constructor; assumption|].
      constructor; [exact E|].
      eapply Forall_impl; [|exact Hall].
      intros x Hx. cbn beta in Hx. exact (before_trans m _ _ _ E Hx).
    + constructor; [exact IH|].
      apply Forall_forall. intros x Hx. apply insert_hit_In in Hx.
      destruct Hx as [->|Hx]; [now apply before_total|].
      rewrite Forall_forall in Hall. now apply Hall.
Qed.

Lemma rank_sorted (m : metric) (l : list (Q * nat)) :
  StronglySorted (fun a b => before m (fst a) (fst b) = true) (rank m l).
Proof.
  induction l as [|h l IH]; simpl; [constructor|]. now apply insert_hit_sorted.
Qed.

Lemma firstn_sorted {A : Type} (R : A -> A -> Prop) (n : nat) (l : list A) :
  StronglySorted R l -> StronglySorted R (firstn n l).
Proof.
  intros H. revert n. induction H as [|a l Hl IH Hall]; intros [|n]; simpl;
    try constructor.
  - apply IH.
  - apply Forall_forall. intros x Hx. apply In_firstn in Hx.
    rewrite Forall_forall in Hall. now apply Hall.
Qed.

Lemma l2_sqr_nonneg (x y : vector) : (0 <= l2_sqr x y)%Q.
Proof.
  revert y. induction x as [|a x IH]; intros [|b y]; simpl; try apply Qle_refl.
  rewrite <- (Qplus_0_l 0). apply Qplus_le_compat; [|apply IH].
  apply Qsqr_nonneg || (destruct (Qlt_le_dec (a - b) 0) as [Hn|Hp];
    [ setoid_replace ((a - b) * (a - b))%Q with ((- (a - b)) * (- (a - b)))%Q by ring;
      apply Qmult_le_0_compat; apply Qlt_le_weak;
      rewrite <- (Qopp_involutive 0); apply Qopp_lt_compat; exact Hn
    | now apply Qmult_le_0_compat ]).
Qed.

Lemma similarity_antitone (a b : Q) :
  (0 <= a)%Q -> (a <= b)%Q -> (1 / (1 + b) <= 1 / (1 + a))%Q.
Proof.
  intros Ha Hab.
  assert (Hpa : (0 < 1 + a)%Q).
  { apply Qlt_le_trans with (1 + 0)%Q; [reflexivity|].
    apply Qplus_le_compat; [apply Qle_refl|exact Ha]. }
  assert (Hpb : (0 < 1 + b)%Q).
  { eapply Qlt_le_trans; [exact Hpa|].
    apply Qplus_le_compat; [apply Qle_refl|exact Hab]. }
  unfold Qdiv. rewrite !Qmult_1_l.
  apply Qle_shift_inv_l; [exact Hpa|].
  apply Qle_trans with (/ (1 + b) * (1 + b))%Q.
  - apply Qmult_le_l; [now apply Qinv_lt_0_compat|].
    apply Qplus_le_compat; [apply Qle_refl|exact Hab].
  - rewrite Qmult_comm, Qmult_inv_r; [apply Qle_refl|].
    intros H. rewrite H in Hpb. discriminate.
Qed.

Lemma format_hits_sorted (cs : list chunk) (found : list (Q * nat)) :
  StronglySorted (fun a b => (fst a <= fst b)%Q) found ->
  Forall (fun h => (0 <= fst h)%Q) found ->
  StronglySorted by_similarity (format_hits cs found).
Proof.
  unfold format_hits.
  induction 1 as [|[q i] found Hs IH Hall]; intros Hpos; simpl; [constructor|].
  inversion Hpos as [|? ? Hq Hpos']; subst. simpl in Hq.
  specialize (IH Hpos').
  destruct (nth_error cs i) as [c|]; simpl; [|exact IH].
  constructor; [exact IH|].
  apply Forall_forall. intros h Hh. apply in_flat_map in Hh.
  destruct Hh as [[q' i'] [Hin Hh]].
  rewrite Forall_forall in Hall. specialize (Hall _ Hin). simpl in Hall.
  destruct (nth_error cs i') as [c'|]; [|contradiction].
  destruct Hh as [<-|[]]. unfold by_similarity, similarity. simpl.
  now apply similarity_antitone.
Qed.

(** For a store whose index is the L2 index, the results of [search] are in
    non-increasing order of similarity. *)
Lemma l2_search_ordered (self : FAISSDatabase) (q : vector) (k : Z) (hits : list hit) :
  metric_type (index self) = METRIC_L2 ->
  search self q k = Ok hits ->
  StronglySorted by_similarity hits.
Proof.
  intros Hm. unfold search.
  destruct (ntotal (index self) =? 0)%Z.
  { intros H. injection H as <-. constructor. }
  unfold index_search.
  destruct (negb (len q =? d (index self))%Z); [discriminate|].
  destruct (negb (0 <? Z.min k (ntotal (index self)))%Z); [discriminate|].
  cbn [bind]. intros H. injection H as <-. rewrite Hm.
  apply format_hits_sorted.
  - apply firstn_sorted.
    pose proof (rank_sorted METRIC_L2
                  (combine (map (score METRIC_L2 q) (xb (index self)))
                           (seq 0 (length (xb (index self)))))) as Hs.
    clear -Hs. induction Hs as [|a l Hl IH Hall]; constructor; [exact IH|].
    eapply Forall_impl; [|exact Hall]. intros b Hb. now apply Qle_bool_iff.
  - apply Forall_forall. intros [dist i] Hin.
    apply In_firstn, rank_In, in_combine_l, in_map_iff in Hin.
    destruct Hin as [v [<- _]]. simpl. apply l2_sqr_nonneg.
Qed.

(** A store constructed with any index type other than [IndexFlatIP] has the
    L2 index, and keeps it. *)
Lemma init_metric (dims : Z) (ty : string) :
  ty <> "IndexFlatIP"%string -> metric_type (index (init dims ty)) = METRIC_L2.
Proof.
  intros H. unfold init. cbn [index].
  destruct (String.eqb ty "IndexFlatL2"); [reflexivity|].
  destruct (String.eqb_spec ty "IndexFlatIP"); [contradiction|reflexivity].
Qed.

Lemma run_metric (ops : list op) (self : FAISSDatabase) :
  metric_type (index (snd (run self ops))) = metric_type (index self).
Proof.
  revert self. induction ops as [|[e t m|] ops IH]; intros self; cbn [run].
  - reflexivity.
  - destruct (add_spec self e t m) as [_ [_ [_ Hr]]].
    destruct (add self e t m) as [r self1]. cbn [fst snd] in *.
    specialize (IH self1). destruct (run self1 ops) as [trace self2].
    cbn [snd] in *. rewrite IH.
    destruct r; [tauto|now rewrite Hr].
  - rewrite IH. reflexivity.
Qed.

(** C6 (the code at the failing input): an inner-product store holding the
    vectors (1) and (3), searched with the query (1), reports the inner
    products 3 and 1, best first, and [search] turns them into the
    similarities 1/4 and 1/2: the result is in increasing, not non-increasing,
    order of similarity.  The same vectors in an L2 store come back in
    non-increasing order. *)
Theorem ip_search_increasing :
  search StoreTrace.ip_store [1]%Q 2
  = Ok [ ("vec_1"%string, ("three" : pystr), [], (1 # 4)%Q);
         ("vec_0"%string, ("one" : pystr), [], (1 # 2)%Q) ]
  /\ ~ (forall hits, search StoreTrace.ip_store [1]%Q 2 = Ok hits ->
                     StronglySorted by_similarity hits)
  /\ search StoreTrace.l2_store [1]%Q 2
     = Ok [ ("vec_0"%string, ("one" : pystr), [], 1%Q);
            ("vec_1"%string, ("three" : pystr), [], (1 # 5)%Q) ].
Proof.
  split; [vm_compute; reflexivity|]. split; [|vm_compute; reflexivity].
  intros H. specialize (H _ eq_refl).
  vm_compute in H. inversion H as [|? ? _ Hall]; subst.
  inversion Hall as [|? ? Hle _]; subst.
  apply Hle. reflexivity.
Qed.

End StoreFacts.

(* ================================================================= *)
(** ** The rewrite rules of [normalize_query] *)

Module RuleFacts.

Import Re QueryUtils Rules.

Local Open Scope nat_scope.

Local Arguments Chars.one_of : simpl never.
Local Arguments Chars.is_space : simpl never.
Local Arguments Chars.is_digit : simpl never.
Local Arguments Chars.is_word : simpl never.
Local Arguments Chars.eqc : simpl never.
Local Arguments Chars.eqc_nocase : simpl never.

(** Case analysis on one character: 256 cases, each decided by evaluation. *)
Ltac by_cases c := destruct c as [[] [] [] [] [] [] [] []]; vm_compute; try congruence; auto.

Lemma rm_seq {A} a b prev s cap (k : pystr -> pystr -> option pystr -> option A) :
  rmatch (Seq a b) prev s cap k = rmatch a prev s cap (fun p' s' c' => rmatch b p' s' c' k).
Proof. reflexivity. Qed.

Lemma rm_star {A} f prev s cap (k : pystr -> pystr -> option pystr -> option A) :
  rmatch (Star f) prev s cap k = star f prev s (fun p' s' => k p' s' cap).
Proof. reflexivity. Qed.

Lemma rm_chr {A} f prev s cap (k : pystr -> pystr -> option pystr -> option A) :
  rmatch (Chr f) prev s cap k
  = match s with c :: s' => if f c then k (c :: prev) s' cap else None | [] => None end.
Proof. reflexivity. Qed.

Lemma rm_opt {A} r prev s cap (k : pystr -> pystr -> option pystr -> option A) :
  rmatch (Opt r) prev s cap k
  = match rmatch r prev s cap k with Some x => Some x | None => k prev s cap end.
Proof. reflexivity. Qed.

Lemma rm_alt {A} a b prev s cap (k : pystr -> pystr -> option pystr -> option A) :
  rmatch (Alt a b) prev s cap k
  = match rmatch a prev s cap k with Some x => Some x | None => rmatch b prev s cap k end.
Proof. reflexivity. Qed.

Lemma rm_wb {A} prev s cap (k : pystr -> pystr -> option pystr -> option A) :
  rmatch WordBoundary prev s cap k = if at_boundary prev s then k prev s cap else None.
Proof. reflexivity. Qed.

Lemma rm_group_chr {A} p prev c s cap (k : pystr -> pystr -> option pystr -> option A) :
  rmatch (Group (Chr p)) prev (c :: s) cap k
  = if p c then k (c :: prev) s (Some [c]) else None.
Proof.
  cbn [rmatch]. destruct (p c); [|reflexivity]. f_equal. f_equal.
  cbn [length]. replace (S (length prev) - length prev) with 1 by lia. reflexivity.
Qed.

Lemma rm_group_nil {A} p prev cap (k : pystr -> pystr -> option pystr -> option A) :
  rmatch (Group (Chr p)) prev [] cap k = None.
Proof. reflexivity. Qed.

(** A run of spaces followed by something that cannot start with a space:
    only the whole run is tried with success. *)
Lemma star_spaces {A} (prev s : pystr) (k : pystr -> pystr -> option A) :
  (forall p c s', Chars.is_space c = true -> k p (c :: s') = None) ->
  star Chars.is_space prev s k = k (rev (take_spaces s) ++ prev) (drop_spaces s).
Proof.
  intros Hk. revert prev. induction s as [|c s IH]; intros prev; simpl; [reflexivity|].
  destruct (Chars.is_space c) eqn:E; [|reflexivity].
  rewrite IH. simpl. rewrite <- app_assoc. simpl.
  destruct (k _ (drop_spaces s)) eqn:E2; [reflexivity|].
  now rewrite Hk.
Qed.

(** A run of spaces at the end of the pattern: the whole run is taken. *)
Lemma star_greedy {A} (prev s : pystr) (k : pystr -> pystr -> option A) (x : A) :
  k (rev (take_spaces s) ++ prev) (drop_spaces s) = Some x ->
  star Chars.is_space prev s k = Some x.
Proof.
  revert prev. induction s as [|c s IH]; intros prev; simpl; [tauto|].
  destruct (Chars.is_space c) eqn:E; [|tauto].
  simpl. rewrite <- app_assoc. simpl. intros H. now rewrite (IH _ H).
Qed.

Lemma drop_spaces_length s : length (drop_spaces s) <= length s.
Proof. induction s as [|c s IH]; simpl; [lia|]. destruct (Chars.is_space c); simpl; lia. Qed.

Lemma ltb_shorter (n m : nat) : n <= m -> Nat.ltb n (S m) = true.
Proof. intros. apply Nat.ltb_lt. lia. Qed.

Lemma space_not_one_of (cls : pystr) (c : ascii) :
  forallb (fun x => negb (Chars.is_space x)) cls = true ->
  Chars.is_space c = true -> Chars.one_of cls c = false.
Proof.
  intros H Hc. unfold Chars.one_of. apply not_true_is_false. intros E.
  apply existsb_exists in E. destruct E as [x [Hx E]]. apply Ascii.eqb_eq in E. subst x.
  rewrite forallb_forall in H. specialize (H _ Hx). rewrite Hc in H. discriminate.
Qed.

Lemma space_not_digit c : Chars.is_space c = true -> Chars.is_digit c = false.
Proof. by_cases c. Qed.

Lemma space_not_nocase a c :
  Chars.is_space a = false -> Chars.is_upper a = false ->
  Chars.is_space c = true -> Chars.eqc_nocase a c = false.
Proof.
  intros Ha Hu Hc. unfold Chars.eqc_nocase, Chars.lower. rewrite Hu.
  assert (Chars.is_upper c = false) by (revert Hc; by_cases c). rewrite H.
  apply Ascii.eqb_neq. intros ->. congruence.
Qed.

Lemma final_ok n p s cap : length s <= n -> final n p s cap = Some (p, s, cap).
Proof. intros H. unfold final. now rewrite ltb_shorter. Qed.

(** The unit rules: a digit, spaces, then the body. *)
Lemma unit_found (body_re : regex) (body : pystr -> option pystr) (canon : pystr)
      (prev s : pystr) :
  (forall A p c s' cap (k : pystr -> pystr -> option pystr -> option A),
      Chars.is_space c = true -> rmatch body_re p (c :: s') cap k = None) ->
  (forall p u cap n,
      length u <= n ->
      agrees body_re body p u cap n) ->
  found (Seq (Group digit) (Seq spaces body_re)) [TGroup1; TLit (" "%char :: canon)] prev s
  = unit_at body canon s.
Proof.
  intros Hsp Hbody. unfold found, match_at, unit_at.
  destruct s as [|d s1]; [reflexivity|].
  unfold digit, spaces. rewrite rm_seq, rm_group_chr.
  destruct (Chars.is_digit d); [|reflexivity].
  rewrite rm_seq, rm_star, star_spaces by (intros; now apply Hsp).
  pose proof (drop_spaces_length s1) as Hlen.
  specialize (Hbody (rev (take_spaces s1) ++ [d] ++ prev) (drop_spaces s1) (Some [d])
                    (length s1) Hlen).
  cbn [length app] in *. unfold agrees in Hbody. fold (final (length s1)).
  destruct (rmatch body_re _ (drop_spaces s1) _ _) as [[[p' rest] cap']|].
  - destruct Hbody as [-> ->]. cbn [expand flat_map app]. now rewrite app_nil_r.
  - now rewrite Hbody.
Qed.

Ltac literal H :=
  apply Ascii.eqb_eq in H; subst.

Lemma one_of_2 (a b c : ascii) :
  Chars.one_of (a :: b :: nil) c = true -> c = a \/ c = b.
Proof.
  unfold Chars.one_of. cbn [existsb]. rewrite orb_false_r. intros H.
  apply orb_true_iff in H. destruct H as [H|H]; apply Ascii.eqb_eq in H; auto.
Qed.

Lemma found_bhk prev s : found bhk_re bhk_to prev s = bhk_at s.
Proof.
  apply (unit_found (seqs [cls "Bb"; cls "Hh"; cls "Kk"]) bhk_body "BHK").
  - intros A p c s' cap k Hc. cbn [seqs]. unfold cls. rewrite rm_seq, rm_chr.
    now rewrite (space_not_one_of "Bb" c eq_refl Hc).
  - intros p u cap n Hn. cbn [seqs]. unfold agrees, cls, bhk_body.
    rewrite rm_seq, rm_chr.
    destruct u as [|b u]; [reflexivity|].
    destruct (Chars.one_of "Bb" b); [|now destruct u as [|? [|? ?]]].
    rewrite rm_seq, rm_chr.
    destruct u as [|h u]; [reflexivity|].
    destruct (Chars.one_of "Hh" h); [|now destruct u as [|? ?]].
    rewrite rm_chr.
    destruct u as [|k u]; [reflexivity|].
    destruct (Chars.one_of "Kk" k); [|reflexivity].
    cbn [andb length] in *. rewrite final_ok by lia. split; reflexivity.
Qed.



Lemma dotb_found p0 p u cap n :
  Chars.is_word p0 = true -> length u <= n ->
  agrees (Seq (Opt dot) WordBoundary) dotb (p0 :: p) u cap n.
Proof.
  intros Hw Hn. unfold agrees, dot, dotb.
  rewrite rm_seq, rm_opt, rm_chr.
  destruct u as [|c u].
  - rewrite rm_wb. unfold at_boundary. cbn [word_before word_after]. rewrite Hw.
    cbn [xorb]. rewrite final_ok by exact Hn. split; reflexivity.
  - destruct (Chars.eqc "." c) eqn:E.
    + literal E. rewrite rm_wb. unfold at_boundary at 1. cbn [word_before].
      change (Chars.is_word ".") with false. cbn [xorb].
      cbn [length] in Hn.
      destruct (word_after u) eqn:Eu.
      * rewrite final_ok by lia. split; reflexivity.
      * rewrite rm_wb. unfold at_boundary. cbn [word_before word_after]. rewrite Hw.
        change (Chars.is_word ".") with false. cbn [xorb negb].
        rewrite final_ok by (cbn [length]; lia). split; reflexivity.
    + rewrite rm_wb. unfold at_boundary. cbn [word_before word_after]. rewrite Hw.
      destruct (Chars.is_word c); cbn [xorb negb]; [reflexivity|].
      rewrite final_ok by exact Hn. split; reflexivity.
Qed.

Lemma dotb_word c u : Chars.is_word c = true -> dotb (c :: u) = None.
Proof.
  intros H. unfold dotb. rewrite H.
  destruct (Chars.eqc "." c) eqn:E; [|reflexivity].
  literal E. discriminate H.
Qed.

Lemma tail_found x y z w p0 p u cap n :
  Chars.is_word x = true -> Chars.is_word z = true -> Chars.is_word w = true ->
  Chars.is_word p0 = true -> length u <= n ->
  agrees (Seq (Opt (Seq (lit Chars.eqc [x; y; z]) (Opt (Chr (Chars.eqc w)))))
              (Seq (Opt dot) WordBoundary))
         (long_tail x y z w) (p0 :: p) u cap n.
Proof.
  intros Hx Hz Hw Hp Hn. unfold agrees, long_tail.
  pose proof (dotb_found p0 p u cap n Hp Hn) as Hplain. unfold agrees in Hplain.
  rewrite rm_seq, rm_opt.
  set (short := rmatch (Seq (Opt dot) WordBoundary) (p0 :: p) u cap (final n)) in *.
  cbn [lit]. rewrite rm_seq, rm_seq, rm_chr.
  destruct u as [|a u]; [exact Hplain|].
  destruct (Chars.eqc x a) eqn:Ea; [|now destruct u as [|? [|? ?]]].
  rewrite rm_seq, rm_chr.
  destruct u as [|b u]; [exact Hplain|].
  destruct (Chars.eqc y b) eqn:Eb; [|now destruct u as [|? ?]].
  rewrite rm_chr.
  destruct u as [|c u]; [exact Hplain|].
  destruct (Chars.eqc z c) eqn:Ec; [|exact Hplain].
  cbn [andb]. literal Ea. literal Eb. literal Ec.
  (* the long form is there: the short form cannot match, [x] being a letter *)
  assert (Hshort : short = None).
  { destruct short as [[[? ?] ?]|]; [|reflexivity].
    destruct Hplain as [_ Hplain]. now rewrite dotb_word in Hplain. }
  rewrite Hshort. clear Hshort Hplain short.
  cbn [length] in Hn.
  rewrite rm_opt, rm_chr.
  destruct u as [|e u].
  - pose proof (dotb_found c (b :: a :: p0 :: p) [] cap n Hz ltac:(cbn; lia)) as H.
    unfold agrees in H.
    destruct (rmatch _ _ [] cap (final n)) as [[[? ?] ?]|]; exact H.
  - destruct (Chars.eqc w e) eqn:Ee.
    + literal Ee.
      pose proof (dotb_found e (c :: b :: a :: p0 :: p) u cap n Hw
                             ltac:(cbn [length] in *; lia)) as H.
      unfold agrees in H.
      destruct (rmatch _ (e :: _) u cap (final n)) as [[[? ?] ?]|]; [exact H|].
      (* without the optional letter, the boundary fails before it *)
      pose proof (dotb_found c (b :: a :: p0 :: p) (e :: u) cap n Hz
                             ltac:(cbn [length] in *; lia)) as H'.
      unfold agrees in H'. rewrite dotb_word in H' by exact Hw.
      destruct (rmatch _ (c :: _) (e :: u) cap (final n)) as [[[? ?] ?]|];
        [destruct H'; discriminate|exact H].
    + pose proof (dotb_found c (b :: a :: p0 :: p) (e :: u) cap n Hz
                             ltac:(cbn [length] in *; lia)) as H.
      unfold agrees in H.
      destruct (rmatch _ (c :: _) (e :: u) cap (final n)) as [[[? ?] ?]|]; exact H.
Qed.

Lemma one_of_word a b c :
  Chars.is_word a = true -> Chars.is_word b = true ->
  Chars.one_of [a; b] c = true -> Chars.is_word c = true.
Proof. intros Ha Hb H. apply one_of_2 in H. destruct H; now subst. Qed.

Lemma found_crore prev s : found crore_re crore_to prev s = crore_at s.
Proof.
  apply (unit_found
           (Seq (cls "Cc") (Seq (cls "Rr")
              (Seq (Opt (Seq (lit Chars.eqc "ore") (Opt (Chr (Chars.eqc "s")))))
                   (Seq (Opt dot) WordBoundary))))
           crore_body "Crores").
  - intros A p c s' cap k Hc. unfold cls. rewrite rm_seq, rm_chr.
    now rewrite (space_not_one_of "Cc" c eq_refl Hc).
  - intros p u cap n Hn. unfold agrees, cls, crore_body.
    rewrite rm_seq, rm_chr.
    destruct u as [|c u]; [reflexivity|].
    destruct (Chars.one_of "Cc" c); [|now destruct u].
    rewrite rm_seq, rm_chr.
    destruct u as [|r u]; [reflexivity|].
    destruct (Chars.one_of "Rr" r) eqn:Er; [|reflexivity].
    cbn [andb]. cbn [length] in Hn.
    apply (tail_found "o" "r" "e" "s" r (c :: p) u cap n); try reflexivity; [|lia].
    exact (one_of_word "R" "r" r eq_refl eq_refl Er).
Qed.

Lemma found_lakh prev s : found lakh_re lakh_to prev s = lakh_at s.
Proof.
  apply (unit_found
           (Seq (cls "Ll")
              (Seq (Opt (Seq (lit Chars.eqc "akh") (Opt (Chr (Chars.eqc "s")))))
                   (Seq (Opt dot) WordBoundary)))
           lakh_body "Lakhs").
  - intros A p c s' cap k Hc. unfold cls. rewrite rm_seq, rm_chr.
    now rewrite (space_not_one_of "Ll" c eq_refl Hc).
  - intros p u cap n Hn. unfold agrees, cls, lakh_body.
    rewrite rm_seq, rm_chr.
    destruct u as [|l u]; [reflexivity|].
    destruct (Chars.one_of "Ll" l) eqn:El; [|reflexivity].
    cbn [length] in Hn.
    apply (tail_found "a" "k" "h" "s" l p u cap n); try reflexivity; [|lia].
    exact (one_of_word "L" "l" l eq_refl eq_refl El).
Qed.

Lemma nocase_not_space a c :
  Chars.is_space a = false -> Chars.is_upper a = false ->
  Chars.eqc_nocase a c = true -> Chars.is_space c = false /\ Chars.eqc "." c = Chars.eqc "." a.
Proof.
  intros Ha Hu H. unfold Chars.eqc_nocase, Chars.lower in H. rewrite Hu in H.
  apply Ascii.eqb_eq in H. subst a. revert Ha. by_cases c.
Qed.

Lemma drop_spaces_id c s : Chars.is_space c = false -> drop_spaces (c :: s) = c :: s.
Proof. intros H. simpl. now rewrite H. Qed.

Lemma ft_found p u cap n :
  length u <= n ->
  agrees (Seq spaces (Seq (lit Chars.eqc_nocase "ft") (Opt dot)))
         (fun u => ft_part (drop_spaces u)) p u cap n.
Proof.
  intros Hn. unfold agrees, spaces.
  rewrite rm_seq, rm_star, star_spaces.
  2:{ intros q c s' Hc. cbn [lit list_ascii_of_string]. rewrite !rm_seq, rm_chr.
      now rewrite (space_not_nocase "f" c eq_refl eq_refl Hc). }
  pose proof (drop_spaces_length u) as Hlen.
  set (q := rev (take_spaces u) ++ p). clearbody q.
  destruct (drop_spaces u) as [|f v]; [reflexivity|].
  cbn [lit list_ascii_of_string]. rewrite !rm_seq, rm_chr. unfold ft_part.
  destruct (Chars.eqc_nocase "f" f); [|now destruct v].
  rewrite rm_chr.
  destruct v as [|t v]; [reflexivity|].
  destruct (Chars.eqc_nocase "t" t); [|reflexivity].
  cbn [andb length] in *. unfold dot. rewrite rm_opt, rm_chr.
  destruct v as [|c v].
  - rewrite final_ok by (cbn; lia). split; reflexivity.
  - destruct (Chars.eqc "." c).
    + rewrite final_ok by (cbn [length] in *; lia). split; reflexivity.
    + rewrite final_ok by (cbn [length] in *; lia). split; reflexivity.
Qed.

Lemma found_sqft prev s : found sqft_re sqft_to prev s = sqft_at s.
Proof.
  apply (unit_found
           (Alt (seqs [lit Chars.eqc_nocase "sq"; Opt dot; spaces;
                       lit Chars.eqc_nocase "ft"; Opt dot])
                (lit Chars.eqc_nocase "sqft"))
           sqft_body "sq.ft.").
  - intros A p c s' cap k Hc. rewrite rm_alt.
    cbn [seqs lit list_ascii_of_string]. rewrite !rm_seq, !rm_chr.
    now rewrite (space_not_nocase "s" c eq_refl eq_refl Hc).
  - intros p u cap n Hn. unfold agrees, sqft_body.
    rewrite rm_alt. cbn [seqs lit list_ascii_of_string].
    rewrite rm_seq, rm_seq, rm_chr.
    destruct u as [|a u]; [reflexivity|].
    destruct (Chars.eqc_nocase "s" a) eqn:Ea.
    2:{ rewrite rm_seq, rm_chr. rewrite Ea. now destruct u. }
    rewrite rm_chr.
    destruct u as [|b u].
    { rewrite rm_seq, rm_chr, Ea, rm_seq, rm_chr. reflexivity. }
    destruct (Chars.eqc_nocase "q" b) eqn:Eb.
    2:{ rewrite rm_seq, rm_chr, Ea, rm_seq, rm_chr, Eb. reflexivity. }
    cbn [andb length] in *.
    (* the second alternative needs [ft] right after [sq] *)
    rewrite (rm_seq (Chr (Chars.eqc_nocase "s"))), (rm_chr (Chars.eqc_nocase "s")), Ea.
    rewrite (rm_seq (Chr (Chars.eqc_nocase "q"))), (rm_chr (Chars.eqc_nocase "q")), Eb.
    rewrite rm_seq, rm_opt. unfold dot at 1. rewrite rm_chr.
    destruct u as [|c u].
    { rewrite rm_seq. unfold spaces. rewrite rm_star. cbn [star].
      rewrite rm_seq, rm_seq, rm_chr. rewrite rm_seq, rm_chr. reflexivity. }
    pose proof (ft_found (c :: b :: a :: p) u cap n ltac:(cbn [length] in *; lia)) as Hdot.
    pose proof (ft_found (b :: a :: p) (c :: u) cap n ltac:(cbn [length] in *; lia)) as Hno.
    unfold agrees in Hdot, Hno. cbn [lit list_ascii_of_string] in Hdot, Hno.
    destruct (Chars.eqc "." c) eqn:Ec.
    + literal Ec.
      destruct (rmatch _ (_ :: b :: a :: p) u cap (final n)) as [[[? ?] ?]|]; [exact Hdot|].
      rewrite drop_spaces_id in Hno by reflexivity.
      assert (Hnone : ft_part ("."%char :: u) = None) by (now destruct u).
      rewrite Hnone in Hno. clear Hnone.
      destruct (rmatch _ (b :: a :: p) (_ :: u) cap (final n)) as [[[? ?] ?]|];
        [destruct Hno; discriminate|].
      try (rewrite rm_seq, rm_chr). exact Hdot.
    + destruct (rmatch _ (b :: a :: p) (c :: u) cap (final n)) as [[[? ?] ?]|];
        [exact Hno|].
      rewrite rm_seq, rm_chr.
      destruct (Chars.eqc_nocase "f" c) eqn:Ef; [|exact Hno].
      rewrite rm_chr.
      destruct u as [|t u]; [exact Hno|].
      destruct (Chars.eqc_nocase "t" t) eqn:Et; [|exact Hno].
      exfalso.
      destruct (nocase_not_space "f" c eq_refl eq_refl Ef) as [Hs _].
      rewrite drop_spaces_id in Hno by exact Hs.
      unfold ft_part in Hno. rewrite Ef, Et in Hno. cbn [andb] in Hno.
      destruct u as [|x u]; [discriminate|]. destruct (Chars.eqc "." x); discriminate.
Qed.

Ltac rm_step := repeat (progress (rewrite ?rm_seq, ?rm_chr)).

Lemma found_inr prev s : found inr_re inr_to prev s = inr_at s.
Proof.
  unfold found, match_at, inr_re, inr_at, spaces.
  rewrite rm_seq, rm_alt. cbn [lit list_ascii_of_string].
  destruct s as [|a s]; [reflexivity|].
  destruct s as [|b s].
  { rm_step. destruct (Chars.eqc "I" a), (Chars.eqc "i" a); rm_step; reflexivity. }
  destruct s as [|c s].
  { rm_step.
    destruct (Chars.eqc "I" a), (Chars.eqc "i" a), (Chars.eqc "N" b), (Chars.eqc "n" b);
      rm_step; reflexivity. }
  assert (Hall : forall p,
             rmatch (Star Chars.is_space) p s None (final (S (S (length s))))
             = Some (rev (take_spaces s) ++ p, drop_spaces s, None)).
  { intros p. rewrite rm_star. apply star_greedy. apply final_ok.
    pose proof (drop_spaces_length s). lia. }
  fold (final (S (S (length s)))).
  rm_step.
  destruct (Chars.eqc "I" a) eqn:Ea.
  - rm_step. destruct (Chars.eqc "N" b) eqn:Eb.
    + rm_step. destruct (Chars.eqc "R" c) eqn:Ec.
      * rewrite Hall. reflexivity.
      * literal Ea. literal Eb. cbn [andb orb]. reflexivity.
    + literal Ea. reflexivity.
  - cbn [andb orb]. destruct (Chars.eqc "i" a) eqn:Ea'; [|reflexivity].
    rm_step. destruct (Chars.eqc "n" b) eqn:Eb; [|reflexivity].
    rm_step. destruct (Chars.eqc "r" c) eqn:Ec; [|reflexivity].
    rewrite Hall. reflexivity.
Qed.

Lemma found_rs prev s : found rs_re rs_to prev s = rs_at s.
Proof.
  unfold found, match_at, rs_re, rs_at, cls, spaces, digit, dot.
  cbn [seqs]. rewrite rm_seq, rm_chr.
  destruct s as [|r s]; [reflexivity|].
  destruct (Chars.one_of "Rr" r); [|now destruct s].
  rewrite rm_seq, rm_chr.
  destruct s as [|x s]; [reflexivity|].
  destruct (Chars.one_of "Ss" x); [|reflexivity].
  cbn [andb]. fold (final (S (length s))).
  assert (Hdigit : forall p u,
             length u <= length s ->
             match rmatch (Seq (Star Chars.is_space) (Group (Chr Chars.is_digit))) p u None
                          (final (S (length s)))
             with
             | Some (_, rest, cap) =>
                 match drop_spaces u with
                 | d :: rest' => Chars.is_digit d = true /\ rest = rest' /\ cap = Some [d]
                 | [] => False
                 end
             | None =>
                 match drop_spaces u with
                 | d :: _ => Chars.is_digit d = false
                 | [] => True
                 end
             end).
  { intros p u Hu. rewrite rm_seq, rm_star, star_spaces.
    2:{ intros q c s' Hc. rewrite rm_group_chr. now rewrite (space_not_digit c Hc). }
    pose proof (drop_spaces_length u) as Hlen.
    destruct (drop_spaces u) as [|d rest]; [exact I|].
    rewrite rm_group_chr. destruct (Chars.is_digit d); [|reflexivity].
    cbn [length] in Hlen. rewrite final_ok by lia. repeat split. }
  rewrite rm_seq, rm_opt, rm_chr.
  destruct s as [|c s].
  { specialize (Hdigit (x :: r :: prev) [] (Nat.le_refl _)).
    destruct (rmatch _ _ [] None _) as [[[? ?] ?]|]; [contradiction|reflexivity]. }
  destruct (Chars.eqc "." c) eqn:Ec.
  - literal Ec.
    pose proof (Hdigit ("."%char :: x :: r :: prev) s ltac:(cbn [length]; lia)) as H1.
    destruct (rmatch _ (_ :: x :: r :: prev) s None _) as [[[? ?] ?]|].
    + destruct (drop_spaces s) as [|d rest]; [contradiction|].
      destruct H1 as [-> [-> ->]]. reflexivity.
    + pose proof (Hdigit (x :: r :: prev) ("."%char :: s) (Nat.le_refl _)) as H2.
      rewrite drop_spaces_id in H2 by reflexivity.
      destruct (rmatch _ (x :: r :: prev) (_ :: s) None _) as [[[? ?] ?]|].
      * destruct H2 as [H2 _]. discriminate H2.
      * destruct (drop_spaces s) as [|d rest]; [reflexivity|]. now rewrite H1.
  - pose proof (Hdigit (x :: r :: prev) (c :: s) (Nat.le_refl _)) as H2.
    destruct (rmatch _ (x :: r :: prev) (c :: s) None _) as [[[? ?] ?]|].
    + destruct (drop_spaces (c :: s)) as [|d rest]; [contradiction|].
      destruct H2 as [-> [-> ->]]. reflexivity.
    + destruct (drop_spaces (c :: s)) as [|d rest]; [reflexivity|]. now rewrite H2.
Qed.

(** *** One pass of [re.sub] is a scan *)

Lemma sub_loop_scan r t (m : matcher) :
  (forall prev s, found r t prev s = m s) ->
  forall fuel prev s, sub_loop fuel r t prev s = scan_loop fuel m s.
Proof.
  intros Hm. induction fuel as [|fuel IH]; intros prev s; [reflexivity|].
  cbn [sub_loop scan_loop]. rewrite <- (Hm prev s). unfold found.
  destruct (match_at r prev s) as [[[p' rest] cap]|].
  - now rewrite IH.
  - destruct s as [|c s]; [reflexivity|]. now rewrite IH.
Qed.

Lemma sub_scan r t (m : matcher) :
  (forall prev s, found r t prev s = m s) -> forall s, sub r t s = scan m s.
Proof. intros Hm s. apply sub_loop_scan, Hm. Qed.

Lemma normalize_query_passes q : normalize_query q = strip (passes q).
Proof.
  unfold normalize_query, passes.
  rewrite (sub_scan _ _ _ found_bhk), (sub_scan _ _ _ found_sqft),
    (sub_scan _ _ _ found_crore), (sub_scan _ _ _ found_lakh),
    (sub_scan _ _ _ found_inr), (sub_scan _ _ _ found_rs).
  reflexivity.
Qed.

(** Whatever the matcher returns comes from its continuation. *)
Lemma star_from {A} f prev s (k : pystr -> pystr -> option A) x :
  star f prev s k = Some x -> exists p' s', k p' s' = Some x.
Proof.
  revert prev. induction s as [|c s IH]; intros prev; simpl; [eauto|].
  destruct (f c); [|eauto].
  destruct (star f (c :: prev) s k) eqn:E; [|eauto].
  intros H. injection H as <-. eapply IH, E.
Qed.

Lemma rmatch_from {A} r prev s cap (k : pystr -> pystr -> option pystr -> option A) x :
  rmatch r prev s cap k = Some x -> exists p' s' c', k p' s' c' = Some x.
Proof.
  revert A prev s cap k x.
  induction r as [|f|a IHa b IHb|a IHa b IHb|a IHa|f|a IHa|f|];
    intros A prev s cap k x; cbn [rmatch].
  - eauto.
  - destruct s as [|c s]; [discriminate|]. destruct (f c); [eauto|discriminate].
  - intros H. apply IHa in H. destruct H as [p' [s' [c' H]]]. eapply IHb, H.
  - destruct (rmatch a prev s cap k) eqn:E.
    + intros H. injection H as <-. eapply IHa, E.
    + apply IHb.
  - destruct (rmatch a prev s cap k) eqn:E.
    + intros H. injection H as <-. eapply IHa, E.
    + eauto.
  - intros H. apply star_from in H. destruct H as [p' [s' H]]. eauto.
  - intros H. apply IHa in H. destruct H as [p' [s' [c' H]]]. eauto.
  - destruct prev as [|c prev]; [discriminate|]. destruct (f c); [eauto|discriminate].
  - destruct (at_boundary prev s); [eauto|discriminate].
Qed.

Lemma found_shorter r t prev s repl rest :
  found r t prev s = Some (repl, rest) -> length rest < length s.
Proof.
  unfold found, match_at.
  destruct (rmatch r prev s None _) as [[[p' rest'] cap]|] eqn:E; [|discriminate].
  intros H. injection H as _ <-.
  apply rmatch_from in E. destruct E as [p'' [s'' [c'' E]]].
  destruct (Nat.ltb (length s'') (length s)) eqn:L; [|discriminate].
  injection E as _ <- _. now apply Nat.ltb_lt.
Qed.

Lemma shrinking_found r t (m : matcher) :
  (forall prev s, found r t prev s = m s) -> shrinking m.
Proof. intros Hm s repl rest H. rewrite <- (Hm []) in H. eapply found_shorter, H. Qed.

Lemma scan_loop_fuel (m : matcher) :
  shrinking m ->
  forall f1 f2 s, length s < f1 -> length s < f2 -> scan_loop f1 m s = scan_loop f2 m s.
Proof.
  intros Hm. induction f1 as [|f1 IH]; intros f2 s H1 H2; [lia|].
  destruct f2 as [|f2]; [lia|]. cbn [scan_loop].
  destruct (m s) as [[repl rest]|] eqn:E.
  - apply Hm in E. f_equal. apply IH; lia.
  - destruct s as [|c s]; [reflexivity|]. cbn [length] in *. f_equal. apply IH; lia.
Qed.

Lemma scan_eq (m : matcher) (s : pystr) :
  shrinking m ->
  scan m s = match m s with
             | Some (repl, rest) => repl ++ scan m rest
             | None => match s with [] => [] | c :: s' => c :: scan m s' end
             end.
Proof.
  intros Hm. unfold scan at 1. cbn [scan_loop].
  destruct (m s) as [[repl rest]|] eqn:E.
  - f_equal. apply scan_loop_fuel; [exact Hm| |lia]. apply Hm in E. lia.
  - destruct s as [|c s]; [reflexivity|]. reflexivity.
Qed.

Lemma suffix_refl y : suffix y y.
Proof. now exists []. Qed.

Lemma suffix_trans a b c : suffix a b -> suffix b c -> suffix a c.
Proof. intros [x ->] [y ->]. exists (y ++ x). now rewrite app_assoc. Qed.

Lemma suffix_cons c y : suffix y (c :: y).
Proof. now exists [c]. Qed.

Lemma suffix_app a b : suffix b (a ++ b).
Proof. now exists a. Qed.

Lemma suffix_nil_inv b : suffix b [] -> b = [].
Proof. intros [a H]. symmetry in H. now apply app_eq_nil in H. Qed.

Lemma suffix_cons_inv b c y : suffix b (c :: y) -> b = c :: y \/ suffix b y.
Proof.
  intros [[|x a] H]; simpl in H.
  - now left.
  - injection H as _ ->. right. now exists a.
Qed.

Lemma fixes_suffix m b y : suffix b y -> fixes m y -> fixes m b.
Proof. intros Hb Hy b' Hb'. apply Hy. eapply suffix_trans; eassumption. Qed.

Lemma scan_fixes (m : matcher) (y : pystr) :
  shrinking m -> fixes m y -> scan m y = y.
Proof.
  intros Hm. remember (length y) as n eqn:Hn. revert y Hn.
  induction n as [n IH] using lt_wf_ind. intros y -> Hy.
  rewrite scan_eq by exact Hm.
  destruct (m y) as [[repl rest]|] eqn:E.
  - pose proof (Hy y (suffix_refl y) _ _ E) as Hsplit.
    rewrite (IH (length rest)); [now symmetry|now apply Hm in E|reflexivity|].
    eapply fixes_suffix; [|exact Hy]. exists repl. exact Hsplit.
  - destruct y as [|c y]; [reflexivity|]. f_equal.
    apply (IH (length y)); [cbn; lia|reflexivity|].
    eapply fixes_suffix; [apply suffix_cons|exact Hy].
Qed.

End RuleFacts.

(* ================================================================= *)
(** ** The query normalizer *)

Module QueryFacts.

Import Re QueryUtils Rules RuleFacts.

Local Open Scope nat_scope.

Local Arguments Chars.one_of : simpl never.
Local Arguments Chars.is_space : simpl never.
Local Arguments Chars.is_digit : simpl never.
Local Arguments Chars.is_word : simpl never.
Local Arguments Chars.eqc : simpl never.
Local Arguments Chars.eqc_nocase : simpl never.


Lemma shrinking_bhk : shrinking bhk_at.
Proof. exact (shrinking_found _ _ _ found_bhk). Qed.

Lemma shrinking_sqft : shrinking sqft_at.
Proof. exact (shrinking_found _ _ _ found_sqft). Qed.

Lemma shrinking_crore : shrinking crore_at.
Proof. exact (shrinking_found _ _ _ found_crore). Qed.

Lemma shrinking_lakh : shrinking lakh_at.
Proof. exact (shrinking_found _ _ _ found_lakh). Qed.

Lemma shrinking_inr : shrinking inr_at.
Proof. exact (shrinking_found _ _ _ found_inr). Qed.

Lemma shrinking_rs : shrinking rs_at.
Proof. exact (shrinking_found _ _ _ found_rs). Qed.


(** The scan copies a prefix at no cursor of which a match starts. *)
Lemma scan_prefix (m : matcher) (pre y : pystr) :
  shrinking m ->
  (forall a c b, pre = a ++ c :: b -> m (c :: b ++ y) = None) ->
  scan m (pre ++ y) = pre ++ scan m y.
Proof.
  intros Hm. induction pre as [|c pre IH]; intros H; [reflexivity|].
  cbn [app]. rewrite scan_eq by exact Hm.
  rewrite (H [] c pre eq_refl). f_equal. apply IH.
  intros a c' b ->. apply (H (c :: a)). reflexivity.
Qed.

(** The first character decides: what each matcher needs to start. *)
Lemma unit_at_start body canon c u :
  Chars.is_digit c = false -> unit_at body canon (c :: u) = None.
Proof. intros H. unfold unit_at. now rewrite H. Qed.

Lemma drop_spaces_nonspace c u :
  Chars.is_space c = false -> drop_spaces (c :: u) = c :: u.
Proof. intros H. simpl. now rewrite H. Qed.

Lemma drop_spaces_app ws u :
  forallb Chars.is_space ws = true -> drop_spaces (ws ++ u) = drop_spaces u.
Proof.
  induction ws as [|c ws IH]; [reflexivity|]. cbn [forallb app drop_spaces].
  intros H. apply andb_true_iff in H. destruct H as [-> H]. now apply IH.
Qed.

Lemma numeral_not_space x : numeral_char x = true -> Chars.is_space x = false.
Proof. unfold numeral_char. by_cases x. Qed.

(** No rule matches at a character of a number that is followed by another. *)
Lemma unit_numeral body canon x u :
  (forall y v, numeral_char y = true -> body (y :: v) = None) ->
  numeral_headed u = true -> unit_at body canon (x :: u) = None.
Proof.
  intros Hbody Hu. unfold unit_at. destruct (Chars.is_digit x); [|reflexivity].
  destruct u as [|y v]; [discriminate|]. cbn [numeral_headed] in Hu.
  rewrite drop_spaces_nonspace by now apply numeral_not_space.
  now rewrite Hbody.
Qed.

Lemma bhk_body_numeral y v : numeral_char y = true -> bhk_body (y :: v) = None.
Proof.
  intros H. unfold bhk_body.
  assert (E : Chars.one_of "Bb" y = false) by (revert H; unfold numeral_char; by_cases y).
  rewrite E. now destruct v as [|? [|? ?]].
Qed.

Lemma sqft_body_numeral y v : numeral_char y = true -> sqft_body (y :: v) = None.
Proof.
  intros H. unfold sqft_body.
  assert (E : Chars.eqc_nocase "s" y = false)
    by (revert H; unfold numeral_char; by_cases y).
  rewrite E. now destruct v.
Qed.

Lemma crore_body_numeral y v : numeral_char y = true -> crore_body (y :: v) = None.
Proof.
  intros H. unfold crore_body.
  assert (E : Chars.one_of "Cc" y = false) by (revert H; unfold numeral_char; by_cases y).
  rewrite E. now destruct v.
Qed.

Lemma lakh_body_numeral y v : numeral_char y = true -> lakh_body (y :: v) = None.
Proof.
  intros H. unfold lakh_body.
  assert (E : Chars.one_of "Ll" y = false) by (revert H; unfold numeral_char; by_cases y).
  now rewrite E.
Qed.

Lemma inr_numeral x u : numeral_char x = true -> inr_at (x :: u) = None.
Proof.
  intros H. unfold inr_at.
  assert (E1 : Chars.eqc "I" x = false) by (revert H; unfold numeral_char; by_cases x).
  assert (E2 : Chars.eqc "i" x = false) by (revert H; unfold numeral_char; by_cases x).
  rewrite E1, E2. now destruct u as [|? [|? ?]].
Qed.

Lemma rs_numeral x u : numeral_char x = true -> rs_at (x :: u) = None.
Proof.
  intros H. unfold rs_at.
  assert (E : Chars.one_of "Rr" x = false) by (revert H; unfold numeral_char; by_cases x).
  rewrite E. now destruct u.
Qed.

Lemma scan_numeral (m : matcher) (n : pystr) (y0 : ascii) (y : pystr) :
  shrinking m ->
  (forall x u, numeral_char x = true -> numeral_headed u = true -> m (x :: u) = None) ->
  forallb numeral_char n = true -> numeral_char y0 = true ->
  scan m (n ++ y0 :: y) = n ++ scan m (y0 :: y).
Proof.
  intros Hm Hnone Hn Hy. apply scan_prefix; [exact Hm|].
  intros a c b ->. rewrite forallb_app in Hn. apply andb_true_iff in Hn.
  destruct Hn as [_ Hn]. cbn [forallb] in Hn. apply andb_true_iff in Hn.
  destruct Hn as [Hc Hb]. apply Hnone; [exact Hc|].
  destruct b as [|x b]; [exact Hy|]. cbn [forallb] in Hb.
  apply andb_true_iff in Hb. apply Hb.
Qed.

(** No rule matches at a white-space character. *)
Lemma scan_spaces (m : matcher) (ws y : pystr) :
  shrinking m ->
  (forall x u, Chars.is_space x = true -> m (x :: u) = None) ->
  forallb Chars.is_space ws = true ->
  scan m (ws ++ y) = ws ++ scan m y.
Proof.
  intros Hm Hnone Hws. apply scan_prefix; [exact Hm|].
  intros a c b ->. rewrite forallb_app in Hws. apply andb_true_iff in Hws.
  destruct Hws as [_ Hws]. cbn [forallb] in Hws. apply andb_true_iff in Hws.
  apply Hnone, Hws.
Qed.

Lemma unit_space body canon x u : Chars.is_space x = true -> unit_at body canon (x :: u) = None.
Proof. intros H. apply unit_at_start. revert H. by_cases x. Qed.

Lemma inr_space x u : Chars.is_space x = true -> inr_at (x :: u) = None.
Proof.
  intros H. unfold inr_at.
  assert (E1 : Chars.eqc "I" x = false) by (revert H; by_cases x).
  assert (E2 : Chars.eqc "i" x = false) by (revert H; by_cases x).
  rewrite E1, E2. now destruct u as [|? [|? ?]].
Qed.

Lemma rs_space x u : Chars.is_space x = true -> rs_at (x :: u) = None.
Proof.
  intros H. unfold rs_at.
  assert (E : Chars.one_of "Rr" x = false) by (revert H; by_cases x).
  rewrite E. now destruct u.
Qed.


Lemma digit_numeral d : Chars.is_digit d = true -> numeral_char d = true.
Proof. unfold numeral_char. now intros ->. Qed.

Lemma digit_not_space d : Chars.is_digit d = true -> Chars.is_space d = false.
Proof. by_cases d. Qed.

(** A pass that has nothing to rewrite in [<number><spaces><spelling>]. *)
Lemma pass_idle (m : matcher) (n : pystr) (d : ascii) (ws w : pystr) :
  shrinking m ->
  (forall x u, numeral_char x = true -> numeral_headed u = true -> m (x :: u) = None) ->
  (forall x u, Chars.is_space x = true -> m (x :: u) = None) ->
  (forall x, Chars.is_digit x = true -> m (x :: ws ++ w) = None) ->
  scan m w = w ->
  forallb numeral_char n = true -> Chars.is_digit d = true ->
  forallb Chars.is_space ws = true ->
  scan m (n ++ d :: ws ++ w) = n ++ d :: ws ++ w.
Proof.
  intros Hm Hnum Hsp Hd Hw Hn Hdig Hws.
  rewrite scan_numeral by (try assumption; now apply digit_numeral).
  rewrite scan_eq by exact Hm. rewrite (Hd d Hdig).
  now rewrite scan_spaces, Hw by assumption.
Qed.

Lemma unit_at_digit body canon x u :
  Chars.is_digit x = true ->
  unit_at body canon (x :: u)
  = match body (drop_spaces u) with
    | Some rest => Some (x :: " "%char :: canon, rest)
    | None => None
    end.
Proof. intros H. unfold unit_at. now rewrite H. Qed.

Lemma inr_digit x u : Chars.is_digit x = true -> inr_at (x :: u) = None.
Proof. intros H. apply inr_numeral. now apply digit_numeral. Qed.

Lemma rs_digit x u : Chars.is_digit x = true -> rs_at (x :: u) = None.
Proof. intros H. apply rs_numeral. now apply digit_numeral. Qed.

Lemma strip_kept (y : pystr) (a z : ascii) (mid : pystr) :
  y = a :: mid ++ [z] -> Chars.is_space a = false -> Chars.is_space z = false ->
  strip y = y.
Proof.
  intros -> Ha Hz. unfold strip, rstrip.
  rewrite (ChunkFacts.lstrip_fixed (a :: mid ++ [z])) by exact Ha.
  replace (rev (a :: mid ++ [z])) with (z :: rev (a :: mid)).
  2:{ change (a :: mid ++ [z]) with ((a :: mid) ++ [z]). now rewrite rev_app_distr. }
  rewrite ChunkFacts.lstrip_fixed by exact Hz.
  change (z :: rev (a :: mid)) with ([z] ++ rev (a :: mid)).
  rewrite rev_app_distr, rev_involutive. reflexivity.
Qed.



(** C10 (as stated, refuted): [normalize_query] turns [ININR] into [INRs.]
    (the [Rs. ] written for [INR] joins the letters [IN] before it), and a
    second application turns [INRs.] into [Rs. s.]. *)
Lemma normalize_twice_differs :
  normalize_query "ININR" = ("INRs." : pystr)
  /\ normalize_query (normalize_query "ININR") = ("Rs. s." : pystr)
  /\ normalize_query (normalize_query "ININR") <> normalize_query "ININR".
Proof. repeat split. vm_compute. discriminate. Qed.

End QueryFacts.

(** * Normal forms of the query normalizer

    What the six passes leave behind: after [normalize_query], the rules
    other than the INR rule find only matches that are already in their
    canonical form. *)

Module NormalFormFacts.

Import Re QueryUtils Rules RuleFacts QueryFacts.

Local Open Scope nat_scope.

Local Arguments Chars.one_of : simpl never.
Local Arguments Chars.is_space : simpl never.
Local Arguments Chars.is_digit : simpl never.
Local Arguments Chars.is_word : simpl never.
Local Arguments Chars.eqc : simpl never.
Local Arguments Chars.eqc_nocase : simpl never.

(** ** Where the output of a scan comes from *)


Lemma star_suffix {A} f prev s (k : pystr -> pystr -> option A) x :
  star f prev s k = Some x -> exists p' s', k p' s' = Some x /\ suffix s' s.
Proof.
  revert prev. induction s as [|c s IH]; intros prev; simpl.
  - intros H. exists prev, []. split; [exact H|apply suffix_refl].
  - destruct (f c).
    + destruct (star f (c :: prev) s k) eqn:E.
      * intros H. injection H as <-. destruct (IH _ E) as [p' [s' [H1 H2]]].
        exists p', s'. split; [exact H1|]. eapply suffix_trans; [exact H2|apply suffix_cons].
      * intros H. exists prev, (c :: s). split; [exact H|apply suffix_refl].
    + intros H. exists prev, (c :: s). split; [exact H|apply suffix_refl].
Qed.

Lemma rmatch_suffix {A} r prev s cap (k : pystr -> pystr -> option pystr -> option A) x :
  rmatch r prev s cap k = Some x ->
  exists p' s' c', k p' s' c' = Some x /\ suffix s' s.
Proof.
  revert A prev s cap k x.
  induction r as [|f|a IHa b IHb|a IHa b IHb|a IHa|f|a IHa|f|];
    intros A prev s cap k x; cbn [rmatch].
  - intros H. exists prev, s, cap. split; [exact H|apply suffix_refl].
  - destruct s as [|c s]; [discriminate|]. destruct (f c); [|discriminate].
    intros H. exists (c :: prev), s, cap. split; [exact H|apply suffix_cons].
  - intros H. apply IHa in H. destruct H as [p' [s' [c' [H Hs]]]].
    apply IHb in H. destruct H as [p2 [s2 [c2 [H Hs2]]]].
    exists p2, s2, c2. split; [exact H|]. eapply suffix_trans; eassumption.
  - destruct (rmatch a prev s cap k) eqn:E.
    + intros H. injection H as <-. eapply IHa, E.
    + apply IHb.
  - destruct (rmatch a prev s cap k) eqn:E.
    + intros H. injection H as <-. eapply IHa, E.
    + intros H. exists prev, s, cap. split; [exact H|apply suffix_refl].
  - intros H. apply star_suffix in H. destruct H as [p' [s' [H Hs]]]. eauto.
  - intros H. apply IHa in H. destruct H as [p' [s' [c' [H Hs]]]]. eauto.
  - destruct prev as [|c prev]; [discriminate|]. destruct (f c); [|discriminate].
    intros H. exists (c :: prev), s, cap. split; [exact H|apply suffix_refl].
  - destruct (at_boundary prev s); [|discriminate].
    intros H. exists prev, s, cap. split; [exact H|apply suffix_refl].
Qed.

Lemma consuming_found r t (m : matcher) :
  (forall prev s, found r t prev s = m s) -> consuming m.
Proof.
  intros Hm s repl rest H. rewrite <- (Hm []) in H.
  unfold found, match_at in H.
  destruct (rmatch r [] s None _) as [[[p' rest'] cap]|] eqn:E; [|discriminate].
  injection H as _ <-.
  apply rmatch_suffix in E. destruct E as [p'' [s'' [c'' [E [w Hw]]]]].
  destruct (Nat.ltb (length s'') (length s)) eqn:L; [|discriminate].
  injection E as _ <- _. apply Nat.ltb_lt in L.
  exists w. split; [|exact Hw]. intros ->. simpl in Hw. subst. lia.
Qed.

Lemma consuming_shrinking m : consuming m -> shrinking m.
Proof.
  intros Hm s repl rest H. destruct (Hm _ _ _ H) as [w [Hw ->]].
  rewrite length_app. destruct w; [congruence|]. cbn. lia.
Qed.

Lemma consuming_suffix m s repl rest :
  consuming m -> m s = Some (repl, rest) -> suffix rest s.
Proof. intros Hm H. destruct (Hm _ _ _ H) as [w [_ ->]]. apply suffix_app. Qed.

Lemma suffix_app_inv (b' l t : pystr) :
  suffix b' (l ++ t) ->
  (exists v u, l = v ++ u /\ u <> [] /\ b' = u ++ t) \/ suffix b' t.
Proof.
  intros [a Ha]. revert a Ha. induction l as [|x l IH]; intros a Ha.
  - right. now exists a.
  - destruct a as [|y a].
    + left. exists [], (x :: l). repeat split; [discriminate|]. exact (eq_sym Ha).
    + cbn [app] in Ha. injection Ha as _ Ha.
      destruct (IH a Ha) as [[v [u [-> [Hu ->]]]]|H].
      * left. exists (x :: v), u. repeat split. exact Hu.
      * now right.
Qed.

Lemma origin_mono m z0 z b' : suffix z0 z -> origin m z0 b' -> origin m z b'.
Proof.
  intros Hz [H|[H|[H|H]]].
  - now left.
  - right. left. destruct H as [b [r1 [r2 [Hb H]]]]. exists b, r1, r2.
    split; [eapply suffix_trans; eassumption|exact H].
  - right. right. left. destruct H as [c [tl [Hb H]]]. exists c, tl.
    split; [eapply suffix_trans; eassumption|exact H].
  - right. right. right. destruct H as [b [r1 [r2 [v [u [Hb H]]]]]].
    exists b, r1, r2, v, u. split; [eapply suffix_trans; eassumption|exact H].
Qed.

Lemma scan_origin (m : matcher) (z b' : pystr) :
  consuming m -> suffix b' (scan m z) -> origin m z b'.
Proof.
  intros Hm. pose proof (consuming_shrinking m Hm) as Hs.
  remember (length z) as n eqn:Hn. revert z Hn b'.
  induction n as [n IH] using lt_wf_ind. intros z -> b' Hb'.
  rewrite scan_eq in Hb' by exact Hs.
  destruct (m z) as [[repl rest]|] eqn:E.
  - apply suffix_app_inv in Hb'. destruct Hb' as [[v [u [Hrepl [Hu ->]]]]|Hsuf].
    + destruct v as [|y v].
      * right. left. exists z, repl, rest. repeat split; [apply suffix_refl|exact E|].
        now rewrite Hrepl.
      * right. right. right. exists z, repl, rest, (y :: v), u.
        repeat split; try assumption; [apply suffix_refl|discriminate].
    + apply (origin_mono m rest); [eapply consuming_suffix; eassumption|].
      apply (IH (length rest)); [now apply Hs in E|reflexivity|exact Hsuf].
  - destruct z as [|c z].
    + left. now apply suffix_nil_inv.
    + apply suffix_cons_inv in Hb'. destruct Hb' as [->|Hsuf].
      * right. right. left. exists c, z. repeat split; [apply suffix_refl|exact E].
      * apply (origin_mono m z); [apply suffix_cons|].
        apply (IH (length z)); [cbn; lia|reflexivity|exact Hsuf].
Qed.

Lemma word_not_space c : Chars.is_word c = true -> Chars.is_space c = false.
Proof. by_cases c. Qed.

Lemma plain_spec c : plain c = true -> Chars.is_digit c = false /\ c <> "R"%char.
Proof.
  unfold plain. intros H. apply andb_true_iff in H. destruct H as [H1 H2].
  apply negb_true_iff in H1, H2. split; [exact H1|]. intros ->. discriminate.
Qed.

Lemma one_of_plain (a b c : ascii) :
  plain a = true -> plain b = true -> Chars.one_of [a; b] c = true -> plain c = true.
Proof. intros Ha Hb H. destruct (one_of_2 _ _ _ H) as [->| ->]; assumption. Qed.

Lemma nocase_plain_s c : Chars.eqc_nocase "s" c = true -> plain c = true.
Proof. by_cases c. Qed.

Lemma nocase_plain_q c : Chars.eqc_nocase "q" c = true -> plain c = true.
Proof. by_cases c. Qed.

Lemma nocase_plain_f c : Chars.eqc_nocase "f" c = true -> plain c = true.
Proof. by_cases c. Qed.

Lemma nocase_plain_t c : Chars.eqc_nocase "t" c = true -> plain c = true.
Proof. by_cases c. Qed.

Lemma spaces_split t : t = take_spaces t ++ drop_spaces t.
Proof.
  induction t as [|c t IH]; [reflexivity|]. cbn [take_spaces drop_spaces].
  destruct (Chars.is_space c); [cbn [app]; now rewrite <- IH|reflexivity].
Qed.

Lemma take_spaces_spaces t : forallb Chars.is_space (take_spaces t) = true.
Proof.
  induction t as [|c t IH]; [reflexivity|]. cbn [take_spaces].
  destruct (Chars.is_space c) eqn:E; [cbn [forallb]; now rewrite E|reflexivity].
Qed.

Lemma drop_spaces_suffix t : suffix (drop_spaces t) t.
Proof. exists (take_spaces t). apply spaces_split. Qed.

Section Rewriter.

Variable m : matcher.
Hypothesis m_consuming : consuming m.
Hypothesis m_rewriter : rewriter m.

Lemma scan_nil : scan m [] = [].
Proof.
  rewrite scan_eq by exact (consuming_shrinking m m_consuming).
  destruct (m []) as [[repl rest]|] eqn:E; [|reflexivity].
  apply (consuming_shrinking m m_consuming) in E. cbn in E. lia.
Qed.

Lemma scan_nil_inv t : scan m t = [] -> t = [].
Proof.
  rewrite scan_eq by exact (consuming_shrinking m m_consuming).
  destruct (m t) as [[repl rest]|] eqn:E.
  - destruct (m_rewriter _ _ _ E) as [c [s1 [h [r1 [_ [-> _]]]]]]. discriminate.
  - destruct t; [reflexivity|discriminate].
Qed.

(** A character that is not at the start of a word is copied. *)
Lemma scan_push c t : Chars.is_word c = false -> scan m (c :: t) = c :: scan m t.
Proof.
  intros Hc. rewrite scan_eq by exact (consuming_shrinking m m_consuming).
  destruct (m (c :: t)) as [[repl rest]|] eqn:E; [|reflexivity].
  destruct (m_rewriter _ _ _ E) as [c' [s1 [h [r1 [Hs [_ [Hw _]]]]]]].
  injection Hs as <- _. congruence.
Qed.

(** A plain character at the head of the output was copied. *)
Lemma scan_peel t c r' :
  scan m t = c :: r' -> plain c = true ->
  exists t1, t = c :: t1 /\ m t = None /\ r' = scan m t1.
Proof.
  intros H Hc. rewrite scan_eq in H by exact (consuming_shrinking m m_consuming).
  destruct (m t) as [[repl rest]|] eqn:E.
  - destruct (m_rewriter _ _ _ E) as [c' [s1 [h [r1 [_ [-> [_ [_ [Hp _]]]]]]]]].
    injection H as -> _. congruence.
  - destruct t as [|c0 t1]; [discriminate|]. injection H as -> <-.
    exists t1. repeat split.
Qed.

(** The letter [R] at the head of the output was copied, or it starts [Rs. ]. *)
Lemma scan_peel_R t r' :
  scan m t = "R"%char :: r' ->
  (exists t1, t = "R"%char :: t1 /\ m t = None /\ r' = scan m t1)
  \/ (exists r2, r' = ("s. " : pystr) ++ r2).
Proof.
  intros H. rewrite scan_eq in H by exact (consuming_shrinking m m_consuming).
  destruct (m t) as [[repl rest]|] eqn:E.
  - destruct (m_rewriter _ _ _ E) as [c' [s1 [h [r1 [_ [-> [_ [_ [_ [HR _]]]]]]]]]].
    injection H as -> <-. right. destruct (HR eq_refl) as [r2 ->].
    exists (r2 ++ scan m rest). now rewrite <- app_assoc.
  - destruct t as [|c0 t1]; [discriminate|]. injection H as -> <-.
    left. exists t1. repeat split.
Qed.

(** The scan keeps whether the text starts with a word character. *)
Lemma word_after_scan t : word_after (scan m t) = word_after t.
Proof.
  rewrite scan_eq by exact (consuming_shrinking m m_consuming).
  destruct (m t) as [[repl rest]|] eqn:E.
  - destruct (m_rewriter _ _ _ E) as [c' [s1 [h [r1 [-> [-> [Hc [Hh _]]]]]]]].
    cbn. now rewrite Hc, Hh.
  - destruct t; reflexivity.
Qed.

(** The scan keeps the white space the text starts with. *)
Lemma drop_spaces_scan t : drop_spaces (scan m t) = scan m (drop_spaces t).
Proof.
  induction t as [|c t IH]; [cbn [drop_spaces]; now rewrite !scan_nil|].
  cbn [drop_spaces]. destruct (Chars.is_space c) eqn:Ec.
  - rewrite scan_push by (revert Ec; by_cases c). cbn [drop_spaces]. now rewrite Ec.
  - rewrite (scan_eq m (c :: t)) by exact (consuming_shrinking m m_consuming).
    destruct (m (c :: t)) as [[repl rest]|] eqn:E.
    + destruct (m_rewriter _ _ _ E) as [c' [s1 [h [r1 [_ [-> [_ [Hh _]]]]]]]].
      cbn [app drop_spaces]. now rewrite (word_not_space h Hh).
    + cbn [drop_spaces]. now rewrite Ec.
Qed.

Lemma scan_spaces_push ws t :
  forallb Chars.is_space ws = true -> scan m (ws ++ t) = ws ++ scan m t.
Proof.
  induction ws as [|c ws IH]; [reflexivity|]. cbn [forallb app].
  intros H. apply andb_true_iff in H. destruct H as [Hc H].
  rewrite scan_push by (revert Hc; by_cases c). now rewrite IH.
Qed.

(** *** What a body reads in the output of a scan, it reads in its input *)

Lemma dotb_transfers : transfers m dotb.
Proof.
  intros u rest' H. destruct (scan m u) as [|c' v'] eqn:Hs.
  - apply scan_nil_inv in Hs. subst u. cbn in H. injection H as <-.
    exists [], []. repeat split. now rewrite scan_nil.
  - unfold dotb in H. destruct (Chars.eqc "." c') eqn:Ec.
    + literal Ec.
      destruct (scan_peel u _ _ Hs eq_refl) as [u1 [-> [_ ->]]].
      rewrite word_after_scan in H. unfold dotb. cbn [Chars.eqc].
      change (Chars.eqc "." ".") with true. cbv iota.
      destruct (word_after u1).
      * injection H as <-. exists ["."%char], u1. repeat split.
      * injection H as <-. exists [], ("."%char :: u1). repeat split.
        now rewrite Hs.
    + destruct (Chars.is_word c') eqn:Ew; [discriminate|]. injection H as <-.
      destruct u as [|c u1]; [now rewrite scan_nil in Hs|].
      pose proof (word_after_scan (c :: u1)) as Hw. rewrite Hs in Hw. cbn in Hw.
      rewrite scan_push in Hs by congruence. injection Hs as -> Hv.
      exists [], (c' :: u1). repeat split.
      * unfold dotb. now rewrite Ec, Ew.
      * rewrite scan_push by exact Ew. cbn [app]. now rewrite Hv.
Qed.

Lemma dotb_word_after u rest : dotb u = Some rest -> word_after u = false.
Proof.
  destruct u as [|c u]; [reflexivity|]. unfold dotb. cbn [word_after].
  destruct (Chars.eqc "." c) eqn:Ec; [literal Ec; reflexivity|].
  destruct (Chars.is_word c); [discriminate|reflexivity].
Qed.

Lemma long_tail_transfers x y z w0 :
  plain x = true -> plain y = true -> plain z = true -> plain w0 = true ->
  Chars.is_word x = true -> Chars.is_word w0 = true ->
  transfers m (long_tail x y z w0).
Proof.
  intros Px Py Pz Pw Wx Ww u rest' H.
  (* the short form, used wherever the letters are not all there *)
  assert (Hshort : dotb (scan m u) = Some rest' ->
                   exists w rest, u = w ++ rest /\ long_tail x y z w0 u = Some rest
                                  /\ scan m u = w ++ rest' /\ rest' = scan m rest).
  { intros Hd. pose proof (dotb_word_after _ _ Hd) as Hnw. rewrite word_after_scan in Hnw.
    destruct (dotb_transfers u rest' Hd) as [w [rest [Hu [Hb [Hsc Hr]]]]].
    exists w, rest. repeat split; try assumption.
    unfold long_tail. destruct u as [|a [|b [|c u3]]]; try exact Hb.
    destruct (Chars.eqc x a) eqn:Ea; [|exact Hb].
    literal Ea. cbn in Hnw. congruence. }
  unfold long_tail in H at 1.
  destruct (scan m u) as [|a' [|b' [|c' s3']]] eqn:Hs; try (apply Hshort; exact H).
  destruct (Chars.eqc x a') eqn:Ea; [|apply Hshort; exact H].
  destruct (Chars.eqc y b') eqn:Eb; [|apply Hshort; exact H].
  destruct (Chars.eqc z c') eqn:Ec; [|apply Hshort; exact H].
  cbn [andb] in H. clear Hshort. literal Ea. literal Eb. literal Ec.
  destruct (scan_peel u _ _ Hs Px) as [u1 [-> [_ Hs1]]]. symmetry in Hs1.
  destruct (scan_peel u1 _ _ Hs1 Py) as [u2 [-> [_ Hs2]]]. symmetry in Hs2.
  destruct (scan_peel u2 _ _ Hs2 Pz) as [u3 [-> [_ Hs3]]]. subst s3'.
  unfold long_tail. rewrite !Ascii.eqb_refl || (unfold Chars.eqc; rewrite !Ascii.eqb_refl).
  cbn [andb].
  destruct (scan m u3) as [|e' s4'] eqn:Hs3.
  - apply scan_nil_inv in Hs3. subst u3. cbn in H. injection H as <-.
    exists [a'; b'; c'], []. repeat split. now rewrite scan_nil.
  - destruct (Chars.eqc w0 e') eqn:Ee.
    + literal Ee.
      destruct (scan_peel u3 _ _ Hs3 Pw) as [u4 [-> [_ ->]]].
      unfold Chars.eqc at 1. rewrite Ascii.eqb_refl.
      destruct (dotb_transfers u4 rest' H) as [w [rest [-> [Hb [Hsc Hr]]]]].
      exists (a' :: b' :: c' :: e' :: w), rest. repeat split; try assumption.
      cbn [app]. now rewrite Hsc.
    + rewrite <- Hs3 in H.
      destruct (dotb_transfers u3 rest' H) as [w [rest [Hu [Hb [Hsc Hr]]]]].
      exists (a' :: b' :: c' :: w), rest. repeat split; try assumption.
      * cbn [app]. now rewrite Hu.
      * destruct u3 as [|e u4]; [exact Hb|].
        destruct (Chars.eqc w0 e) eqn:Ee'; [|exact Hb].
        literal Ee'. exfalso.
        pose proof (dotb_word_after _ _ H) as Hnw.
        rewrite word_after_scan in Hnw. cbn in Hnw. congruence.
      * cbn [app]. now rewrite <- Hsc, Hs3.
Qed.

Lemma scan_take_drop t : scan m t = take_spaces t ++ scan m (drop_spaces t).
Proof.
  rewrite (spaces_split t) at 1. apply scan_spaces_push, take_spaces_spaces.
Qed.

Lemma bhk_transfers : transfers m bhk_body.
Proof.
  intros t rest' H. unfold bhk_body in H.
  destruct (scan m t) as [|b' [|h' [|k' r']]] eqn:Hs; try discriminate.
  destruct (Chars.one_of "Bb" b') eqn:Eb; [|discriminate].
  destruct (Chars.one_of "Hh" h') eqn:Eh; [|discriminate].
  destruct (Chars.one_of "Kk" k') eqn:Ek; [|discriminate].
  injection H as <-.
  destruct (scan_peel t _ _ Hs (one_of_plain "B" "b" _ eq_refl eq_refl Eb)) as [t1 [-> [_ Hs1]]].
  symmetry in Hs1.
  destruct (scan_peel t1 _ _ Hs1 (one_of_plain "H" "h" _ eq_refl eq_refl Eh)) as [t2 [-> [_ Hs2]]].
  symmetry in Hs2.
  destruct (scan_peel t2 _ _ Hs2 (one_of_plain "K" "k" _ eq_refl eq_refl Ek)) as [t3 [-> [_ ->]]].
  exists [b'; h'; k'], t3. repeat split.
  unfold bhk_body. now rewrite Eb, Eh, Ek.
Qed.

Lemma ft_transfers : transfers m ft_part.
Proof.
  intros t rest' H. unfold ft_part in H.
  destruct (scan m t) as [|f' [|t' r']] eqn:Hs; try discriminate.
  destruct (Chars.eqc_nocase "f" f') eqn:Ef; [|discriminate].
  destruct (Chars.eqc_nocase "t" t') eqn:Et; [|discriminate].
  cbn [andb] in H.
  destruct (scan_peel t _ _ Hs (nocase_plain_f _ Ef)) as [t1 [-> [_ Hs1]]].
  symmetry in Hs1.
  destruct (scan_peel t1 _ _ Hs1 (nocase_plain_t _ Et)) as [t2 [-> [_ Hs2]]].
  symmetry in Hs2. unfold ft_part. rewrite Ef, Et. cbn [andb].
  destruct r' as [|c' r''].
  - injection H as <-. apply scan_nil_inv in Hs2. subst t2.
    exists [f'; t'], []. repeat split. now rewrite scan_nil.
  - destruct (Chars.eqc "." c') eqn:Ec.
    + injection H as <-. literal Ec.
      destruct (scan_peel t2 _ _ Hs2 eq_refl) as [t3 [-> [_ ->]]].
      exists [f'; t'; "."%char], t3. repeat split.
    + injection H as <-.
      destruct t2 as [|c t3]; [now rewrite scan_nil in Hs2|].
      assert (Chars.eqc "." c = false) as Ec'.
      { destruct (Chars.eqc "." c) eqn:E; [|reflexivity]. literal E.
        rewrite scan_push in Hs2 by reflexivity. injection Hs2 as <- _. discriminate. }
      rewrite Ec'. exists [f'; t'], (c :: t3). repeat split.
      now rewrite Hs2.
Qed.

Lemma sqft_transfers : transfers m sqft_body.
Proof.
  intros t rest' H. unfold sqft_body in H.
  destruct (scan m t) as [|a' [|b' s2']] eqn:Hs; try discriminate.
  destruct (Chars.eqc_nocase "s" a') eqn:Ea; [|discriminate].
  destruct (Chars.eqc_nocase "q" b') eqn:Eb; [|discriminate].
  cbn [andb] in H.
  destruct (scan_peel t _ _ Hs (nocase_plain_s _ Ea)) as [t1 [-> [_ Hs1]]].
  symmetry in Hs1.
  destruct (scan_peel t1 _ _ Hs1 (nocase_plain_q _ Eb)) as [t2 [-> [_ Hs2]]].
  symmetry in Hs2. unfold sqft_body. rewrite Ea, Eb. cbn [andb].
  destruct s2' as [|c' s3']; [discriminate|].
  destruct (Chars.eqc "." c') eqn:Ec.
  - literal Ec.
    destruct (scan_peel t2 _ _ Hs2 eq_refl) as [t3 [-> [_ ->]]].
    rewrite drop_spaces_scan in H.
    destruct (ft_transfers _ _ H) as [w [rest [Hu [Hb [Hsc Hr]]]]].
    change (Chars.eqc "." ".") with true. cbv iota.
    exists (a' :: b' :: "."%char :: take_spaces t3 ++ w), rest. repeat split.
    + cbn [app]. rewrite <- app_assoc, <- Hu, <- spaces_split. reflexivity.
    + exact Hb.
    + cbn [app]. rewrite <- app_assoc, <- Hsc, <- scan_take_drop. reflexivity.
    + exact Hr.
  - rewrite <- Hs2, drop_spaces_scan in H.
    destruct (ft_transfers _ _ H) as [w [rest [Hu [Hb [Hsc Hr]]]]].
    destruct t2 as [|c t3]; [now rewrite scan_nil in Hs2|].
    assert (Chars.eqc "." c = false) as Ec'.
    { destruct (Chars.eqc "." c) eqn:E; [|reflexivity]. literal E.
      rewrite scan_push in Hs2 by reflexivity. injection Hs2 as <- _. discriminate. }
    rewrite Ec'.
    exists (a' :: b' :: take_spaces (c :: t3) ++ w), rest. repeat split.
    + cbn [app]. rewrite <- app_assoc, <- Hu, <- spaces_split. reflexivity.
    + exact Hb.
    + cbn [app]. rewrite <- Hs2, <- app_assoc, <- Hsc, <- scan_take_drop. reflexivity.
    + exact Hr.
Qed.

Lemma crore_transfers : transfers m crore_body.
Proof.
  intros t rest' H. unfold crore_body in H.
  destruct (scan m t) as [|c' [|r' s2']] eqn:Hs; try discriminate.
  destruct (Chars.one_of "Cc" c') eqn:Ec; [|discriminate].
  destruct (Chars.one_of "Rr" r') eqn:Er; [|discriminate].
  cbn [andb] in H.
  destruct (scan_peel t _ _ Hs (one_of_plain "C" "c" _ eq_refl eq_refl Ec)) as [t1 [-> [_ Hs1]]].
  symmetry in Hs1.
  assert (exists t2, t1 = r' :: t2 /\ s2' = scan m t2) as [t2 [-> ->]].
  { destruct (one_of_2 _ _ _ Er) as [->| ->].
    - destruct (scan_peel_R t1 _ Hs1) as [[t2 [-> [_ ->]]]|[r2 ->]]; [now exists t2|].
      discriminate.
    - destruct (scan_peel t1 _ _ Hs1 eq_refl) as [t2 [-> [_ ->]]]. now exists t2. }
  destruct (long_tail_transfers "o" "r" "e" "s" eq_refl eq_refl eq_refl eq_refl
              eq_refl eq_refl _ _ H) as [w [rest [-> [Hb [Hsc Hr]]]]].
  exists (c' :: r' :: w), rest. repeat split.
  - unfold crore_body. now rewrite Ec, Er.
  - cbn [app]. now rewrite Hsc.
  - exact Hr.
Qed.

Lemma lakh_transfers : transfers m lakh_body.
Proof.
  intros t rest' H. unfold lakh_body in H.
  destruct (scan m t) as [|l' s1'] eqn:Hs; try discriminate.
  destruct (Chars.one_of "Ll" l') eqn:El; [|discriminate].
  destruct (scan_peel t _ _ Hs (one_of_plain "L" "l" _ eq_refl eq_refl El)) as [t1 [-> [_ ->]]].
  destruct (long_tail_transfers "a" "k" "h" "s" eq_refl eq_refl eq_refl eq_refl
              eq_refl eq_refl _ _ H) as [w [rest [-> [Hb [Hsc Hr]]]]].
  exists (l' :: w), rest. repeat split.
  - unfold lakh_body. now rewrite El.
  - cbn [app]. now rewrite Hsc.
  - exact Hr.
Qed.

(** A unit rule that matches at a digit followed by the output of the scan
    matches at the digit followed by the input, over the same characters. *)
Lemma unit_transfer body canon d t R' rest' :
  transfers m body ->
  unit_at body canon (d :: scan m t) = Some (R', rest') ->
  exists rest W,
    unit_at body canon (d :: t) = Some (R', rest) /\ t = W ++ rest /\ scan m t = W ++ rest'.
Proof.
  intros Hb H. unfold unit_at in *. destruct (Chars.is_digit d); [|discriminate].
  rewrite drop_spaces_scan in H.
  destruct (body (scan m (drop_spaces t))) as [r|] eqn:E; [|discriminate].
  injection H as <- <-.
  destruct (Hb _ _ E) as [w [rest [Hu [Hbody [Hsc Hr]]]]].
  exists rest, (take_spaces t ++ w). rewrite Hbody. repeat split.
  - rewrite <- app_assoc, <- Hu. apply spaces_split.
  - rewrite <- app_assoc, <- Hsc. apply scan_take_drop.
Qed.

(** The scan of a rewriter leaves in its output no match of a unit rule that
    is not already in canonical form, when the matches of the unit rule at
    the places the scan copies are in canonical form, and so are those at the
    replacements the scan writes. *)
Lemma unit_fixes_scan body canon z :
  transfers m body ->
  (forall b, suffix b z -> m b = None ->
             forall R rest, unit_at body canon b = Some (R, rest) -> b = R ++ rest) ->
  (forall b repl rest, m b = Some (repl, rest) ->
     forall R' rest', unit_at body canon (repl ++ scan m rest) = Some (R', rest') ->
                      repl ++ scan m rest = R' ++ rest') ->
  fixes (unit_at body canon) (scan m z).
Proof.
  intros Hb Hun Hhead b' Hsuf R' rest' Hobs.
  assert (Hcopied : forall c tail, suffix (c :: tail) z -> m (c :: tail) = None ->
                    b' = c :: scan m tail -> b' = R' ++ rest').
  { intros c tail Hs Hm ->.
    destruct (unit_transfer _ _ _ _ _ _ Hb Hobs) as [rest [W [Ho [Ht Hsc]]]].
    pose proof (Hun _ Hs Hm _ _ Ho) as Heq. rewrite Ht in Heq at 1.
    change (c :: W ++ rest) with ((c :: W) ++ rest) in Heq.
    apply app_inv_tail in Heq. subst R'. cbn [app]. now rewrite Hsc. }
  destruct (scan_origin m z b' m_consuming Hsuf) as [->|[H|[H|H]]].
  - discriminate.
  - destruct H as [b [repl [rest [_ [Hm ->]]]]]. eapply Hhead; eassumption.
  - destruct H as [c [tail [Hs [Hm Hb']]]]. eapply Hcopied; eassumption.
  - destruct H as [b [repl [rest [v [u [Hs [Hm [Hrepl [Hv [Hu Hb']]]]]]]]]].
    destruct (m_rewriter _ _ _ Hm) as [c [s1 [h [r1 [_ [Hr [_ [_ [_ [_ Hdig]]]]]]]]]].
    destruct v as [|h0 v]; [congruence|]. destruct u as [|x u]; [congruence|].
    rewrite Hrepl in Hr. injection Hr as _ Hr1. symmetry in Hr1.
    assert (Chars.is_digit x = true) as Hx.
    { subst b'. cbn [app] in Hobs. unfold unit_at in Hobs.
      destruct (Chars.is_digit x); [reflexivity|discriminate]. }
    destruct (Hdig _ _ _ Hr1 Hx) as [-> [Hsx Hmx]].
    apply (Hcopied x rest); [eapply suffix_trans; eassumption|exact Hmx|exact Hb'].
Qed.

End Rewriter.

(** ** The six matchers are rewriters *)

Lemma consuming_bhk : consuming bhk_at.
Proof. exact (consuming_found _ _ _ found_bhk). Qed.

Lemma consuming_sqft : consuming sqft_at.
Proof. exact (consuming_found _ _ _ found_sqft). Qed.

Lemma consuming_crore : consuming crore_at.
Proof. exact (consuming_found _ _ _ found_crore). Qed.

Lemma consuming_lakh : consuming lakh_at.
Proof. exact (consuming_found _ _ _ found_lakh). Qed.

Lemma consuming_inr : consuming inr_at.
Proof. exact (consuming_found _ _ _ found_inr). Qed.

Lemma consuming_rs : consuming rs_at.
Proof. exact (consuming_found _ _ _ found_rs). Qed.

Lemma digit_word d : Chars.is_digit d = true -> Chars.is_word d = true.
Proof. by_cases d. Qed.

Lemma digit_not_plain d : Chars.is_digit d = true -> plain d = false.
Proof. unfold plain. now intros ->. Qed.

Lemma no_digit_inside (r : pystr) v x u :
  forallb (fun c => negb (Chars.is_digit c)) r = true ->
  r = v ++ x :: u -> Chars.is_digit x = true -> False.
Proof.
  intros Hr -> Hx. rewrite forallb_app in Hr. apply andb_true_iff in Hr.
  destruct Hr as [_ Hr]. cbn [forallb] in Hr. rewrite Hx in Hr. discriminate.
Qed.

Lemma rewriter_unit body canon :
  forallb (fun c => negb (Chars.is_digit c)) canon = true ->
  rewriter (unit_at body canon).
Proof.
  intros Hc s repl rest H. unfold unit_at in H.
  destruct s as [|d s1]; [discriminate|].
  destruct (Chars.is_digit d) eqn:Ed; [|discriminate].
  destruct (body (drop_spaces s1)) as [r|]; [|discriminate]. injection H as <- <-.
  exists d, s1, d, (" "%char :: canon).
  split; [reflexivity|]. split; [reflexivity|].
  split; [now apply digit_word|]. split; [now apply digit_word|].
  split; [now apply digit_not_plain|]. split.
  - intros ->. discriminate Ed.
  - intros v x u Hv Hx. exfalso.
    apply (no_digit_inside (" "%char :: canon) v x u); [|exact Hv|exact Hx].
    cbn [forallb]. now rewrite Hc.
Qed.

Lemma rewriter_bhk : rewriter bhk_at.
Proof. now apply rewriter_unit. Qed.

Lemma rewriter_sqft : rewriter sqft_at.
Proof. now apply rewriter_unit. Qed.

Lemma rewriter_crore : rewriter crore_at.
Proof. now apply rewriter_unit. Qed.

Lemma rewriter_lakh : rewriter lakh_at.
Proof. now apply rewriter_unit. Qed.

Lemma inr_at_Some s repl rest :
  inr_at s = Some (repl, rest) ->
  exists a s1, s = a :: s1 /\ Chars.is_word a = true /\ repl = ("Rs. " : pystr).
Proof.
  unfold inr_at. destruct s as [|a [|b [|c s3]]]; try discriminate.
  destruct (_ || _) eqn:E; [|discriminate]. intros H. injection H as <- _.
  exists a, (b :: c :: s3). repeat split.
  apply orb_true_iff in E.
  destruct E as [E|E]; apply andb_true_iff in E; destruct E as [E _];
    apply andb_true_iff in E; destruct E as [E _]; literal E; reflexivity.
Qed.

Lemma rewriter_inr : rewriter inr_at.
Proof.
  intros s repl rest H. destruct (inr_at_Some _ _ _ H) as [a [s1 [-> [Ha ->]]]].
  exists a, s1, "R"%char, ("s. " : pystr).
  split; [reflexivity|]. split; [reflexivity|]. split; [exact Ha|].
  split; [reflexivity|]. split; [reflexivity|]. split.
  - intros _. now exists [].
  - intros v x u Hv Hx. exfalso.
    now apply (no_digit_inside ("s. " : pystr) v x u).
Qed.

Lemma rs_at_Some s repl rest :
  rs_at s = Some (repl, rest) ->
  exists r s1 d,
    s = r :: s1 /\ Chars.is_word r = true /\ Chars.is_digit d = true
    /\ repl = ("Rs. " : pystr) ++ [d] /\ suffix (d :: rest) s.
Proof.
  unfold rs_at. destruct s as [|r [|x s2]]; try discriminate.
  destruct (Chars.one_of "Rr" r) eqn:Er; [|discriminate].
  destruct (Chars.one_of "Ss" x) eqn:Ex; [|discriminate]. cbn [andb].
  set (s3 := match s2 with [] => [] | c :: s2' => if Chars.eqc "." c then s2' else s2 end).
  assert (suffix s3 s2) as Hs3.
  { subst s3. destruct s2 as [|c s2']; [apply suffix_refl|].
    destruct (Chars.eqc "." c); [apply suffix_cons|apply suffix_refl]. }
  destruct (drop_spaces s3) as [|d rest0] eqn:Ed; [discriminate|].
  destruct (Chars.is_digit d) eqn:Hd; [|discriminate].
  intros H. injection H as <- <-.
  exists r, (x :: s2), d. repeat split; try assumption.
  - now apply (one_of_word "R" "r").
  - rewrite <- Ed. eapply suffix_trans; [apply drop_spaces_suffix|].
    eapply suffix_trans; [exact Hs3|].
    eapply suffix_trans; apply suffix_cons.
Qed.

Lemma rewriter_rs : rewriter rs_at.
Proof.
  intros s repl rest H.
  destruct (rs_at_Some _ _ _ H) as [r [s1 [d [-> [Hr [Hd [-> Hsuf]]]]]]].
  exists r, s1, "R"%char, (("s. " : pystr) ++ [d]).
  split; [reflexivity|]. split; [reflexivity|]. split; [exact Hr|].
  split; [reflexivity|]. split; [reflexivity|]. split.
  - intros _. now exists [d].
  - intros v x u Hv Hx.
    destruct v as [|v1 [|v2 [|v3 [|v4 v]]]]; cbn in Hv; injection Hv; intros; subst;
      try (vm_compute in Hx; discriminate).
    + repeat split; [exact Hsuf|now apply rs_digit].
    + destruct v; discriminate.
Qed.

(** ** The unit rules leave nothing for each other *)

Lemma unit_at_Some body canon s repl rest :
  unit_at body canon s = Some (repl, rest) ->
  exists d s1,
    s = d :: s1 /\ Chars.is_digit d = true /\ repl = d :: " "%char :: canon
    /\ body (drop_spaces s1) = Some rest.
Proof.
  unfold unit_at. destruct s as [|d s1]; [discriminate|].
  destruct (Chars.is_digit d) eqn:Ed; [|discriminate].
  destruct (body (drop_spaces s1)) as [r|] eqn:Eb; [|discriminate].
  intros H. injection H as <- <-. now exists d, s1.
Qed.

(** A later pass keeps what an earlier unit rule achieved, when the unit rule
    finds nothing at the replacements the later pass writes. *)
Lemma unit_kept m body canon z :
  consuming m -> rewriter m -> transfers m body ->
  (forall b repl rest, m b = Some (repl, rest) ->
     unit_at body canon (repl ++ scan m rest) = None) ->
  fixes (unit_at body canon) z -> fixes (unit_at body canon) (scan m z).
Proof.
  intros Hc Hr Ht Hh Hz. apply unit_fixes_scan; try assumption.
  - intros b Hb _ R rest. now apply Hz.
  - intros b repl rest Hm R' rest' H. rewrite (Hh _ _ _ Hm) in H. discriminate.
Qed.

(** The pass of a unit rule leaves only canonical matches of the rule. *)
Lemma unit_made body canon c0 cs z :
  canon = c0 :: cs -> Chars.is_space c0 = false ->
  consuming (unit_at body canon) -> rewriter (unit_at body canon) ->
  transfers (unit_at body canon) body ->
  (forall s1 rest rest',
     body s1 = Some rest ->
     body (canon ++ scan (unit_at body canon) rest) = Some rest' ->
     rest' = scan (unit_at body canon) rest) ->
  fixes (unit_at body canon) (scan (unit_at body canon) z).
Proof.
  intros Hcanon Hc0 Hc Hr Ht Hself. apply unit_fixes_scan; try assumption.
  - intros b _ Hm R rest H. rewrite Hm in H. discriminate.
  - intros b repl rest Hm R' rest' H.
    apply unit_at_Some in Hm. destruct Hm as [d [s1 [-> [Hd [-> Hb]]]]].
    cbn [app] in H |- *. rewrite unit_at_digit in H by exact Hd.
    change (drop_spaces (" "%char :: canon ++ scan (unit_at body canon) rest))
      with (drop_spaces (canon ++ scan (unit_at body canon) rest)) in H.
    rewrite Hcanon in H at 1. cbn [app] in H.
    rewrite drop_spaces_nonspace in H by exact Hc0.
    change (c0 :: cs ++ scan (unit_at body canon) rest)
      with ((c0 :: cs) ++ scan (unit_at body canon) rest) in H.
    rewrite <- Hcanon in H.
    destruct (body (canon ++ scan (unit_at body canon) rest)) as [r|] eqn:E; [|discriminate].
    injection H as <- <-. now rewrite (Hself _ _ _ Hb E).
Qed.

Lemma unit_cross body canon body' canon' c0 cs :
  canon' = c0 :: cs -> Chars.is_space c0 = false ->
  (forall Y, body (canon' ++ Y) = None) ->
  forall b repl rest Y,
    unit_at body' canon' b = Some (repl, rest) ->
    unit_at body canon (repl ++ Y) = None.
Proof.
  intros Hcanon Hc0 Hnone b repl rest Y Hm.
  apply unit_at_Some in Hm. destruct Hm as [d [s1 [-> [Hd [-> Hb]]]]].
  cbn [app]. rewrite unit_at_digit by exact Hd.
  change (drop_spaces (" "%char :: canon' ++ Y)) with (drop_spaces (canon' ++ Y)).
  pose proof (Hnone Y) as HY. rewrite Hcanon in HY |- *. cbn [app] in HY |- *.
  rewrite drop_spaces_nonspace by exact Hc0. now rewrite HY.
Qed.

Lemma unit_after_inr body canon b repl rest Y :
  inr_at b = Some (repl, rest) -> unit_at body canon (repl ++ Y) = None.
Proof. intros H. apply inr_at_Some in H. destruct H as [a [s1 [_ [_ ->]]]]. reflexivity. Qed.

Lemma unit_after_rs body canon b repl rest Y :
  rs_at b = Some (repl, rest) -> unit_at body canon (repl ++ Y) = None.
Proof.
  intros H. apply rs_at_Some in H. destruct H as [r [s1 [d [_ [_ [_ [-> _]]]]]]].
  reflexivity.
Qed.

Lemma dotb_again u rest rest0 : dotb u = Some rest -> dotb rest = Some rest0 -> rest0 = rest.
Proof.
  unfold dotb at 1. destruct u as [|c s'].
  - intros H. injection H as <-. cbn. congruence.
  - destruct (Chars.eqc "." c) eqn:Ec.
    + literal Ec. destruct (word_after s') eqn:Ew.
      * intros H. injection H as <-. destruct s' as [|x s'']; [discriminate|].
        cbn in Ew. now rewrite (dotb_word x s'' Ew).
      * intros H. injection H as <-. unfold dotb.
        change (Chars.eqc "." ".") with true. cbv iota. rewrite Ew. congruence.
    + destruct (Chars.is_word c) eqn:Ew; [discriminate|].
      intros H. injection H as <-. unfold dotb. rewrite Ec, Ew. congruence.
Qed.

Lemma long_tail_dotb x y z w u rest :
  long_tail x y z w u = Some rest -> exists u', dotb u' = Some rest.
Proof.
  unfold long_tail. destruct u as [|a [|b [|c [|e s4]]]]; try (intros H; eexists; exact H).
  - destruct (_ && _); intros H; eexists; exact H.
  - destruct (_ && _); [|intros H; eexists; exact H].
    destruct (Chars.eqc w e); intros H; eexists; exact H.
Qed.

Lemma dotb_stable m u rest rest' :
  consuming m -> rewriter m ->
  dotb u = Some rest -> dotb (scan m rest) = Some rest' -> rest' = scan m rest.
Proof.
  intros Hc Hr Hu H.
  destruct (dotb_transfers m Hc Hr _ _ H) as [w [rest0 [Hw [Hd [Hsc Hr0]]]]].
  rewrite (dotb_again _ _ _ Hu Hd) in Hr0. exact Hr0.
Qed.

(** ** The passes, one unit rule at a time *)

Lemma fixes_bhk_pass z : fixes bhk_at (scan bhk_at z).
Proof.
  apply (unit_made bhk_body "BHK" "B" "HK"); try reflexivity.
  - exact consuming_bhk.
  - exact rewriter_bhk.
  - exact (bhk_transfers _ consuming_bhk rewriter_bhk).
  - intros s1 rest rest' _ H. now injection H.
Qed.

Lemma fixes_sqft_pass z : fixes sqft_at (scan sqft_at z).
Proof.
  apply (unit_made sqft_body "sq.ft." "s" "q.ft."); try reflexivity.
  - exact consuming_sqft.
  - exact rewriter_sqft.
  - exact (sqft_transfers _ consuming_sqft rewriter_sqft).
  - intros s1 rest rest' _ H. now injection H.
Qed.

Lemma fixes_crore_pass z : fixes crore_at (scan crore_at z).
Proof.
  apply (unit_made crore_body "Crores" "C" "rores"); try reflexivity.
  - exact consuming_crore.
  - exact rewriter_crore.
  - exact (crore_transfers _ consuming_crore rewriter_crore).
  - intros s1 rest rest' Hb H.
    change (crore_body (("Crores" : pystr) ++ scan (unit_at crore_body "Crores") rest))
      with (dotb (scan crore_at rest)) in H.
    unfold crore_body in Hb. destruct s1 as [|c [|r s2]]; try discriminate.
    destruct (_ && _); [|discriminate].
    destruct (long_tail_dotb _ _ _ _ _ _ Hb) as [u' Hu].
    exact (dotb_stable _ _ _ _ consuming_crore rewriter_crore Hu H).
Qed.

Lemma fixes_lakh_pass z : fixes lakh_at (scan lakh_at z).
Proof.
  apply (unit_made lakh_body "Lakhs" "L" "akhs"); try reflexivity.
  - exact consuming_lakh.
  - exact rewriter_lakh.
  - exact (lakh_transfers _ consuming_lakh rewriter_lakh).
  - intros s1 rest rest' Hb H.
    change (lakh_body (("Lakhs" : pystr) ++ scan (unit_at lakh_body "Lakhs") rest))
      with (dotb (scan lakh_at rest)) in H.
    unfold lakh_body in Hb. destruct s1 as [|l s2]; try discriminate.
    destruct (Chars.one_of "Ll" l); [|discriminate].
    destruct (long_tail_dotb _ _ _ _ _ _ Hb) as [u' Hu].
    exact (dotb_stable _ _ _ _ consuming_lakh rewriter_lakh Hu H).
Qed.

Lemma fixes_bhk_passes q : fixes bhk_at (passes q).
Proof.
  unfold passes, bhk_at.
  apply unit_kept;
    [exact consuming_rs|exact rewriter_rs|exact (bhk_transfers _ consuming_rs rewriter_rs)
    |intros b repl rest Hm; exact (unit_after_rs _ _ _ _ _ _ Hm)|].
  apply unit_kept;
    [exact consuming_inr|exact rewriter_inr|exact (bhk_transfers _ consuming_inr rewriter_inr)
    |intros b repl rest Hm; exact (unit_after_inr _ _ _ _ _ _ Hm)|].
  apply unit_kept;
    [exact consuming_lakh|exact rewriter_lakh
    |exact (bhk_transfers _ consuming_lakh rewriter_lakh)
    |intros b repl rest Hm;
     exact (unit_cross bhk_body "BHK" lakh_body "Lakhs" "L" "akhs" eq_refl eq_refl
              (fun Y => eq_refl) b repl rest _ Hm)|].
  apply unit_kept;
    [exact consuming_crore|exact rewriter_crore
    |exact (bhk_transfers _ consuming_crore rewriter_crore)
    |intros b repl rest Hm;
     exact (unit_cross bhk_body "BHK" crore_body "Crores" "C" "rores" eq_refl eq_refl
              (fun Y => eq_refl) b repl rest _ Hm)|].
  apply unit_kept;
    [exact consuming_sqft|exact rewriter_sqft
    |exact (bhk_transfers _ consuming_sqft rewriter_sqft)
    |intros b repl rest Hm;
     exact (unit_cross bhk_body "BHK" sqft_body "sq.ft." "s" "q.ft." eq_refl eq_refl
              (fun Y => eq_refl) b repl rest _ Hm)|].
  apply fixes_bhk_pass.
Qed.

Lemma fixes_sqft_passes q : fixes sqft_at (passes q).
Proof.
  unfold passes, sqft_at.
  apply unit_kept;
    [exact consuming_rs|exact rewriter_rs|exact (sqft_transfers _ consuming_rs rewriter_rs)
    |intros b repl rest Hm; exact (unit_after_rs _ _ _ _ _ _ Hm)|].
  apply unit_kept;
    [exact consuming_inr|exact rewriter_inr|exact (sqft_transfers _ consuming_inr rewriter_inr)
    |intros b repl rest Hm; exact (unit_after_inr _ _ _ _ _ _ Hm)|].
  apply unit_kept;
    [exact consuming_lakh|exact rewriter_lakh
    |exact (sqft_transfers _ consuming_lakh rewriter_lakh)
    |intros b repl rest Hm;
     exact (unit_cross sqft_body "sq.ft." lakh_body "Lakhs" "L" "akhs" eq_refl eq_refl
              (fun Y => eq_refl) b repl rest _ Hm)|].
  apply unit_kept;
    [exact consuming_crore|exact rewriter_crore
    |exact (sqft_transfers _ consuming_crore rewriter_crore)
    |intros b repl rest Hm;
     exact (unit_cross sqft_body "sq.ft." crore_body "Crores" "C" "rores" eq_refl eq_refl
              (fun Y => eq_refl) b repl rest _ Hm)|].
  apply fixes_sqft_pass.
Qed.

Lemma fixes_crore_passes q : fixes crore_at (passes q).
Proof.
  unfold passes, crore_at.
  apply unit_kept;
    [exact consuming_rs|exact rewriter_rs|exact (crore_transfers _ consuming_rs rewriter_rs)
    |intros b repl rest Hm; exact (unit_after_rs _ _ _ _ _ _ Hm)|].
  apply unit_kept;
    [exact consuming_inr|exact rewriter_inr|exact (crore_transfers _ consuming_inr rewriter_inr)
    |intros b repl rest Hm; exact (unit_after_inr _ _ _ _ _ _ Hm)|].
  apply unit_kept;
    [exact consuming_lakh|exact rewriter_lakh
    |exact (crore_transfers _ consuming_lakh rewriter_lakh)
    |intros b repl rest Hm;
     exact (unit_cross crore_body "Crores" lakh_body "Lakhs" "L" "akhs" eq_refl eq_refl
              (fun Y => eq_refl) b repl rest _ Hm)|].
  apply fixes_crore_pass.
Qed.

Lemma fixes_lakh_passes q : fixes lakh_at (passes q).
Proof.
  unfold passes, lakh_at.
  apply unit_kept;
    [exact consuming_rs|exact rewriter_rs|exact (lakh_transfers _ consuming_rs rewriter_rs)
    |intros b repl rest Hm; exact (unit_after_rs _ _ _ _ _ _ Hm)|].
  apply unit_kept;
    [exact consuming_inr|exact rewriter_inr|exact (lakh_transfers _ consuming_inr rewriter_inr)
    |intros b repl rest Hm; exact (unit_after_inr _ _ _ _ _ _ Hm)|].
  apply fixes_lakh_pass.
Qed.

(** ** The pass of the [Rs.] rule *)

Lemma rs_at_canon d Y :
  Chars.is_digit d = true ->
  rs_at (("Rs. " : pystr) ++ d :: Y) = Some (("Rs. " : pystr) ++ [d], Y).
Proof.
  intros Hd. unfold rs_at. cbn [app list_ascii_of_string].
  change (Chars.one_of "Rr" "R" && Chars.one_of "Ss" "s") with true. cbv iota.
  change (Chars.eqc "." ".") with true. cbv iota.
  change (drop_spaces (" "%char :: d :: Y)) with (drop_spaces (d :: Y)).
  rewrite drop_spaces_nonspace by (now apply digit_not_space). now rewrite Hd.
Qed.

Lemma scan_rs_digit u d r :
  scan rs_at u = d :: r -> Chars.is_digit d = true -> exists u1, u = d :: u1.
Proof.
  intros H Hd. rewrite scan_eq in H by exact shrinking_rs.
  destruct (rs_at u) as [[repl rest]|] eqn:E.
  - apply rs_at_Some in E. destruct E as [r0 [s1 [d0 [_ [_ [_ [-> _]]]]]]].
    cbn in H. injection H as <- _. discriminate.
  - destruct u as [|c u1]; [discriminate|]. injection H as -> _. now exists u1.
Qed.

Lemma rs_transfer c tail R' rest' :
  rs_at (c :: scan rs_at tail) = Some (R', rest') -> rs_at (c :: tail) <> None.
Proof.
  intros H.
  destruct (scan rs_at tail) as [|x s2'] eqn:Hs; [now destruct (Chars.one_of "Rr" c)|].
  unfold rs_at in H.
  destruct (Chars.one_of "Rr" c) eqn:Er; [|discriminate].
  destruct (Chars.one_of "Ss" x) eqn:Ex; [|discriminate]. cbn [andb] in H.
  destruct (scan_peel rs_at consuming_rs rewriter_rs tail _ _ Hs
              (one_of_plain "S" "s" _ eq_refl eq_refl Ex)) as [t2 [-> [_ Hs2]]].
  symmetry in Hs2. unfold rs_at. rewrite Er, Ex. cbn [andb].
  destruct s2' as [|c0 s2'']; [discriminate|].
  destruct (Chars.eqc "." c0) eqn:Ec.
  - literal Ec.
    destruct (scan_peel rs_at consuming_rs rewriter_rs t2 _ _ Hs2 eq_refl) as [t3 [-> [_ ->]]].
    change (Chars.eqc "." ".") with true. cbv iota.
    rewrite (drop_spaces_scan rs_at consuming_rs rewriter_rs) in H.
    destruct (scan rs_at (drop_spaces t3)) as [|d r] eqn:Ed; [discriminate|].
    destruct (Chars.is_digit d) eqn:Hd; [|discriminate].
    destruct (scan_rs_digit _ _ _ Ed Hd) as [u1 ->]. now rewrite Hd.
  - rewrite <- Hs2, (drop_spaces_scan rs_at consuming_rs rewriter_rs) in H.
    destruct (scan rs_at (drop_spaces t2)) as [|d r] eqn:Ed; [discriminate|].
    destruct (Chars.is_digit d) eqn:Hd; [|discriminate].
    destruct (scan_rs_digit _ _ _ Ed Hd) as [u1 Hu1].
    destruct t2 as [|c1 t3]; [discriminate|].
    assert (Chars.eqc "." c1 = false) as Ec'.
    { destruct (Chars.eqc "." c1) eqn:E; [|reflexivity]. literal E.
      rewrite (scan_push rs_at consuming_rs rewriter_rs) in Hs2 by reflexivity.
      injection Hs2 as <- _. discriminate. }
    rewrite Ec', Hu1. now rewrite Hd.
Qed.

Lemma fixes_rs_pass z : fixes rs_at (scan rs_at z).
Proof.
  intros b' Hsuf R' rest' Hobs.
  destruct (scan_origin rs_at z b' consuming_rs Hsuf) as [->|[H|[H|H]]].
  - discriminate.
  - destruct H as [b [repl [rest [_ [Hm ->]]]]].
    apply rs_at_Some in Hm. destruct Hm as [r [s1 [d [_ [_ [Hd [-> _]]]]]]].
    rewrite <- app_assoc in Hobs |- *. cbn [app] in Hobs. rewrite rs_at_canon in Hobs by exact Hd.
    injection Hobs as <- <-. reflexivity.
  - destruct H as [c [tail [_ [Hm ->]]]]. now apply rs_transfer in Hobs.
  - destruct H as [b [repl [rest [v [u [_ [Hm [Hrepl [Hv [Hu ->]]]]]]]]]].
    exfalso. apply rs_at_Some in Hm. destruct Hm as [r [s1 [d [_ [_ [Hd [-> _]]]]]]].
    destruct v as [|v0 [|v1 [|v2 [|v3 [|v4 v]]]]]; [congruence| | | | |];
      cbn in Hrepl; injection Hrepl; intros; subst; try discriminate.
    + cbn [app] in Hobs. rewrite rs_digit in Hobs by exact Hd. discriminate.
    + destruct v; [cbn [app] in *; congruence|discriminate].
Qed.

Lemma fixes_rs_passes q : fixes rs_at (passes q).
Proof. unfold passes. apply fixes_rs_pass. Qed.

(** ** Stripping *)

Lemma space_not_dot x : Chars.is_space x = true -> Chars.eqc "." x = false.
Proof. by_cases x. Qed.

Lemma space_not_word x : Chars.is_space x = true -> Chars.is_word x = false.
Proof. by_cases x. Qed.

Lemma space_not_eqc a x :
  Chars.is_space a = false -> Chars.is_space x = true -> Chars.eqc a x = false.
Proof.
  intros Ha Hx. destruct (Chars.eqc a x) eqn:E; [|reflexivity]. literal E. congruence.
Qed.

Lemma drop_spaces_pad s x :
  drop_spaces s <> [] -> drop_spaces (s ++ [x]) = drop_spaces s ++ [x].
Proof.
  induction s as [|a s IH]; cbn [drop_spaces app]; [congruence|].
  destruct (Chars.is_space a); [exact IH|reflexivity].
Qed.

Lemma padded_unit body canon :
  body [] = None -> padded_body body -> padded (unit_at body canon).
Proof.
  intros Hnil Hb b R rest x Hx H.
  apply unit_at_Some in H. destruct H as [d [s1 [-> [Hd [-> Hbody]]]]].
  cbn [app]. rewrite unit_at_digit by exact Hd.
  rewrite drop_spaces_pad by (intros E; rewrite E in Hbody; congruence).
  now rewrite (Hb _ _ _ Hx Hbody).
Qed.

Lemma padded_bhk_body : padded_body bhk_body.
Proof.
  intros b rest x Hx H. unfold bhk_body in *.
  destruct b as [|a [|b0 [|c r]]]; try discriminate. cbn [app].
  destruct (_ && _); [|discriminate]. now injection H as <-.
Qed.

Lemma word_after_pad s x :
  Chars.is_space x = true -> word_after (s ++ [x]) = word_after s.
Proof.
  intros Hx. destruct s as [|c s]; [|reflexivity]. cbn. now apply space_not_word.
Qed.

Lemma dotb_space x : Chars.is_space x = true -> dotb [x] = Some [x].
Proof.
  intros Hx. unfold dotb. now rewrite (space_not_dot x Hx), (space_not_word x Hx).
Qed.

Lemma padded_dotb : padded_body dotb.
Proof.
  intros b rest x Hx H. destruct b as [|c s'].
  - cbn in H. injection H as <-. now apply dotb_space.
  - cbn [app]. unfold dotb in *. destruct (Chars.eqc "." c).
    + rewrite word_after_pad by exact Hx.
      destruct (word_after s'); now injection H as <-.
    + destruct (Chars.is_word c); [discriminate|]. now injection H as <-.
Qed.

Lemma padded_long_tail a b c e :
  Chars.is_space c = false -> Chars.is_space e = false ->
  padded_body (long_tail a b c e).
Proof.
  intros Hc He s rest x Hx H.
  destruct s as [|a' [|b' [|c' s3]]].
  - exact (padded_dotb [] _ _ Hx H).
  - exact (padded_dotb [a'] _ _ Hx H).
  - cbn [app]. unfold long_tail.
    rewrite (space_not_eqc c x Hc Hx), andb_false_r.
    exact (padded_dotb [a'; b'] _ _ Hx H).
  - cbn [app]. unfold long_tail in *.
    destruct (_ && _).
    + destruct s3 as [|e' s4].
      * cbn [app]. rewrite (space_not_eqc e x He Hx).
        exact (padded_dotb [] _ _ Hx H).
      * cbn [app]. destruct (Chars.eqc e e').
        -- exact (padded_dotb s4 _ _ Hx H).
        -- exact (padded_dotb (e' :: s4) _ _ Hx H).
    + exact (padded_dotb (a' :: b' :: c' :: s3) _ _ Hx H).
Qed.

Lemma padded_crore_body : padded_body crore_body.
Proof.
  intros b rest x Hx H. unfold crore_body in *.
  destruct b as [|c [|r s2]]; try discriminate. cbn [app].
  destruct (_ && _); [|discriminate].
  now apply (padded_long_tail "o" "r" "e" "s").
Qed.

Lemma padded_lakh_body : padded_body lakh_body.
Proof.
  intros b rest x Hx H. unfold lakh_body in *.
  destruct b as [|l s1]; try discriminate. cbn [app].
  destruct (Chars.one_of "Ll" l); [|discriminate].
  now apply (padded_long_tail "a" "k" "h" "s").
Qed.

Lemma padded_ft_part : padded_body ft_part.
Proof.
  intros b rest x Hx H. unfold ft_part in *.
  destruct b as [|f [|t r]]; try discriminate. cbn [app].
  destruct (_ && _); [|discriminate].
  destruct r as [|c r'].
  - cbn [app]. rewrite (space_not_dot x Hx). now injection H as <-.
  - cbn [app]. destruct (Chars.eqc "." c); now injection H as <-.
Qed.

Lemma ft_part_nil : ft_part [] = None.
Proof. reflexivity. Qed.

Lemma padded_sqft_body : padded_body sqft_body.
Proof.
  intros b rest x Hx H. unfold sqft_body in *.
  destruct b as [|a [|b0 s2]]; try discriminate. cbn [app].
  destruct (_ && _); [|discriminate].
  destruct s2 as [|c s3]; [discriminate|]. cbn [app].
  destruct (Chars.eqc "." c).
  - rewrite drop_spaces_pad by (intros E; rewrite E in H; discriminate).
    now apply padded_ft_part.
  - change (c :: s3 ++ [x]) with ((c :: s3) ++ [x]).
    rewrite drop_spaces_pad by (intros E; rewrite E in H; discriminate).
    now apply padded_ft_part.
Qed.

Lemma padded_bhk : padded bhk_at.
Proof. apply padded_unit; [reflexivity|exact padded_bhk_body]. Qed.

Lemma padded_sqft : padded sqft_at.
Proof. apply padded_unit; [reflexivity|exact padded_sqft_body]. Qed.

Lemma padded_crore : padded crore_at.
Proof. apply padded_unit; [reflexivity|exact padded_crore_body]. Qed.

Lemma padded_lakh : padded lakh_at.
Proof. apply padded_unit; [reflexivity|exact padded_lakh_body]. Qed.

Lemma padded_rs : padded rs_at.
Proof.
  intros b R rest x Hx H. unfold rs_at in *.
  destruct b as [|r [|y s2]]; try discriminate. cbn [app].
  destruct (_ && _); [|discriminate].
  destruct s2 as [|c s2']; [discriminate|]. cbn [app].
  destruct (Chars.eqc "." c).
  - rewrite drop_spaces_pad by (intros E; rewrite E in H; discriminate).
    destruct (drop_spaces s2') as [|d rest0]; [discriminate|]. cbn [app].
    destruct (Chars.is_digit d); [|discriminate]. now injection H as <- <-.
  - change (c :: s2' ++ [x]) with ((c :: s2') ++ [x]).
    rewrite drop_spaces_pad by (intros E; rewrite E in H; discriminate).
    destruct (drop_spaces (c :: s2')) as [|d rest0]; [discriminate|]. cbn [app].
    destruct (Chars.is_digit d); [|discriminate]. now injection H as <- <-.
Qed.

Lemma fixes_pad1 m y x :
  padded m -> Chars.is_space x = true -> fixes m (y ++ [x]) -> fixes m y.
Proof.
  intros Hm Hx Hy b [a Ha] R rest H.
  pose proof (Hm _ _ _ _ Hx H) as H'.
  assert (suffix (b ++ [x]) (y ++ [x])) as Hs.
  { exists a. rewrite Ha. now rewrite app_assoc. }
  pose proof (Hy _ Hs _ _ H') as E. rewrite app_assoc in E.
  now apply app_inv_tail in E.
Qed.

Lemma fixes_unpad m y w :
  padded m -> forallb Chars.is_space w = true -> fixes m (y ++ w) -> fixes m y.
Proof.
  intros Hm. induction w as [|x w IH] using rev_ind.
  - now rewrite app_nil_r.
  - rewrite forallb_app. cbn [forallb]. rewrite andb_true_r. intros Hw.
    apply andb_true_iff in Hw. destruct Hw as [Hw Hx]. rewrite app_assoc.
    intros H. apply IH; [exact Hw|]. now apply (fixes_pad1 m _ x).
Qed.

Lemma lstrip_drop s : lstrip s = drop_spaces s.
Proof. induction s as [|c s IH]; [reflexivity|]. cbn. now rewrite IH. Qed.

Lemma rstrip_split s : exists w, forallb Chars.is_space w = true /\ s = rstrip s ++ w.
Proof.
  exists (rev (take_spaces (rev s))). split.
  - apply forallb_forall. intros x Hx. apply in_rev in Hx.
    pose proof (take_spaces_spaces (rev s)) as H. rewrite forallb_forall in H. now apply H.
  - unfold rstrip. rewrite lstrip_drop, <- rev_app_distr, <- spaces_split.
    now rewrite rev_involutive.
Qed.

Lemma fixes_strip m s : padded m -> fixes m s -> fixes m (strip s).
Proof.
  intros Hm Hs. unfold strip.
  destruct (rstrip_split (lstrip s)) as [w [Hw E]].
  apply (fixes_unpad m _ w Hm Hw). rewrite <- E.
  apply (fixes_suffix m _ s); [|exact Hs].
  rewrite lstrip_drop. apply drop_spaces_suffix.
Qed.

Lemma absent_fixes m y : absent m y -> fixes m y.
Proof. intros H b Hb R rest E. rewrite (H b Hb) in E. discriminate. Qed.

Lemma has_INR_absent y : has_INR y = false -> absent inr_at y.
Proof.
  induction y as [|a y IH]; intros H b Hb.
  - apply suffix_nil_inv in Hb. now subst b.
  - apply suffix_cons_inv in Hb. destruct Hb as [->|Hb].
    + unfold inr_at. destruct y as [|b0 [|c s3]]; try reflexivity.
      cbn [has_INR] in H. apply orb_false_iff in H. destruct H as [H _]. now rewrite H.
    + apply IH; [|exact Hb]. destruct y as [|b0 [|c s3]]; try reflexivity.
      cbn [has_INR] in H. apply orb_false_iff in H. now destruct H as [_ H].
Qed.

(** ** A second application

    The five rules other than the INR rule have nothing left to rewrite in a
    normalised query. *)
Lemma normal_form_fixed q :
  let y := normalize_query q in
  fixes bhk_at y /\ fixes sqft_at y /\ fixes crore_at y /\ fixes lakh_at y /\ fixes rs_at y.
Proof.
  intros y. subst y. rewrite normalize_query_passes. repeat split.
  - apply fixes_strip; [exact padded_bhk|apply fixes_bhk_passes].
  - apply fixes_strip; [exact padded_sqft|apply fixes_sqft_passes].
  - apply fixes_strip; [exact padded_crore|apply fixes_crore_passes].
  - apply fixes_strip; [exact padded_lakh|apply fixes_lakh_passes].
  - apply fixes_strip; [exact padded_rs|apply fixes_rs_passes].
Qed.

(** C10 (amended): applying [normalize_query] to a normalised query changes
    nothing, whenever the normalised query has neither [INR] nor [inr] left
    in it.  The BHK, sq.ft., Crores, Lakhs and [Rs.<digit>] rules never find
    anything to change in a normalised query ([normal_form_fixed]); only the
    INR rule can, where the [Rs. ] it wrote follows the letters [IN]. *)
Theorem normalize_query_idempotent (q : pystr) :
  has_INR (normalize_query q) = false ->
  normalize_query (normalize_query q) = normalize_query q.
Proof.
  intros H.
  destruct (normal_form_fixed q) as [H1 [H2 [H3 [H4 H6]]]].
  pose proof (absent_fixes _ _ (has_INR_absent _ H)) as H5.
  rewrite (normalize_query_passes (normalize_query q)). unfold passes.
  rewrite (scan_fixes bhk_at _ shrinking_bhk H1), (scan_fixes sqft_at _ shrinking_sqft H2),
    (scan_fixes crore_at _ shrinking_crore H3), (scan_fixes lakh_at _ shrinking_lakh H4),
    (scan_fixes inr_at _ shrinking_inr H5), (scan_fixes rs_at _ shrinking_rs H6).
  rewrite normalize_query_passes. apply ChunkFacts.strip_idempotent.
Qed.

(** The theorem at a query that keeps the letters [IN] and has a currency
    code and a BHK shorthand rewritten. *)
Lemma normalize_query_idempotent_witness :
  normalize_query "INDIA inr 50 3bhk" = ("INDIA Rs. 50 3 BHK" : pystr)
  /\ normalize_query (normalize_query "INDIA inr 50 3bhk") = normalize_query "INDIA inr 50 3bhk".
Proof.
  split; [vm_compute; reflexivity|].
  apply (normalize_query_idempotent "INDIA inr 50 3bhk"). vm_compute. reflexivity.
Defined.

End NormalFormFacts.

(* ================================================================= *)
(** ** More about the chunker *)

Module ChunkMore.

Import Re DocumentParsers ChunkTrace ChunkParts ChunkFacts.

Local Open Scope nat_scope.

(** *** The sentence split *)

Lemma star_run {A : Type} (f : ascii -> bool) (prev s : pystr)
      (k : pystr -> pystr -> option A) (x : A) :
  star f prev s k = Some x ->
  exists ws rest, s = ws ++ rest /\ forallb f ws = true /\ k (rev ws ++ prev) rest = Some x.
Proof.
  revert prev. induction s as [|c s IH]; intros prev; simpl.
  - intros H. now exists [], [].
  - destruct (f c) eqn:Ec.
    + destruct (star f (c :: prev) s k) as [y|] eqn:E.
      * intros H. injection H as <-. destruct (IH _ E) as [ws [rest [-> [Hws Hk]]]].
        exists (c :: ws), rest. repeat split.
        -- simpl. now rewrite Ec.
        -- simpl. now rewrite <- app_assoc.
      * intros H. now exists [], (c :: s).
    + intros H. now exists [], (c :: s).
Qed.

(** A match of the sentence boundary is a run of white space. *)
Lemma boundary_match (prev s prev' rest : pystr) (cap : option pystr) :
  match_at sentence_boundary prev s = Some (prev', rest, cap) ->
  exists ws, s = ws ++ rest /\ forallb Chars.is_space ws = true.
Proof.
  unfold match_at, sentence_boundary, Plus. cbn [rmatch].
  destruct prev as [|c0 prev]; [discriminate|].
  destruct (Chars.one_of ".!?" c0); [|discriminate].
  destruct s as [|c s']; [discriminate|].
  destruct (Chars.is_space c) eqn:Ec; [|discriminate].
  intros H. apply star_run in H. destruct H as [ws [rest' [-> [Hws Hk]]]].
  destruct (Nat.ltb _ _); [|discriminate]. injection Hk as _ <- _.
  exists (c :: ws). split; [reflexivity|]. simpl. now rewrite Ec.
Qed.

Lemma has_nonspace_app (a b : pystr) :
  has_nonspace (a ++ b) = has_nonspace a || has_nonspace b.
Proof. unfold has_nonspace. apply existsb_app. Qed.

Lemma spaces_blank (ws : pystr) : forallb Chars.is_space ws = true -> has_nonspace ws = false.
Proof.
  unfold has_nonspace. induction ws as [|c ws IH]; [reflexivity|]. simpl.
  intros H. apply andb_true_iff in H. destruct H as [-> H]. now apply IH.
Qed.

Lemma blank_chars (s : pystr) :
  has_nonspace s = false <-> forall c, In c s -> Chars.is_space c = true.
Proof.
  unfold has_nonspace. split.
  - intros H c Hc. destruct (Chars.is_space c) eqn:E; [reflexivity|].
    assert (existsb (fun c => negb (Chars.is_space c)) s = true).
    { apply existsb_exists. exists c. now rewrite E. }
    congruence.
  - intros H. apply not_true_is_false. intros E. apply existsb_exists in E.
    destruct E as [c [Hc E]]. rewrite (H c Hc) in E. discriminate.
Qed.

(** The pieces of the split are made of characters of the text, and no
    character that is not white space is lost. *)
Lemma split_pieces (fuel : nat) (prev s piece : pystr) :
  (forall p, In p (split_loop fuel sentence_boundary prev s piece) ->
             forall c, In c p -> In c (rev piece ++ s))
  /\ (has_nonspace (rev piece ++ s) = true ->
      exists p, In p (split_loop fuel sentence_boundary prev s piece)
                /\ has_nonspace p = true).
Proof.
  revert prev s piece. induction fuel as [|fuel IH]; intros prev s piece.
  - simpl. split.
    + intros p [<-|[]] c Hc. exact Hc.
    + intros H. exists (rev piece ++ s). split; [now left|exact H].
  - simpl. destruct (match_at sentence_boundary prev s) as [[[prev' rest] cap]|] eqn:E.
    + destruct (boundary_match _ _ _ _ _ E) as [ws [-> Hws]].
      destruct (IH prev' rest []) as [IH1 IH2]. split.
      * intros p [<-|Hp] c Hc.
        -- apply in_app_iff. now left.
        -- apply in_app_iff. right. apply in_app_iff. right.
           exact (IH1 p Hp c Hc).
      * rewrite !has_nonspace_app, (spaces_blank ws Hws). cbn [orb].
        intros H. apply orb_true_iff in H. destruct H as [H|H].
        -- exists (rev piece). split; [now left|exact H].
        -- destruct (IH2 H) as [p [Hp Hn]]. exists p. split; [now right|exact Hn].
    + destruct s as [|c s'].
      * rewrite app_nil_r. split.
        -- intros p [<-|[]] c Hc. exact Hc.
        -- intros H. exists (rev piece). split; [now left|exact H].
      * destruct (IH (c :: prev) s' (c :: piece)) as [IH1 IH2].
        replace (rev piece ++ c :: s') with (rev (c :: piece) ++ s')
          by (simpl; now rewrite <- app_assoc).
        split; assumption.
Qed.

Lemma split_sentences_nil (text : pystr) :
  split_sentences text = [] <-> has_nonspace text = false.
Proof.
  unfold split_sentences, split.
  destruct (split_pieces (S (length text)) [] text []) as [H1 H2].
  cbn [rev app] in H1, H2. split.
  - intros H. apply not_true_is_false. intros Hn.
    destruct (H2 Hn) as [p [Hp Hpn]].
    assert (In (strip p)
              (map strip (filter (fun s => truthy (strip s))
                            (split_loop (S (length text)) sentence_boundary [] text [])))).
    { apply in_map, filter_In. split; [exact Hp|]. now rewrite truthy_strip. }
    rewrite H in H0. contradiction.
  - intros H.
    replace (filter _ _) with (@nil pystr); [reflexivity|].
    symmetry. pose proof (proj1 (blank_chars text) H) as Hb. clear H H2.
    set (l := split_loop _ _ _ _ _) in *. clearbody l.
    induction l as [|p l IHl]; [reflexivity|]. simpl.
    rewrite truthy_strip.
    replace (has_nonspace p) with false.
    + apply IHl. intros q Hq. apply H1. now right.
    + symmetry. apply blank_chars. intros c Hc. apply Hb, (H1 p); [now left|exact Hc].
Qed.

Lemma chunk_groups_nonempty (text : pystr) (chunk_size overlap : Z) :
  split_sentences text <> [] -> chunk_groups text chunk_size overlap <> [].
Proof.
  intros Hne. unfold chunk_groups.
  destruct (covers_flush _ _ (covers_loop chunk_size overlap (split_sentences text)))
    as [_ Hall].
  destruct (split_sentences text) as [|s l]; [congruence|].
  destruct (Hall s (or_introl eq_refl)) as [g [Hg _]].
  intros E. rewrite E in Hg. contradiction.
Qed.

(** X1: [chunk_text] returns no chunk exactly when the text is empty or all
    white space, whatever the chunk size and the overlap. *)
Theorem chunk_text_empty_iff_blank (text : pystr) (chunk_size overlap : Z) :
  chunk_text text chunk_size overlap = [] <-> has_nonspace text = false.
Proof.
  rewrite <- split_sentences_nil, chunk_text_groups. split.
  - intros H. destruct (split_sentences text) as [|s l] eqn:E; [reflexivity|].
    exfalso. apply (chunk_groups_nonempty text chunk_size overlap); [congruence|].
    destruct (chunk_groups text chunk_size overlap); [reflexivity|discriminate].
  - intros H. unfold chunk_groups. now rewrite H.
Qed.

(** *** Chunks are trimmed *)

Lemma lstrip_length (s : pystr) : length (lstrip s) <= length s.
Proof.
  induction s as [|c s IH]; simpl; [lia|]. destruct (Chars.is_space c); simpl; lia.
Qed.

Lemma strip_length (s : pystr) : length (strip s) <= length (lstrip s).
Proof.
  unfold strip, rstrip. rewrite length_rev.
  etransitivity; [apply lstrip_length|]. now rewrite length_rev.
Qed.

(** The first and the last character of a trimmed text are not white space. *)
Lemma strip_first (s : pystr) (c : ascii) (r : pystr) :
  strip s = c :: r -> Chars.is_space c = false.
Proof.
  intros H. destruct (Chars.is_space c) eqn:E; [|reflexivity]. exfalso.
  pose proof (strip_idempotent s) as Hi. rewrite H in Hi.
  pose proof (strip_length (c :: r)) as Hl. rewrite Hi in Hl.
  simpl in Hl. rewrite E in Hl. pose proof (lstrip_length r). simpl in Hl. lia.
Qed.

Lemma strip_last (s : pystr) (c : ascii) (r : pystr) :
  strip s = r ++ [c] -> Chars.is_space c = false.
Proof.
  unfold strip, rstrip. intros H.
  assert (E : lstrip (rev (lstrip s)) = c :: rev r).
  { rewrite <- (rev_involutive (lstrip _)), H, rev_app_distr. reflexivity. }
  now apply lstrip_head in E.
Qed.

Lemma strip_fixed_ends (s : pystr) :
  (forall c r, s = c :: r -> Chars.is_space c = false) ->
  (forall c r, s = r ++ [c] -> Chars.is_space c = false) ->
  strip s = s.
Proof.
  intros Hf Hl. unfold strip, rstrip.
  rewrite (lstrip_fixed s) by (destruct s as [|c r]; [exact I|now apply (Hf c r)]).
  rewrite lstrip_fixed; [apply rev_involutive|].
  destruct (rev s) as [|c r] eqn:E; [exact I|].
  apply (Hl c (rev r)). rewrite <- (rev_involutive s), E. reflexivity.
Qed.

Lemma join_cons (sep p : pystr) (g : list pystr) :
  g <> [] -> join sep (p :: g) = p ++ sep ++ join sep g.
Proof. destruct g; [congruence|reflexivity]. Qed.

Lemma join_snoc (sep : pystr) (g : list pystr) (p : pystr) :
  g <> [] -> join sep (g ++ [p]) = join sep g ++ sep ++ p.
Proof.
  induction g as [|q g IH]; [congruence|]. intros _.
  destruct g as [|q' g].
  - reflexivity.
  - cbn [app]. rewrite (join_cons sep q) by (destruct g; discriminate).
    cbn [app] in IH. rewrite IH by discriminate.
    rewrite (join_cons sep q) by discriminate. now rewrite <- !app_assoc.
Qed.

(** A sentence of the split: trimmed, with a first and a last character. *)
Lemma sentence_ends (text s : pystr) :
  In s (split_sentences text) ->
  s <> []
  /\ (forall c r, s = c :: r -> Chars.is_space c = false)
  /\ (forall c r, s = r ++ [c] -> Chars.is_space c = false).
Proof.
  intros H. pose proof (split_sentences_nonblank _ _ H) as Hn.
  unfold split_sentences in H. apply in_map_iff in H. destruct H as [x [<- _]].
  split; [|split].
  - intros E. rewrite E in Hn. discriminate.
  - intros c r. apply strip_first.
  - intros c r. apply strip_last.
Qed.

Lemma join_ends (g : list pystr) :
  g <> [] ->
  Forall (fun s => s <> []
                   /\ (forall c r, s = c :: r -> Chars.is_space c = false)
                   /\ (forall c r, s = r ++ [c] -> Chars.is_space c = false)) g ->
  strip (join " " g) = join " " g.
Proof.
  intros Hne Hall. apply strip_fixed_ends.
  - destruct g as [|p g]; [congruence|]. apply Forall_inv in Hall.
    destruct Hall as [Hp [Hf _]]. destruct p as [|a p]; [congruence|].
    intros c r E. apply (Hf c p).
    destruct g; simpl in E; injection E as <- _; reflexivity.
  - destruct (exists_last Hne) as [g' [p ->]]. apply Forall_app in Hall.
    destruct Hall as [_ Hall]. apply Forall_inv in Hall. destruct Hall as [Hp [_ Hl]].
    destruct (exists_last Hp) as [p' [z ->]].
    intros c r E. apply (Hl c p').
    assert (exists r', join " " (g' ++ [p' ++ [z]]) = r' ++ [z]) as [r' Hr'].
    { destruct g' as [|q g'].
      - now exists p'.
      - rewrite join_snoc by discriminate.
        exists (join " " (q :: g') ++ (" " : pystr) ++ p'). now rewrite <- !app_assoc. }
    pose proof (eq_trans (eq_sym E) Hr') as E'.
    apply app_inj_tail in E'. destruct E' as [_ ->]. reflexivity.
Qed.

(** X2: every chunk returned by [chunk_text] has a character that is not
    white space and neither starts nor ends with white space. *)
Theorem chunks_are_trimmed (text : pystr) (chunk_size overlap : Z) :
  Forall (fun c => has_nonspace c = true /\ strip c = c)
         (chunk_text text chunk_size overlap).
Proof.
  rewrite chunk_text_groups. unfold chunk_groups.
  destruct (covers_flush _ _ (covers_loop chunk_size overlap (split_sentences text)))
    as [Hinfix _].
  apply Forall_map. eapply Forall_impl; [|exact Hinfix].
  intros g [Hne [a [b Hab]]].
  assert (Hin : forall s, In s g -> In s (split_sentences text)).
  { intros s Hs. rewrite Hab. apply in_app_iff. right. apply in_app_iff. now left. }
  split.
  - destruct g as [|s g]; [congruence|].
    apply (has_nonspace_join (s :: g) s); [now left|].
    apply (split_sentences_nonblank text), Hin. now left.
  - apply join_ends; [exact Hne|]. apply Forall_forall. intros s Hs.
    apply (sentence_ends text), Hin, Hs.
Qed.

(** *** One step more *)

Lemma trace_loop_snoc (chunk_size overlap : Z) (l : list pystr) (s : pystr) :
  trace_loop chunk_size overlap (l ++ [s])
  = trace_step chunk_size overlap (trace_loop chunk_size overlap l) s.
Proof. unfold trace_loop. now rewrite fold_left_app. Qed.

Lemma weight_snoc (l : list pystr) (s : pystr) :
  weight (l ++ [s]) = (weight l + len s + 1)%Z.
Proof. rewrite weight_app. simpl. lia. Qed.

Lemma trace_loop_buffer (chunk_size overlap : Z) (l : list pystr) :
  l <> [] -> buffer (trace_loop chunk_size overlap l) <> [].
Proof.
  intros Hl. destruct (exists_last Hl) as [l' [s ->]].
  rewrite trace_loop_snoc. unfold trace_step.
  destruct (_ && _); cbn [buffer]; intros E; now apply app_eq_nil in E.
Qed.

(** *** A text that fits in one chunk *)

Lemma trace_loop_fits (chunk_size overlap : Z) (l : list pystr) :
  (weight l <= chunk_size)%Z ->
  trace_loop chunk_size overlap l = {| groups := []; buffer := l |}.
Proof.
  induction l as [|s l IH] using rev_ind; [reflexivity|].
  rewrite weight_snoc, trace_loop_snoc. intros H.
  pose proof (len_nonneg s). rewrite IH by lia. unfold trace_step. cbn [buffer groups].
  replace (weight l + len s + 1 >? chunk_size)%Z with false; [reflexivity|].
  symmetry. rewrite Z.gtb_ltb. apply Z.ltb_ge. lia.
Qed.

Lemma trace_loop_unsplit (chunk_size overlap : Z) (l : list pystr) :
  groups (trace_loop chunk_size overlap l) = [] ->
  buffer (trace_loop chunk_size overlap l) = l
  /\ (2 <= length l -> (weight l <= chunk_size)%Z).
Proof.
  induction l as [|s l IH] using rev_ind; [split; [reflexivity|simpl; lia]|].
  rewrite trace_loop_snoc, weight_snoc, length_app. cbn [length].
  unfold trace_step.
  destruct ((weight (buffer (trace_loop chunk_size overlap l)) + len s + 1 >? chunk_size)%Z
            && truthy (buffer (trace_loop chunk_size overlap l))) eqn:E;
    cbn [groups buffer].
  - intros H. now apply app_eq_nil in H.
  - intros Hg. destruct (IH Hg) as [Hbuf _]. rewrite Hbuf in E |- *.
    split; [reflexivity|]. intros Hlen.
    apply andb_false_iff in E. destruct E as [E|E].
    + rewrite Z.gtb_ltb in E. apply Z.ltb_ge in E. lia.
    + destruct l; [simpl in Hlen; lia|discriminate].
Qed.

(** X3: a text whose sentences, joined by single spaces, are shorter than
    [chunk_size] comes back as one chunk, that join; and with two sentences
    or more, a join of [chunk_size] characters or more is split into two
    chunks or more (the chunker counts one separator per sentence, so a join
    of exactly [chunk_size] characters is split). *)
Theorem chunk_text_single_chunk (text : pystr) (chunk_size overlap : Z) :
  (split_sentences text <> [] ->
   (len (join " " (split_sentences text)) < chunk_size)%Z ->
   chunk_text text chunk_size overlap = [join " " (split_sentences text)])
  /\ (2 <= length (split_sentences text) ->
      (chunk_size <= len (join " " (split_sentences text)))%Z ->
      2 <= length (chunk_text text chunk_size overlap)).
Proof.
  rewrite chunk_text_groups. unfold chunk_groups. split.
  - intros Hne Hlen. rewrite len_join in Hlen by exact Hne.
    rewrite trace_loop_fits by lia. unfold flush. cbn [buffer groups].
    destruct (split_sentences text); [congruence|reflexivity].
  - intros H2 Hlen.
    assert (Hne : split_sentences text <> [])
      by (destruct (split_sentences text); [simpl in H2; lia|discriminate]).
    rewrite len_join in Hlen by exact Hne.
    pose proof (trace_loop_buffer chunk_size overlap _ Hne) as Hb.
    rewrite length_map. unfold flush.
    destruct (buffer (trace_loop chunk_size overlap (split_sentences text)));
      [congruence|]. cbn [truthy]. rewrite length_app. cbn [length].
    destruct (groups (trace_loop chunk_size overlap (split_sentences text))) eqn:Eg;
      [|simpl; lia].
    destruct (trace_loop_unsplit chunk_size overlap _ Eg) as [_ Hw].
    specialize (Hw H2). lia.
Qed.

Lemma chunk_text_single_chunk_witness :
  split_sentences "One. Two." = [("One." : pystr); ("Two." : pystr)]
  /\ chunk_text "One. Two." 10 0 = [("One. Two." : pystr)]
  /\ 2 <= length (chunk_text "One. Two." 9 0).
Proof.
  split; [vm_compute; reflexivity|]. split.
  - apply (proj1 (chunk_text_single_chunk "One. Two." 10 0)).
    + vm_compute. discriminate.
    + vm_compute. reflexivity.
  - apply (proj2 (chunk_text_single_chunk "One. Two." 9 0)).
    + vm_compute. lia.
    + vm_compute. discriminate.
Defined.

(** *** The number of chunks *)

Lemma trace_loop_count (chunk_size overlap : Z) (l : list pystr) :
  l <> [] -> length (groups (trace_loop chunk_size overlap l)) + 1 <= length l.
Proof.
  induction l as [|s l IH] using rev_ind; [congruence|]. intros _.
  rewrite trace_loop_snoc, length_app. cbn [length]. unfold trace_step.
  destruct l as [|s0 l] using rev_ind.
  - change (trace_loop chunk_size overlap []) with {| groups := []; buffer := [] |}.
    cbn [buffer groups truthy]. rewrite andb_false_r. cbn. lia.
  - clear IHl. specialize (IH ltac:(intros E; now apply app_eq_nil in E)).
    rewrite length_app in IH. cbn [length] in IH.
    destruct (_ && _); cbn [groups]; rewrite ?length_app; cbn [length]; lia.
Qed.

(** X4: [chunk_text] never returns more chunks than the text has sentences. *)
Theorem chunk_count_bound (text : pystr) (chunk_size overlap : Z) :
  length (chunk_text text chunk_size overlap) <= length (split_sentences text).
Proof.
  rewrite chunk_text_groups, length_map. unfold chunk_groups, flush.
  destruct (split_sentences text) as [|s l] eqn:E; [simpl; lia|].
  pose proof (trace_loop_count chunk_size overlap (s :: l) ltac:(discriminate)) as H.
  destruct (truthy _); rewrite ?length_app; cbn [length] in *; lia.
Qed.

(** *** Chunks tile the sentences *)

Lemma last_cons {A : Type} (a d : A) (l : list A) : last (a :: l) d = last l a.
Proof.
  revert a d. induction l as [|b l IH]; intros a d; [reflexivity|].
  change (last (a :: b :: l) d) with (last (b :: l) d). now rewrite !IH.
Qed.

Lemma chained_snoc (prev : list pystr) (ps : list part) (q : part) :
  chained prev (ps ++ [q])
  <-> chained prev ps /\ exists pre, last (map whole ps) prev = pre ++ fst q.
Proof.
  revert prev. induction ps as [|p ps IH]; intros prev.
  - simpl. tauto.
  - cbn [app chained map]. rewrite IH, last_cons. tauto.
Qed.

Lemma tiles_loop (chunk_size overlap : Z) (l : list pystr) :
  l <> [] -> tiles overlap l (trace_loop chunk_size overlap l).
Proof.
  induction l as [|s l IH] using rev_ind; [congruence|]. intros _.
  rewrite trace_loop_snoc.
  destruct l as [|s0 l0] eqn:El.
  - exists [], [], [s].
    change (trace_loop chunk_size overlap []) with {| groups := []; buffer := [] |}.
    unfold trace_step. cbn [buffer groups truthy]. rewrite andb_false_r.
    cbn [buffer groups]. split; [reflexivity|]. split; [reflexivity|].
    split; [reflexivity|]. split.
    + cbn. split; [now exists []|exact I].
    + constructor; [|constructor]. split; [discriminate|]. simpl. lia.
  - rewrite <- El in *. assert (Hl : l <> []) by (rewrite El; discriminate).
    destruct (IH Hl) as [ps [seed [new [Hg [Hb [Hc [Hch Hok]]]]]]]. clear IH.
    unfold trace_step. destruct (_ && _).
    + destruct (build_overlap_spec overlap (buffer (trace_loop chunk_size overlap l)))
        as [_ [Hw [pre Hpre]]].
      set (seed' := fst (build_overlap overlap (buffer (trace_loop chunk_size overlap l))))
        in *.
      exists (ps ++ [(seed, new)]), seed', [s]. cbn [groups buffer].
      split; [|split; [|split; [|split]]].
      * rewrite map_app, Hg, Hb. reflexivity.
      * reflexivity.
      * rewrite map_app, concat_app. cbn [map concat snd]. rewrite app_nil_r.
        exact (f_equal (fun x => x ++ [s]) Hc).
      * apply chained_snoc. split; [exact Hch|].
        exists pre. rewrite map_app. cbn [map]. rewrite last_last.
        unfold whole. cbn [fst snd]. now rewrite <- Hb.
      * apply Forall_app. split; [exact Hok|].
        constructor; [|constructor]. split; [discriminate|exact Hw].
    + exists ps, seed, (new ++ [s]). cbn [groups buffer].
      split; [|split; [|split; [|split]]].
      * exact Hg.
      * now rewrite Hb, app_assoc.
      * rewrite app_assoc. exact (f_equal (fun x => x ++ [s]) Hc).
      * apply chained_snoc. apply chained_snoc in Hch. exact Hch.
      * apply Forall_app. apply Forall_app in Hok. destruct Hok as [Hok1 Hok2].
        split; [exact Hok1|]. apply Forall_inv in Hok2. cbn [fst snd] in Hok2.
        constructor; [|constructor]. cbn [fst snd].
        split; [intros E; now apply app_eq_nil in E|apply Hok2].
Qed.

Lemma weight_zero (l : list pystr) : (weight l <= 0)%Z -> l = [].
Proof.
  destruct l as [|s l]; [reflexivity|]. simpl.
  pose proof (len_nonneg s). pose proof (weight_nonneg l). lia.
Qed.

(** X5: the chunks tile the sentences.  Every chunk is an overlap followed by
    new sentences, at least one; the new sentences of all chunks, in order,
    are the sentences of the text, each once; the overlap of a chunk is a
    tail of the chunk before it (none for the first chunk) and weighs at
    most the overlap budget, so that with no budget no sentence is repeated. *)
Theorem chunks_tile_sentences (text : pystr) (chunk_size overlap : Z) :
  exists parts : list part,
    chunk_text text chunk_size overlap = map (fun p => join " " (whole p)) parts
    /\ concat (map snd parts) = split_sentences text
    /\ chained [] parts
    /\ Forall (fun p => snd p <> [] /\ (weight (fst p) <= Z.max 0 overlap)%Z) parts
    /\ ((overlap <= 0)%Z -> Forall (fun p => fst p = []) parts).
Proof.
  rewrite chunk_text_groups. unfold chunk_groups.
  destruct (split_sentences text) as [|s0 l0] eqn:E.
  - exists []. repeat split; constructor.
  - rewrite <- E. assert (Hne : split_sentences text <> []) by (rewrite E; discriminate).
    clear E. destruct (tiles_loop chunk_size overlap _ Hne)
      as [ps [seed [new [Hg [Hb [Hc [Hch Hok]]]]]]].
    pose proof (trace_loop_buffer chunk_size overlap _ Hne) as Hbn.
    exists (ps ++ [(seed, new)]). split; [|split; [|split; [|split]]].
    + unfold flush.
      destruct (buffer (trace_loop chunk_size overlap (split_sentences text))) eqn:Eb;
        [congruence|]. cbn [truthy]. rewrite Hg, !map_app, map_map. cbn [map].
      unfold whole at 3. cbn [fst snd]. now rewrite <- Hb.
    + rewrite map_app, concat_app. cbn [map concat snd]. now rewrite app_nil_r.
    + exact Hch.
    + exact Hok.
    + intros Hov. eapply Forall_impl; [|exact Hok]. intros p [_ Hw].
      apply weight_zero. lia.
Qed.

End ChunkMore.

(* ================================================================= *)
(** ** File names, sizes and the choice of a parser *)

Module FileFacts.

Import DocumentParsers VectorDatabases Config App RuleFacts AppFacts.

Local Open Scope nat_scope.

(** *** The extension *)

Lemma has_dot (s : pystr) : existsb (Ascii.eqb ".") s = true <-> In "."%char s.
Proof.
  rewrite existsb_exists. split.
  - intros [c [Hc E]]. apply Ascii.eqb_eq in E. now subst c.
  - intros H. exists "."%char. split; [exact H|apply Ascii.eqb_refl].
Qed.

Lemma split_char_nonempty (sep : ascii) (s : pystr) : split_char sep s <> [].
Proof.
  destruct s as [|c s]; simpl; [discriminate|].
  destruct (Ascii.eqb c sep); [discriminate|].
  destruct (split_char sep s); discriminate.
Qed.

Lemma split_char_whole (sep : ascii) (s : pystr) : ~ In sep s -> split_char sep s = [s].
Proof.
  induction s as [|c s IH]; [reflexivity|]. intros H. cbn [split_char].
  destruct (Ascii.eqb c sep) eqn:Ec.
  - apply Ascii.eqb_eq in Ec. subst c. exfalso. apply H. now left.
  - rewrite IH; [reflexivity|]. intros Hin. apply H. now right.
Qed.

Lemma split_char_app (sep : ascii) (a b : pystr) :
  split_char sep (a ++ sep :: b) = split_char sep a ++ split_char sep b.
Proof.
  induction a as [|c a IH]; cbn [app split_char].
  - now rewrite Ascii.eqb_refl.
  - destruct (Ascii.eqb c sep); rewrite IH; [reflexivity|].
    pose proof (split_char_nonempty sep a) as Hne.
    destruct (split_char sep a) as [|p ps]; [congruence|reflexivity].
Qed.

Lemma last_occurrence (sep : ascii) (s : pystr) :
  In sep s -> exists stem e, s = stem ++ sep :: e /\ ~ In sep e.
Proof.
  induction s as [|c s IH]; [contradiction|]. intros H.
  destruct (in_dec ascii_dec sep s) as [Hin|Hout].
  - destruct (IH Hin) as [stem [e [-> He]]]. now exists (c :: stem), e.
  - destruct H as [->|H]; [|contradiction]. now exists [], s.
Qed.

(** The last piece of a split is the text after the last separator. *)
Lemma split_char_last (sep : ascii) (stem e : pystr) :
  ~ In sep e -> last (split_char sep (stem ++ sep :: e)) [] = e.
Proof.
  intros He. now rewrite split_char_app, (split_char_whole sep e He), last_last.
Qed.

Lemma lower_lower (c : ascii) : Chars.lower (Chars.lower c) = Chars.lower c.
Proof. by_cases c. Qed.

Lemma lower_dot (c : ascii) : Chars.lower c = "."%char -> c = "."%char.
Proof. by_cases c. Qed.

Lemma str_lower_idempotent (s : pystr) : str_lower (str_lower s) = str_lower s.
Proof.
  unfold str_lower. rewrite map_map. apply map_ext. intros c. apply lower_lower.
Qed.

Lemma str_lower_no_dot (s : pystr) : ~ In "."%char s -> ~ In "."%char (str_lower s).
Proof.
  unfold str_lower. intros H Hin. apply in_map_iff in Hin.
  destruct Hin as [c [Hc Hin]]. apply lower_dot in Hc. subst c. contradiction.
Qed.

Lemma extension_cases (file_bytes : bytes) (filename : pystr) :
  let ext := fi_extension (get_file_info file_bytes filename) in
  (~ In "."%char filename -> ext = ("unknown" : pystr))
  /\ (In "."%char filename ->
      exists stem e,
        filename = stem ++ "."%char :: e /\ ~ In "."%char e /\ ext = str_lower e).
Proof.
  cbn zeta. unfold get_file_info. cbn [fi_extension].
  destruct (existsb (Ascii.eqb ".") filename) eqn:E.
  - apply has_dot in E.
    destruct (last_occurrence "." filename E) as [stem [e [Hs He]]].
    assert (Hlast : last (split_char "." filename) [] = e)
      by (rewrite Hs; now apply split_char_last).
    rewrite Hlast.
    split; [intros H; contradiction|].
    intros _. now exists stem, e.
  - assert (Hn : ~ In "."%char filename).
    { intros H. apply has_dot in H. congruence. }
    split; [reflexivity|]. intros H; contradiction.
Qed.

(** X6: the extension that [get_file_info] reports is the text after the
    last dot of the file name, lower-cased, and [unknown] for a name without
    a dot; it never contains a dot and it is in lower case. *)
Theorem file_extension (file_bytes : bytes) (filename : pystr) :
  let ext := fi_extension (get_file_info file_bytes filename) in
  (~ In "."%char filename -> ext = ("unknown" : pystr))
  /\ (In "."%char filename ->
      exists stem e,
        filename = stem ++ "."%char :: e /\ ~ In "."%char e /\ ext = str_lower e)
  /\ ~ In "."%char ext
  /\ str_lower ext = ext.
Proof.
  intros ext.
  destruct (extension_cases file_bytes filename) as [Hno Hdot]. fold ext in Hno, Hdot.
  split; [exact Hno|]. split; [exact Hdot|].
  destruct (in_dec ascii_dec "."%char filename) as [Hin|Hout].
  - destruct (Hdot Hin) as [stem [e [_ [He ->]]]].
    split; [now apply str_lower_no_dot|apply str_lower_idempotent].
  - rewrite (Hno Hout). split; [|reflexivity].
    intros H. simpl in H. repeat (destruct H as [H|H]; [discriminate H|]). exact H.
Qed.

(** *** The parser that the extension selects *)

Lemma pystr_eqb_refl (a : pystr) : pystr_eqb a a = true.
Proof. now apply pystr_eqb_eq. Qed.

Lemma endswith_iff (s c : pystr) : endswith s c = true <-> exists p, s = p ++ c.
Proof.
  unfold endswith. split.
  - intros H. apply andb_true_iff in H. destruct H as [H _].
    apply pystr_eqb_eq in H. exists (firstn (length s - length c) s).
    pose proof (firstn_skipn (length s - length c) s) as E.
    rewrite H in E. now symmetry.
  - intros [p ->]. rewrite length_app.
    replace (length p + length c - length c) with (length p) by lia.
    rewrite skipn_app, skipn_all, Nat.sub_diag. cbn [skipn app].
    rewrite pystr_eqb_refl. apply Nat.leb_le. lia.
Qed.

Lemma endswith_other (p ext c : pystr) (x y : ascii) (ext' c' : pystr) :
  ext = ext' ++ [x] -> c = c' ++ [y] -> x <> y -> endswith (p ++ ext) c = false.
Proof.
  intros -> -> Hxy. apply not_true_is_false. intros H.
  apply endswith_iff in H. destruct H as [q H].
  rewrite !app_assoc in H. apply app_inj_tail in H. destruct H as [_ H]. congruence.
Qed.

Lemma endswith_same_length (p ext c : pystr) :
  length ext = length c -> ext <> c -> endswith (p ++ ext) c = false.
Proof.
  intros Hlen Hne. apply not_true_is_false. intros H.
  apply endswith_iff in H. destruct H as [q H]. apply Hne.
  assert (Hpq : length p = length q).
  { apply (f_equal (@length ascii)) in H. rewrite !length_app in H. lia. }
  apply (f_equal (skipn (length p))) in H.
  rewrite skipn_app, skipn_all, Nat.sub_diag in H. rewrite Hpq in H.
  rewrite skipn_app, skipn_all, Nat.sub_diag in H. exact H.
Qed.

Lemma lowered_name (filename stem e : pystr) :
  filename = stem ++ "."%char :: e ->
  str_lower filename = str_lower stem ++ "."%char :: str_lower e.
Proof. intros ->. unfold str_lower. now rewrite map_app. Qed.

(** X7: the parser follows the extension.  When the extension that
    [get_file_info] reports is [pdf], [docx], [xlsx] or [txt] (the ones the
    upload boundary lets through), [auto_detect_and_parse] hands the bytes to
    the parser of that format; it does not raise its own error for an
    unsupported type. *)
Theorem parser_follows_extension
        (ps : stream_parsers) (file_bytes : bytes) (filename : pystr)
        (pdf_parser excel_parser : string) (combine_sheets : bool) :
  let ext := fi_extension (get_file_info file_bytes filename) in
  let parsed :=
    auto_detect_and_parse ps file_bytes filename pdf_parser excel_parser combine_sheets in
  (ext = ("pdf" : pystr) -> parsed = parse_pdf_stream ps file_bytes pdf_parser)
  /\ (ext = ("docx" : pystr) -> parsed = parse_docx_stream ps file_bytes)
  /\ (ext = ("xlsx" : pystr) ->
      parsed = parse_excel_stream ps file_bytes excel_parser combine_sheets)
  /\ (ext = ("txt" : pystr) -> parsed = parse_txt_stream ps file_bytes).
Proof.
  intros ext parsed.
  destruct (extension_cases file_bytes filename) as [Hno Hdot]. fold ext in Hno, Hdot.
  assert (Hname : ext <> ("unknown" : pystr) ->
                  exists stem, str_lower filename = stem ++ "."%char :: ext).
  { intros Hu. destruct (in_dec ascii_dec "."%char filename) as [Hin|Hout].
    - destruct (Hdot Hin) as [stem [e [Hs [_ He]]]].
      exists (str_lower stem). rewrite He. now apply lowered_name.
    - now apply Hno in Hout. }
  subst parsed. unfold auto_detect_and_parse.
  repeat split; intros He; rewrite He in Hname;
    destruct (Hname ltac:(discriminate)) as [stem ->].
  - now rewrite (proj2 (endswith_iff _ (".pdf" : pystr))) by (now exists stem).
  - change (stem ++ "."%char :: ("docx" : pystr)) with (stem ++ (".docx" : pystr)).
    rewrite (endswith_other stem (".docx" : pystr) (".pdf" : pystr) "x" "f"
               (".doc" : pystr) (".pd" : pystr)) by (reflexivity || discriminate).
    now rewrite (proj2 (endswith_iff _ (".docx" : pystr))) by (now exists stem).
  - change (stem ++ "."%char :: ("xlsx" : pystr)) with (stem ++ (".xlsx" : pystr)).
    rewrite (endswith_other stem (".xlsx" : pystr) (".pdf" : pystr) "x" "f"
               (".xls" : pystr) (".pd" : pystr)) by (reflexivity || discriminate).
    rewrite (endswith_same_length stem (".xlsx" : pystr) (".docx" : pystr))
      by (reflexivity || discriminate).
    now rewrite (proj2 (endswith_iff _ (".xlsx" : pystr))) by (now exists stem).
  - change (stem ++ "."%char :: ("txt" : pystr)) with (stem ++ (".txt" : pystr)).
    rewrite (endswith_other stem (".txt" : pystr) (".pdf" : pystr) "t" "f"
               (".tx" : pystr) (".pd" : pystr)) by (reflexivity || discriminate).
    rewrite (endswith_other stem (".txt" : pystr) (".docx" : pystr) "t" "x"
               (".tx" : pystr) (".doc" : pystr)) by (reflexivity || discriminate).
    rewrite (endswith_other stem (".txt" : pystr) (".xlsx" : pystr) "t" "x"
               (".tx" : pystr) (".xls" : pystr)) by (reflexivity || discriminate).
    rewrite (endswith_other stem (".txt" : pystr) (".xls" : pystr) "t" "s"
               (".tx" : pystr) (".xl" : pystr)) by (reflexivity || discriminate).
    now rewrite (proj2 (endswith_iff _ (".txt" : pystr))) by (now exists stem).
Qed.

Lemma parser_follows_extension_witness :
  fi_extension (get_file_info Samples.file_bytes ("Price List.v2.XLSX" : pystr))
  = ("xlsx" : pystr)
  /\ auto_detect_and_parse Samples.parsers Samples.file_bytes
       ("Price List.v2.XLSX" : pystr) "pypdf2" "pandas" true
     = parse_excel_stream Samples.parsers Samples.file_bytes "pandas" true.
Proof.
  split; [reflexivity|].
  apply (proj1 (proj2 (proj2 (parser_follows_extension Samples.parsers Samples.file_bytes
                                ("Price List.v2.XLSX" : pystr) "pypdf2" "pandas" true)))).
  reflexivity.
Defined.

(** *** The size limit *)

Lemma validate_file_size_iff (file_bytes : bytes) (max_size_mb : Z) :
  validate_file_size file_bytes max_size_mb = true
  <-> (len file_bytes <= max_size_mb * 1048576)%Z.
Proof.
  unfold validate_file_size. rewrite Qle_bool_iff.
  unfold Qle, Qdiv, Qmult, Qinv, inject_Z. cbn. lia.
Qed.

(** X8: the size limit counts bytes, in units of 1024 * 1024, and is
    inclusive: [validate_file_size] accepts a file exactly when it has at
    most [max_size_mb * 1048576] bytes.  [upload_document] answers a larger
    file with status 413, whatever its name, before anything else is looked
    at, and leaves the server state as it was. *)
Theorem upload_size_limit
        {DB : Type} {store : VectorDatabase DB}
        (RAG : rag_config) (DOCUMENT : document_config)
        (parsers : stream_parsers) (clean_text : pystr -> pystr)
        (embed : list pystr -> result ndarray) (now elapsed_ms : Q)
        (st : server) (filename : pystr) (file_bytes : bytes) :
  (validate_file_size file_bytes (max_file_size_mb DOCUMENT) = true
   <-> (len file_bytes <= max_file_size_mb DOCUMENT * 1048576)%Z)
  /\ ((max_file_size_mb DOCUMENT * 1048576 < len file_bytes)%Z ->
      upload_document RAG DOCUMENT parsers clean_text embed now elapsed_ms
                      st filename file_bytes
      = (Raise (HTTPException 413
                  ("File too large. Max size: "
                   ++ str_of_Z (max_file_size_mb DOCUMENT) ++ " MB")%string),
         st)).
Proof.
  split; [apply validate_file_size_iff|]. intros H.
  unfold upload_document, upload_body.
  replace (validate_file_size file_bytes (max_file_size_mb DOCUMENT)) with false;
    [reflexivity|].
  symmetry. apply not_true_is_false. intros E. apply validate_file_size_iff in E. lia.
Qed.

Lemma upload_size_limit_witness :
  upload_document RAG_CONFIG
    {| supported_formats := supported_formats DOCUMENT_CONFIG;
       max_file_size_mb := 0;
       pdf_parser := None;
       excel_combine_sheets := None |}
    Samples.parsers (fun t => t) Samples.embed 0 0 Samples.empty_server
    ("a.pdf" : pystr) Samples.file_bytes
  = (Raise (HTTPException 413 "File too large. Max size: 0 MB"), Samples.empty_server).
Proof.
  apply (proj2 (upload_size_limit RAG_CONFIG
                  {| supported_formats := supported_formats DOCUMENT_CONFIG;
                     max_file_size_mb := 0;
                     pdf_parser := None;
                     excel_combine_sheets := None |}
                  Samples.parsers (fun t => t) Samples.embed 0 0 Samples.empty_server
                  ("a.pdf" : pystr) Samples.file_bytes)).
  vm_compute. reflexivity.
Defined.

End FileFacts.

(* ================================================================= *)
(** ** More about the in-memory store *)

Module StoreMore.

Import VectorDatabases StoreTrace StoreOps StoreFacts.

Local Open Scope nat_scope.

(** *** What [run] keeps *)

Lemma run_frame (ops : list op) (self : FAISSDatabase) :
  dimensions (snd (run self ops)) = dimensions self
  /\ index_type (snd (run self ops)) = index_type self
  /\ metric_type (index (snd (run self ops))) = metric_type (index self)
  /\ d (index (snd (run self ops))) = d (index self).
Proof.
  revert self. induction ops as [|[e t m|] ops IH]; intros self; cbn [run].
  - repeat split.
  - destruct (add_spec self e t m) as [_ [Hd [Ht Hr]]].
    destruct (add self e t m) as [r self1]. cbn [fst snd] in *.
    specialize (IH self1). destruct (run self1 ops) as [trace self2].
    cbn [snd] in *. destruct IH as [I1 [I2 [I3 I4]]].
    rewrite I1, I2, I3, I4, Hd, Ht.
    destruct r as [ids|ex]; [|now rewrite Hr].
    destruct Hr as [_ [_ [Hm [Hdd _]]]]. now rewrite Hm, Hdd.
  - destruct (IH (reset self)) as [I1 [I2 [I3 I4]]].
    rewrite I1, I2, I3, I4. repeat split.
Qed.

(** X9: [reset] puts a store back into the state its constructor made,
    whatever was added to it before, and a store in that state answers every
    search, also one with a query of the wrong width or a [top_k] below one,
    with the empty list. *)
Theorem reset_restores_initial (dims : Z) (ty : string) (ops : list op) :
  reset (snd (run (init dims ty) ops)) = init dims ty
  /\ forall (q : vector) (k : Z),
      search (reset (snd (run (init dims ty) ops))) q k = Ok [].
Proof.
  assert (H : reset (snd (run (init dims ty) ops)) = init dims ty).
  { destruct (run_frame ops (init dims ty)) as [H1 [H2 [H3 H4]]].
    unfold reset, index_reset. rewrite H1, H2, H3, H4. unfold init.
    cbn [dimensions index_type index].
    destruct (String.eqb ty "IndexFlatL2"); [reflexivity|].
    destruct (String.eqb ty "IndexFlatIP"); reflexivity. }
  split; [exact H|]. intros q k. rewrite H. unfold search, init. cbn [index].
  destruct (String.eqb ty "IndexFlatL2"); [reflexivity|].
  destruct (String.eqb ty "IndexFlatIP"); reflexivity.
Qed.

(** *** What a search returns *)

Lemma format_hits_In (cs : list chunk) (found : list (Q * nat)) (h : hit) :
  In h (format_hits cs found) ->
  exists dist i c,
    In (dist, i) found /\ nth_error cs i = Some c
    /\ h = (id c, text c, metadata c, (1 / (1 + dist))%Q).
Proof.
  unfold format_hits. intros H. apply in_flat_map in H.
  destruct H as [[dist i] [Hin H]].
  destruct (nth_error cs i) as [c|] eqn:E; [|contradiction].
  destruct H as [<-|[]]. now exists dist, i, c.
Qed.

Lemma format_hits_length_le (cs : list chunk) (found : list (Q * nat)) :
  length (format_hits cs found) <= length found.
Proof.
  unfold format_hits. induction found as [|[q i] found IH]; simpl; [lia|].
  destruct (nth_error cs i); simpl; lia.
Qed.

Lemma format_hits_length (cs : list chunk) (found : list (Q * nat)) :
  Forall (fun h => snd h < length cs) found ->
  length (format_hits cs found) = length found.
Proof.
  unfold format_hits. induction 1 as [|[q i] found Hi _ IH]; simpl; [reflexivity|].
  simpl in Hi. destruct (nth_error cs i) eqn:E.
  - simpl. now rewrite IH.
  - apply nth_error_None in E. lia.
Qed.

Lemma insert_hit_length (m : metric) (h : Q * nat) (l : list (Q * nat)) :
  length (insert_hit m h l) = S (length l).
Proof.
  induction l as [|h' l IH]; simpl; [reflexivity|].
  destruct (before m (fst h) (fst h')); simpl; [reflexivity|now rewrite IH].
Qed.

Lemma rank_length (m : metric) (l : list (Q * nat)) : length (rank m l) = length l.
Proof.
  induction l as [|h l IH]; simpl; [reflexivity|]. now rewrite insert_hit_length, IH.
Qed.

Lemma index_search_length (ix : faiss_index) (x : vector) (k : Z)
      (found : list (Q * nat)) :
  index_search ix x k = Ok found ->
  (0 < k)%Z /\ len x = d ix
  /\ length found = Nat.min (Z.to_nat k) (length (xb ix)).
Proof.
  unfold index_search.
  destruct (len x =? d ix)%Z eqn:Ed; [|discriminate].
  destruct (0 <? k)%Z eqn:Ek; [|discriminate]. cbn [negb].
  intros H. injection H as <-. apply Z.eqb_eq in Ed. apply Z.ltb_lt in Ek.
  repeat split; try assumption.
  rewrite length_firstn, rank_length, length_combine, length_map, length_seq.
  lia.
Qed.

(** X10: a search that returns, returns at most [top_k] hits, each of them
    the entry of a chunk of the store; when the chunk list has an entry for
    every vector of the index it returns exactly [min(top_k, total_vectors)]
    hits. *)
Theorem search_returns_chunks
        (self : FAISSDatabase) (q : vector) (k : Z) (hits : list hit) :
  search self q k = Ok hits ->
  length hits <= Z.to_nat k
  /\ Forall (fun h => exists c, In c (chunks self) /\ hit_of c h) hits
  /\ (in_sync self -> length hits = Z.to_nat (Z.min k (ntotal (index self)))).
Proof.
  unfold search, in_sync, ntotal, len.
  destruct (Z.of_nat (length (xb (index self))) =? 0)%Z eqn:E0.
  - intros H. injection H as <-. apply Z.eqb_eq in E0.
    repeat split; [simpl; lia|constructor|]. intros _. simpl. lia.
  - apply Z.eqb_neq in E0.
    destruct (index_search (index self) q _) as [found|ex] eqn:E; [|discriminate].
    cbn [bind]. intros H. injection H as <-.
    pose proof (index_search_bound _ _ _ _ E) as Hb.
    apply index_search_length in E. destruct E as [Hk [_ Hlen]].
    pose proof (format_hits_length_le (chunks self) found) as Hle.
    split; [lia|]. split.
    + apply Forall_forall. intros h Hh. apply format_hits_In in Hh.
      destruct Hh as [dist [i [c [_ [Hc ->]]]]]. exists c.
      split; [eapply nth_error_In; exact Hc|reflexivity].
    + intros Hsync. rewrite format_hits_length; [lia|].
      eapply Forall_impl; [|exact Hb]. intros h Hh. cbn beta in *. lia.
Qed.

Lemma search_returns_chunks_witness :
  search l2_store [1]%Q 5
  = Ok [ ("vec_0"%string, ("one" : pystr), [], 1%Q);
         ("vec_1"%string, ("three" : pystr), [], (1 # 5)%Q) ]
  /\ length [ ("vec_0"%string, ("one" : pystr), ([] : pydict), 1%Q);
              ("vec_1"%string, ("three" : pystr), ([] : pydict), (1 # 5)%Q) ]
     = Z.to_nat (Z.min 5 (ntotal (index l2_store))).
Proof.
  split; [vm_compute; reflexivity|].
  apply (search_returns_chunks l2_store [1]%Q 5); [vm_compute; reflexivity|].
  unfold in_sync. vm_compute. discriminate.
Defined.

(** *** Scores of an L2 store *)

Lemma similarity_range (dist : Q) :
  (0 <= dist)%Q -> (0 < 1 / (1 + dist))%Q /\ (1 / (1 + dist) <= 1)%Q.
Proof.
  intros H.
  assert (Hp : (0 < 1 + dist)%Q).
  { apply Qlt_le_trans with (1 + 0)%Q; [reflexivity|].
    apply Qplus_le_compat; [apply Qle_refl|exact H]. }
  split.
  - unfold Qdiv. rewrite Qmult_1_l. now apply Qinv_lt_0_compat.
  - apply Qle_trans with (1 / (1 + 0))%Q; [|apply Qle_refl || (vm_compute; discriminate)].
    apply similarity_antitone; [apply Qle_refl|exact H].
Qed.

(** X11: a store made with any index type but [IndexFlatIP] returns its hits
    best first: the similarities never increase along the result, and each is
    greater than 0 and at most 1. *)
Theorem l2_hits_best_first
        (dims : Z) (ty : string) (ops : list op) (q : vector) (k : Z) (hits : list hit) :
  ty <> "IndexFlatIP"%string ->
  search (snd (run (init dims ty) ops)) q k = Ok hits ->
  StronglySorted by_similarity hits
  /\ Forall (fun h => (0 < similarity h)%Q /\ (similarity h <= 1)%Q) hits.
Proof.
  intros Hty H.
  assert (Hm : metric_type (index (snd (run (init dims ty) ops))) = METRIC_L2)
    by (rewrite run_metric; now apply init_metric).
  split; [exact (l2_search_ordered _ _ _ _ Hm H)|].
  revert H. unfold search.
  destruct (_ =? 0)%Z; [intros H; injection H as <-; constructor|].
  destruct (index_search _ q _) as [found|ex] eqn:E; [|discriminate].
  cbn [bind]. intros H. injection H as <-.
  apply Forall_forall. intros h Hh. apply format_hits_In in Hh.
  destruct Hh as [dist [i [c [Hin [_ ->]]]]]. unfold similarity. cbn [snd].
  apply similarity_range.
  unfold index_search in E. destruct (negb _); [discriminate|].
  destruct (negb _); [discriminate|]. injection E as <-.
  apply In_firstn, rank_In, in_combine_l, in_map_iff in Hin.
  destruct Hin as [v [<- _]]. rewrite Hm. apply l2_sqr_nonneg.
Qed.

Lemma l2_hits_best_first_witness :
  StronglySorted by_similarity
    [ ("vec_0"%string, ("one" : pystr), ([] : pydict), 1%Q);
      ("vec_1"%string, ("three" : pystr), ([] : pydict), (1 # 5)%Q) ].
Proof.
  apply (proj1 (l2_hits_best_first 1 "IndexIVFFlat"
                  [OpAdd [[1]; [3]]%Q [("one" : pystr); ("three" : pystr)] [[]; []]]
                  [1]%Q 2 _ ltac:(discriminate) eq_refl)).
Defined.

(** *** Adding and finding again *)






(** *** The index type *)

Lemma add_congruent (s1 s2 : FAISSDatabase) (e : ndarray) (t : list pystr)
      (m : list pydict) :
  chunks s1 = chunks s2 -> index s1 = index s2 ->
  fst (add s1 e t m) = fst (add s2 e t m)
  /\ chunks (snd (add s1 e t m)) = chunks (snd (add s2 e t m))
  /\ index (snd (add s1 e t m)) = index (snd (add s2 e t m)).
Proof.
  intros Hc Hi. unfold add. rewrite Hc.
  destruct (append_chunks _ 0 (combine t m) (chunks s2)) as [[[]|ex] cs];
    cbn [set_chunks index chunks fst snd].
  - rewrite Hi. destruct (index_add (index s2) e); cbn; repeat split; exact Hi.
  - repeat split. exact Hi.
Qed.

Lemma run_congruent (ops : list op) (s1 s2 : FAISSDatabase) :
  chunks s1 = chunks s2 -> index s1 = index s2 ->
  fst (run s1 ops) = fst (run s2 ops)
  /\ chunks (snd (run s1 ops)) = chunks (snd (run s2 ops))
  /\ index (snd (run s1 ops)) = index (snd (run s2 ops)).
Proof.
  revert s1 s2. induction ops as [|[e t m|] ops IH]; intros s1 s2 Hc Hi; cbn [run].
  - repeat split; assumption.
  - destruct (add_congruent s1 s2 e t m Hc Hi) as [H1 [H2 H3]].
    destruct (add s1 e t m) as [r1 s1']. destruct (add s2 e t m) as [r2 s2'].
    cbn [fst snd] in *. specialize (IH s1' s2' H2 H3).
    destruct (run s1' ops) as [tr1 s1'']. destruct (run s2' ops) as [tr2 s2''].
    cbn [fst snd] in *. destruct IH as [I1 [I2 I3]]. repeat split; congruence.
  - apply IH; cbn [reset chunks index]; [reflexivity|now rewrite Hi].
Qed.

(** X13: the index type is only a label unless it is [IndexFlatIP].  A store
    made with any other index type (also [IndexIVFFlat], which the
    constructor's documentation offers) returns from every add and every
    search what a store made with [IndexFlatL2] returns after the same
    operations, while [get_stats] goes on reporting the type it was given. *)
Theorem index_type_is_a_label (dims : Z) (ty : string) (ops : list op) :
  ty <> "IndexFlatIP"%string ->
  fst (run (init dims ty) ops) = fst (run (init dims "IndexFlatL2") ops)
  /\ (forall q k,
        search (snd (run (init dims ty) ops)) q k
        = search (snd (run (init dims "IndexFlatL2") ops)) q k)
  /\ dict_find (get_stats (snd (run (init dims ty) ops))) "index_type"
     = Some (VStr (list_ascii_of_string ty)).
Proof.
  intros Hty.
  assert (Hi : index (init dims ty) = index (init dims "IndexFlatL2")).
  { unfold init. cbn [index]. destruct (String.eqb ty "IndexFlatL2"); [reflexivity|].
    destruct (String.eqb_spec ty "IndexFlatIP"); [contradiction|reflexivity]. }
  destruct (run_congruent ops (init dims ty) (init dims "IndexFlatL2") eq_refl Hi)
    as [H1 [H2 H3]].
  split; [exact H1|]. split.
  - intros q k. unfold search. now rewrite H2, H3.
  - destruct (run_frame ops (init dims ty)) as [_ [Ht _]].
    unfold get_stats. cbn. now rewrite Ht.
Qed.

Lemma index_type_is_a_label_witness :
  fst (run (init 1 "IndexIVFFlat")
           [OpAdd [[1]; [3]]%Q [("one" : pystr); ("three" : pystr)] [[]; []]])
  = [Ok ["vec_0"; "vec_1"]%string]
  /\ dict_find (get_stats (snd (run (init 1 "IndexIVFFlat")
           [OpAdd [[1]; [3]]%Q [("one" : pystr); ("three" : pystr)] [[]; []]])))
       "index_type"
     = Some (VStr ("IndexIVFFlat" : pystr)).
Proof.
  split.
  - rewrite (proj1 (index_type_is_a_label 1 "IndexIVFFlat"
               [OpAdd [[1]; [3]]%Q [("one" : pystr); ("three" : pystr)] [[]; []]]
               ltac:(discriminate))).
    vm_compute. reflexivity.
  - apply (proj2 (proj2 (index_type_is_a_label 1 "IndexIVFFlat"
               [OpAdd [[1]; [3]]%Q [("one" : pystr); ("three" : pystr)] [[]; []]]
               ltac:(discriminate)))).
Defined.

(** *** Vectors and chunk entries *)

Lemma add_sync (self : FAISSDatabase) (e : ndarray) (t : list pystr) (m : list pydict) :
  length t = length e -> length m = length e ->
  length (chunks (snd (add self e t m))) = length (chunks self) + length e
  /\ match fst (add self e t m) with
     | Ok _ => length (xb (index (snd (add self e t m))))
               = length (xb (index self)) + length e
     | Raise _ => length (xb (index (snd (add self e t m)))) = length (xb (index self))
     end.
Proof.
  intros Ht Hm. destruct (add_spec self e t m) as [Hc [_ [_ Hr]]]. cbn zeta in Hc, Hr.
  split.
  - rewrite Hc, length_app, length_zip_chunks. unfold make_ids.
    rewrite length_map, length_seq, length_combine. lia.
  - destruct (fst (add self e t m)).
    + destruct Hr as [_ [Hx _]]. now rewrite Hx, length_app.
    + now rewrite Hr.
Qed.

Lemma run_sync (ops : list op) (self : FAISSDatabase) :
  Forall well_formed ops ->
  (in_sync self -> in_sync (snd (run self ops)))
  /\ (ntotal (index self) = len (chunks self) ->
      Forall (fun r => exists ids, r = Ok ids) (fst (run self ops)) ->
      ntotal (index (snd (run self ops))) = len (chunks (snd (run self ops)))).
Proof.
  unfold in_sync, ntotal, len.
  intros Hwf. revert self. induction Hwf as [|[e t m|] ops Ho _ IH]; intros self;
    cbn [run].
  - tauto.
  - destruct Ho as [Ht Hm]. destruct (add_sync self e t m Ht Hm) as [Hc Hx].
    destruct (add self e t m) as [r self1]. cbn [fst snd] in *.
    specialize (IH self1). destruct (run self1 ops) as [trace self2].
    cbn [fst snd] in *. destruct IH as [I1 I2]. split.
    + intros Hs. apply I1. destruct r; lia.
    + intros Hs Hall. apply Forall_cons_iff in Hall. destruct Hall as [[ids ->] Hall].
      apply I2; [lia|exact Hall].
  - destruct (IH (reset self)) as [I1 I2]. cbn [reset index chunks index_reset xb] in *.
    split; intros; [apply I1|apply I2]; simpl; try lia; assumption.
Qed.

(** X14: in a store made by the constructor and used through adds that give
    one text and one metadata per vector, and resets, the index never holds
    more vectors than the chunk list has entries ([total_vectors] is at most
    [total_chunks]); the two are equal when every add returned. *)
Theorem vectors_at_most_chunks (dims : Z) (ty : string) (ops : list op) :
  Forall well_formed ops ->
  let self := snd (run (init dims ty) ops) in
  (ntotal (index self) <= len (chunks self))%Z
  /\ (Forall (fun r => exists ids, r = Ok ids) (fst (run (init dims ty) ops)) ->
      ntotal (index self) = len (chunks self)).
Proof.
  intros Hwf self. subst self.
  destruct (run_sync ops (init dims ty) Hwf) as [H1 H2].
  assert (H0 : ntotal (index (init dims ty)) = len (chunks (init dims ty))).
  { unfold init. cbn [index chunks].
    destruct (String.eqb ty "IndexFlatL2"); [reflexivity|].
    destruct (String.eqb ty "IndexFlatIP"); reflexivity. }
  split; [apply H1; unfold in_sync; rewrite H0; lia|]. intros Hall. now apply H2.
Qed.

Lemma vectors_at_most_chunks_witness :
  let ops := [ OpAdd [[1; 2]]%Q [("kept" : pystr)] [[]];
               OpAdd [[1; 2; 3]]%Q [("orphan" : pystr)] [[]] ] in
  let self := snd (run (init 2 "IndexFlatL2") ops) in
  fst (run (init 2 "IndexFlatL2") ops) = [Ok ["vec_0"%string]; Raise AssertionError]
  /\ ntotal (index self) = 1%Z /\ len (chunks self) = 2%Z
  /\ (ntotal (index self) <= len (chunks self))%Z.
Proof.
  cbn zeta. split; [vm_compute; reflexivity|]. split; [reflexivity|].
  split; [reflexivity|].
  apply (vectors_at_most_chunks 2 "IndexFlatL2"
           [ OpAdd [[1; 2]]%Q [("kept" : pystr)] [[]];
             OpAdd [[1; 2; 3]]%Q [("orphan" : pystr)] [[]] ]).
  repeat constructor.
Defined.

End StoreMore.

(* ================================================================= *)
(** ** More about the endpoints *)

Module EndpointFacts.

Import DocumentParsers VectorDatabases Config App StoreTrace StoreOps StoreFacts AppFacts
       StoreMore.

Local Open Scope nat_scope.




(** *** A successful upload *)






(** *** Queries *)

(** X17: after [reset_database], with the in-memory store, every query is
    refused with status 400: a blank question as empty, any other question
    for want of documents.  Nothing is embedded, searched or generated. *)
Theorem query_after_reset
        (RAG : rag_config) (embed : list pystr -> result ndarray)
        (generate_answer : pystr -> list hit -> result pystr) (elapsed_ms : Q)
        (st : server (DB := FAISSDatabase)) (request : QueryRequest) :
  query_knowledge_base RAG embed generate_answer elapsed_ms (reset_database st) request
  = Raise (HTTPException 400
             (if truthy (strip (question request))
              then "No documents in knowledge base. Please upload documents first."
              else "Question cannot be empty")).
Proof.
  unfold query_knowledge_base, query_body.
  destruct (truthy (strip (question request))); reflexivity.
Qed.

Lemma format_source_length (r : hit) : (len (src_text (format_source r)) <= 203)%Z.
Proof.
  destruct r as [[[i t] m] score]. unfold format_source. cbn [src_text].
  destruct (len t >? 200)%Z eqn:E.
  - unfold len in *. rewrite length_app, length_firstn.
    change (length ("..." : pystr)) with 3. lia.
  - rewrite Z.gtb_ltb in E. apply Z.ltb_ge in E. lia.
Qed.

(** X18: the sources of an answer.  When [query_knowledge_base] returns with
    the in-memory store, the response has at most [top_k] sources and the
    text of each has at most 203 characters: the text of the hit when that
    has at most 200 characters, and its first 200 characters followed by
    three dots otherwise. *)
Theorem sources_are_bounded
        (RAG : rag_config) (embed : list pystr -> result ndarray)
        (generate_answer : pystr -> list hit -> result pystr) (elapsed_ms : Q)
        (st : server (DB := FAISSDatabase)) (request : QueryRequest)
        (resp : QueryResponse) :
  query_knowledge_base RAG embed generate_answer elapsed_ms st request = Ok resp ->
  length (sources resp) <= Z.to_nat (req_top_k request)
  /\ Forall (fun s => (len (src_text s) <= 203)%Z) (sources resp)
  /\ exists kept : list hit,
      sources resp = map format_source kept
      /\ Forall (fun h => exists c, In c (chunks (vector_db st)) /\ hit_of c h) kept
      /\ forall h, In h kept ->
           src_text (format_source h)
           = (if (len (snd (fst (fst h))) >? 200)%Z
              then firstn 200 (snd (fst (fst h))) ++ ("..." : pystr)
              else snd (fst (fst h))).
Proof.
  intros H. apply reraise_Ok in H. unfold query_body in H.
  destruct (negb (truthy (strip (question request)))); [discriminate|].
  destruct (is_zero _); [discriminate|].
  destruct (embed _) as [qe|e]; [|discriminate].
  cbn [bind] in H. unfold retrieve in H.
  cbn [vdb_search FAISS_VectorDatabase] in H.
  destruct (search (vector_db st) (hd [] qe) (req_top_k request)) as [cands|e] eqn:Es;
    [|discriminate].
  cbn [bind] in H.
  set (kept := filter _ cands) in H.
  assert (Hsrc : sources resp = map format_source kept).
  { destruct (negb (truthy kept)) eqn:Hk.
    - injection H as <-. destruct kept; [reflexivity|discriminate].
    - destruct (generate_answer _ _); [|discriminate].
      cbn [bind] in H. injection H as <-. reflexivity. }
  assert (Hlen : length cands <= Z.to_nat (req_top_k request)
                 /\ Forall (fun h => exists c, In c (chunks (vector_db st)) /\ hit_of c h)
                           cands).
  { revert Es. unfold search.
    destruct (_ =? 0)%Z; [intros E; injection E as <-; split; [simpl; lia|constructor]|].
    destruct (index_search _ _ _) as [found|ex] eqn:E; [|discriminate].
    cbn [bind]. intros E'. injection E' as <-.
    apply index_search_length in E. destruct E as [_ [_ Hlen]].
    split.
    - etransitivity; [apply format_hits_length_le|]. lia.
    - apply Forall_forall. intros h Hh. apply format_hits_In in Hh.
      destruct Hh as [dist [i [c [_ [Hc ->]]]]]. exists c.
      split; [eapply nth_error_In; exact Hc|reflexivity]. }
  destruct Hlen as [Hlen Hch].
  split; [|split].
  - rewrite Hsrc, length_map. etransitivity; [apply filter_length_le|exact Hlen].
  - rewrite Hsrc. apply Forall_map, Forall_forall. intros h _.
    apply format_source_length.
  - exists kept. split; [exact Hsrc|]. split.
    + apply Forall_forall. intros h Hh. apply filter_In in Hh.
      rewrite Forall_forall in Hch. apply Hch, Hh.
    + intros [[[i t] m] score] _. reflexivity.
Qed.

Lemma sources_are_bounded_witness :
  length (sources Samples.response) <= Z.to_nat (req_top_k Samples.request)
  /\ Forall (fun s => (len (src_text s) <= 203)%Z) (sources Samples.response).
Proof.
  destruct (sources_are_bounded RAG_CONFIG Samples.embed Samples.generate_answer 0
              Samples.loaded_server Samples.request Samples.response eq_refl)
    as [H1 [H2 _]].
  split; assumption.
Defined.

End EndpointFacts.

(* ================================================================= *)
(** ** More about the query normalizer *)

Module QueryMore.

Import Re QueryUtils Rules RuleKeeps RuleFacts QueryFacts NormalFormFacts.

Local Open Scope nat_scope.

Local Arguments Chars.one_of : simpl never.
Local Arguments Chars.is_space : simpl never.
Local Arguments Chars.is_digit : simpl never.
Local Arguments Chars.is_word : simpl never.
Local Arguments Chars.eqc : simpl never.
Local Arguments Chars.eqc_nocase : simpl never.

(** *** The digits of a query *)

Lemma scan_keeps (f : ascii -> bool) (m : matcher) (s : pystr) :
  shrinking m -> keeps f m -> filter f (scan m s) = filter f s.
Proof.
  intros Hs Hk. remember (length s) as n eqn:Hn. revert s Hn.
  induction n as [n IH] using lt_wf_ind. intros s ->.
  rewrite scan_eq by exact Hs.
  destruct (m s) as [[repl rest]|] eqn:E.
  - destruct (Hk _ _ _ E) as [w [Hw Hf]].
    rewrite filter_app, (IH (length rest)); [|now apply Hs in E|reflexivity].
    rewrite Hw. now rewrite filter_app, Hf.
  - destruct s as [|c s]; [reflexivity|]. cbn [filter].
    rewrite (IH (length s)); [reflexivity|simpl; lia|reflexivity].
Qed.

Lemma spaces_no_digit (ws : pystr) :
  forallb Chars.is_space ws = true -> filter Chars.is_digit ws = [].
Proof.
  induction ws as [|c ws IH]; [reflexivity|]. cbn [forallb filter]. intros H.
  apply andb_true_iff in H. destruct H as [Hc H].
  now rewrite (space_not_digit c Hc), IH.
Qed.

Lemma take_spaces_no_digit (s : pystr) : filter Chars.is_digit (take_spaces s) = [].
Proof. apply spaces_no_digit, take_spaces_spaces. Qed.

Lemma one_of_not_digit (a b c : ascii) :
  Chars.is_digit a = false -> Chars.is_digit b = false ->
  Chars.one_of [a; b] c = true -> Chars.is_digit c = false.
Proof. intros Ha Hb H. destruct (one_of_2 _ _ _ H) as [->| ->]; assumption. Qed.

Lemma nocase_not_digit (a c : ascii) :
  Chars.is_lower a = true -> Chars.eqc_nocase a c = true -> Chars.is_digit c = false.
Proof.
  intros Ha H. unfold Chars.eqc_nocase in H. apply Ascii.eqb_eq in H.
  assert (Hl : Chars.is_digit (Chars.lower a) = false) by (revert Ha; by_cases a).
  rewrite H in Hl. revert Hl. by_cases c.
Qed.

Lemma keeps_unit (body : pystr -> option pystr) (canon : pystr) :
  skips Chars.is_digit body -> filter Chars.is_digit canon = [] ->
  keeps Chars.is_digit (unit_at body canon).
Proof.
  intros Hb Hc s repl rest H. apply unit_at_Some in H.
  destruct H as [d [s1 [-> [Hd [-> Hbody]]]]].
  destruct (Hb _ _ Hbody) as [w [Hw Hf]].
  exists (d :: take_spaces s1 ++ w). split.
  - cbn [app]. rewrite <- app_assoc, <- Hw, <- spaces_split. reflexivity.
  - cbn [filter]. rewrite Hd. change (Chars.is_digit " ") with false. cbv iota.
    now rewrite Hc, filter_app, take_spaces_no_digit, Hf.
Qed.

Lemma skips_bhk : skips Chars.is_digit bhk_body.
Proof.
  intros u rest H. unfold bhk_body in H.
  destruct u as [|b [|h [|k r]]]; try discriminate.
  destruct (Chars.one_of "Bb" b) eqn:Eb; [|discriminate].
  destruct (Chars.one_of "Hh" h) eqn:Eh; [|discriminate].
  destruct (Chars.one_of "Kk" k) eqn:Ek; [|discriminate].
  injection H as <-. exists [b; h; k]. split; [reflexivity|]. cbn [filter].
  now rewrite (one_of_not_digit "B" "b" b eq_refl eq_refl Eb),
    (one_of_not_digit "H" "h" h eq_refl eq_refl Eh),
    (one_of_not_digit "K" "k" k eq_refl eq_refl Ek).
Qed.

Lemma skips_ft : skips Chars.is_digit ft_part.
Proof.
  intros u rest H. unfold ft_part in H.
  destruct u as [|f [|t r]]; try discriminate.
  destruct (Chars.eqc_nocase "f" f) eqn:Ef; [|discriminate].
  destruct (Chars.eqc_nocase "t" t) eqn:Et; [|discriminate].
  cbn [andb] in H.
  pose proof (nocase_not_digit "f" f eq_refl Ef) as Hf.
  pose proof (nocase_not_digit "t" t eq_refl Et) as Ht.
  destruct r as [|c r'].
  - injection H as <-. exists [f; t]. split; [reflexivity|]. cbn [filter].
    now rewrite Hf, Ht.
  - destruct (Chars.eqc "." c) eqn:Ec; injection H as <-.
    + literal Ec. exists [f; t; "."%char]. split; [reflexivity|]. cbn [filter].
      now rewrite Hf, Ht.
    + exists [f; t]. split; [reflexivity|]. cbn [filter]. now rewrite Hf, Ht.
Qed.

Lemma skips_sqft : skips Chars.is_digit sqft_body.
Proof.
  intros u rest H. unfold sqft_body in H.
  destruct u as [|a [|b s2]]; try discriminate.
  destruct (Chars.eqc_nocase "s" a) eqn:Ea; [|discriminate].
  destruct (Chars.eqc_nocase "q" b) eqn:Eb; [|discriminate].
  cbn [andb] in H.
  pose proof (nocase_not_digit "s" a eq_refl Ea) as Ha.
  pose proof (nocase_not_digit "q" b eq_refl Eb) as Hb.
  destruct s2 as [|c s3]; [discriminate|].
  destruct (Chars.eqc "." c) eqn:Ec.
  - literal Ec. destruct (skips_ft _ _ H) as [w [Hw Hf]].
    exists (a :: b :: "."%char :: take_spaces s3 ++ w). split.
    + cbn [app]. rewrite <- app_assoc, <- Hw, <- spaces_split. reflexivity.
    + cbn [filter]. rewrite Ha, Hb. change (Chars.is_digit ".") with false. cbv iota.
      now rewrite filter_app, take_spaces_no_digit, Hf.
  - destruct (skips_ft _ _ H) as [w [Hw Hf]].
    exists (a :: b :: take_spaces (c :: s3) ++ w). split.
    + cbn [app]. rewrite <- app_assoc, <- Hw, <- spaces_split. reflexivity.
    + cbn [filter]. rewrite Ha, Hb.
      now rewrite filter_app, take_spaces_no_digit, Hf.
Qed.

Lemma skips_dotb : skips Chars.is_digit dotb.
Proof.
  intros u rest H. unfold dotb in H. destruct u as [|c s'].
  - injection H as <-. now exists [].
  - destruct (Chars.eqc "." c) eqn:Ec.
    + literal Ec. destruct (word_after s'); injection H as <-.
      * now exists ["."%char].
      * now exists [].
    + destruct (Chars.is_word c); [discriminate|]. injection H as <-. now exists [].
Qed.

Lemma skips_long_tail (x y z w0 : ascii) :
  Chars.is_digit x = false -> Chars.is_digit y = false ->
  Chars.is_digit z = false -> Chars.is_digit w0 = false ->
  skips Chars.is_digit (long_tail x y z w0).
Proof.
  intros Hx Hy Hz Hw u rest H. unfold long_tail in H.
  destruct u as [|a [|b [|c s3]]]; try exact (skips_dotb _ _ H).
  destruct (Chars.eqc x a) eqn:Ea; [|exact (skips_dotb _ _ H)].
  destruct (Chars.eqc y b) eqn:Eb; [|exact (skips_dotb _ _ H)].
  destruct (Chars.eqc z c) eqn:Ec; [|exact (skips_dotb _ _ H)].
  cbn [andb] in H. literal Ea. literal Eb. literal Ec.
  destruct s3 as [|e s4].
  - destruct (skips_dotb _ _ H) as [w [Hw' Hf]]. exists (a :: b :: c :: w). split.
    + cbn [app]. now rewrite <- Hw'.
    + cbn [filter]. now rewrite Hx, Hy, Hz.
  - destruct (Chars.eqc w0 e) eqn:Ee.
    + literal Ee. destruct (skips_dotb _ _ H) as [w [Hw' Hf]].
      exists (a :: b :: c :: e :: w). split.
      * cbn [app]. now rewrite <- Hw'.
      * cbn [filter]. now rewrite Hx, Hy, Hz, Hw.
    + destruct (skips_dotb _ _ H) as [w [Hw' Hf]]. exists (a :: b :: c :: w). split.
      * cbn [app]. now rewrite <- Hw'.
      * cbn [filter]. now rewrite Hx, Hy, Hz.
Qed.

Lemma skips_crore : skips Chars.is_digit crore_body.
Proof.
  intros u rest H. unfold crore_body in H.
  destruct u as [|c [|r s2]]; try discriminate.
  destruct (Chars.one_of "Cc" c) eqn:Ec; [|discriminate].
  destruct (Chars.one_of "Rr" r) eqn:Er; [|discriminate].
  cbn [andb] in H.
  destruct (skips_long_tail "o" "r" "e" "s" eq_refl eq_refl eq_refl eq_refl _ _ H)
    as [w [Hw Hf]].
  exists (c :: r :: w). split.
  - cbn [app]. now rewrite <- Hw.
  - cbn [filter].
    now rewrite (one_of_not_digit "C" "c" c eq_refl eq_refl Ec),
      (one_of_not_digit "R" "r" r eq_refl eq_refl Er).
Qed.

Lemma skips_lakh : skips Chars.is_digit lakh_body.
Proof.
  intros u rest H. unfold lakh_body in H.
  destruct u as [|l s1]; try discriminate.
  destruct (Chars.one_of "Ll" l) eqn:El; [|discriminate].
  destruct (skips_long_tail "a" "k" "h" "s" eq_refl eq_refl eq_refl eq_refl _ _ H)
    as [w [Hw Hf]].
  exists (l :: w). split.
  - cbn [app]. now rewrite <- Hw.
  - cbn [filter]. now rewrite (one_of_not_digit "L" "l" l eq_refl eq_refl El).
Qed.

Lemma keeps_inr : keeps Chars.is_digit inr_at.
Proof.
  intros s repl rest H. unfold inr_at in H.
  destruct s as [|a [|b [|c s3]]]; try discriminate.
  destruct (_ || _) eqn:E; [|discriminate]. injection H as <- <-.
  exists (a :: b :: c :: take_spaces s3). split.
  - cbn [app]. now rewrite <- spaces_split.
  - apply orb_true_iff in E.
    destruct E as [E|E]; apply andb_true_iff in E; destruct E as [E Ec];
      apply andb_true_iff in E; destruct E as [Ea Eb];
      literal Ea; literal Eb; literal Ec; cbn [filter];
      now rewrite take_spaces_no_digit.
Qed.

Lemma keeps_rs : keeps Chars.is_digit rs_at.
Proof.
  intros s repl rest H. unfold rs_at in H.
  destruct s as [|r [|x s2]]; try discriminate.
  destruct (Chars.one_of "Rr" r) eqn:Er; [|discriminate].
  destruct (Chars.one_of "Ss" x) eqn:Ex; [|discriminate]. cbn [andb] in H.
  pose proof (one_of_not_digit "R" "r" r eq_refl eq_refl Er) as Hr.
  pose proof (one_of_not_digit "S" "s" x eq_refl eq_refl Ex) as Hx.
  assert (Hgen : forall s3 pre,
             s2 = pre ++ s3 -> filter Chars.is_digit pre = [] ->
             match drop_spaces s3 with
             | [] => None
             | d :: rest0 =>
                 if Chars.is_digit d then Some (("Rs. " : pystr) ++ [d], rest0) else None
             end = Some (repl, rest) ->
             exists w, r :: x :: s2 = w ++ rest
                       /\ filter Chars.is_digit repl = filter Chars.is_digit w).
  { intros s3 pre Hs2 Hpre H3.
    destruct (drop_spaces s3) as [|d rest0] eqn:Ed; [discriminate|].
    destruct (Chars.is_digit d) eqn:Hd; [|discriminate]. injection H3 as <- <-.
    exists (r :: x :: pre ++ take_spaces s3 ++ [d]). split.
    - cbn [app]. rewrite Hs2, <- !app_assoc. cbn [app]. rewrite <- Ed.
      now rewrite <- spaces_split.
    - cbn [filter app]. rewrite Hr, Hx, !filter_app, Hpre, take_spaces_no_digit.
      cbn [filter app]. now rewrite Hd. }
  destruct s2 as [|c s2'].
  - discriminate.
  - destruct (Chars.eqc "." c) eqn:Ec.
    + literal Ec. now apply (Hgen s2' ["."%char]).
    + now apply (Hgen (c :: s2') []).
Qed.

Lemma lstrip_keeps_digits (s : pystr) :
  filter Chars.is_digit (lstrip s) = filter Chars.is_digit s.
Proof.
  induction s as [|c s IH]; [reflexivity|]. cbn [lstrip].
  destruct (Chars.is_space c) eqn:E; [|reflexivity].
  cbn [filter]. now rewrite (space_not_digit c E).
Qed.

Lemma filter_rev {A : Type} (f : A -> bool) (l : list A) :
  filter f (rev l) = rev (filter f l).
Proof.
  induction l as [|a l IH]; [reflexivity|]. cbn [rev filter].
  rewrite filter_app, IH. cbn [filter]. destruct (f a); [reflexivity|].
  now rewrite app_nil_r.
Qed.

Lemma strip_keeps_digits (s : pystr) :
  filter Chars.is_digit (strip s) = filter Chars.is_digit s.
Proof.
  unfold strip, rstrip.
  now rewrite filter_rev, lstrip_keeps_digits, filter_rev, rev_involutive,
    lstrip_keeps_digits.
Qed.

(** X19: [normalize_query] never touches the numbers of a query: the
    digits of the result are the digits of the query, in the same order. *)
Theorem normalize_query_keeps_digits (q : pystr) :
  digits (normalize_query q) = digits q.
Proof.
  unfold digits. rewrite normalize_query_passes, strip_keeps_digits. unfold passes.
  rewrite (scan_keeps _ rs_at _ shrinking_rs keeps_rs),
    (scan_keeps _ inr_at _ shrinking_inr keeps_inr).
  rewrite (scan_keeps _ lakh_at _ shrinking_lakh
             (keeps_unit lakh_body "Lakhs" skips_lakh eq_refl)).
  rewrite (scan_keeps _ crore_at _ shrinking_crore
             (keeps_unit crore_body "Crores" skips_crore eq_refl)).
  rewrite (scan_keeps _ sqft_at _ shrinking_sqft
             (keeps_unit sqft_body "sq.ft." skips_sqft eq_refl)).
  rewrite (scan_keeps _ bhk_at _ shrinking_bhk
             (keeps_unit bhk_body "BHK" skips_bhk eq_refl)).
  reflexivity.
Qed.

(** *** Queries without shorthand *)

Lemma digits_suffix (b y : pystr) : suffix b y -> digits y = [] -> digits b = [].
Proof.
  intros [a ->]. unfold digits. rewrite filter_app. intros H.
  now apply app_eq_nil in H.
Qed.

Lemma absent_unit (body : pystr -> option pystr) (canon y : pystr) :
  digits y = [] -> absent (unit_at body canon) y.
Proof.
  intros Hy b Hb. pose proof (digits_suffix _ _ Hb Hy) as Hd.
  destruct b as [|c u]; [reflexivity|]. apply unit_at_start.
  unfold digits in Hd. cbn [filter] in Hd. now destruct (Chars.is_digit c).
Qed.

Lemma absent_rs (y : pystr) : digits y = [] -> absent rs_at y.
Proof.
  intros Hy b Hb. destruct (rs_at b) as [[repl rest]|] eqn:E; [|reflexivity].
  exfalso. apply rs_at_Some in E. destruct E as [r [s1 [d [_ [_ [Hd [_ Hs]]]]]]].
  pose proof (digits_suffix _ _ (suffix_trans _ _ _ Hs Hb) Hy) as H.
  unfold digits in H. cbn [filter] in H. rewrite Hd in H. discriminate.
Qed.

(** X20: a query in which no digit occurs and neither [INR] nor [inr] is
    only stripped of its surrounding white space. *)
Theorem normalize_query_plain (q : pystr) :
  digits q = [] -> has_INR q = false -> normalize_query q = strip q.
Proof.
  intros Hd Hi. rewrite normalize_query_passes. unfold passes.
  rewrite (scan_fixes bhk_at q shrinking_bhk (absent_fixes _ _ (absent_unit _ _ _ Hd))).
  rewrite (scan_fixes sqft_at q shrinking_sqft (absent_fixes _ _ (absent_unit _ _ _ Hd))).
  rewrite (scan_fixes crore_at q shrinking_crore (absent_fixes _ _ (absent_unit _ _ _ Hd))).
  rewrite (scan_fixes lakh_at q shrinking_lakh (absent_fixes _ _ (absent_unit _ _ _ Hd))).
  rewrite (scan_fixes inr_at q shrinking_inr (absent_fixes _ _ (has_INR_absent _ Hi))).
  rewrite (scan_fixes rs_at q shrinking_rs (absent_fixes _ _ (absent_rs _ Hd))).
  reflexivity.
Qed.

Lemma normalize_query_plain_witness :
  digits "  flats near the lake " = []
  /\ has_INR "  flats near the lake " = false
  /\ normalize_query "  flats near the lake " = ("flats near the lake" : pystr).
Proof.
  split; [reflexivity|]. split; [reflexivity|].
  exact (normalize_query_plain ("  flats near the lake " : pystr) eq_refl eq_refl).
Defined.

(** *** The other shorthands *)

Lemma bhk_spelling_cases w :
  bhk_spelling w ->
  In w [("BHK":pystr); ("BHk":pystr); ("BhK":pystr); ("Bhk":pystr);
        ("bHK":pystr); ("bHk":pystr); ("bhK":pystr); ("bhk":pystr)].
Proof.
  intros [b [h [k [-> [Hb [Hh Hk]]]]]].
  apply one_of_2 in Hb, Hh, Hk.
  destruct Hb as [->| ->], Hh as [->| ->], Hk as [->| ->]; simpl; tauto.
Qed.

Lemma lakh_spelling_cases w :
  lakh_spelling w ->
  In w [("L":pystr); ("l":pystr); ("Lakh":pystr); ("lakh":pystr);
        ("Lakhs":pystr); ("lakhs":pystr)].
Proof.
  intros [l [t [-> [Hl Ht]]]].
  apply one_of_2 in Hl.
  destruct Hl as [->| ->]; destruct Ht as [<-|[<-|[<-|[]]]]; simpl; tauto.
Qed.

Lemma strip_number_unit (n : pystr) (d : ascii) (unit : pystr) (z : ascii) :
  forallb numeral_char n = true -> Chars.is_digit d = true ->
  Chars.is_space z = false ->
  strip (n ++ d :: unit ++ [z]) = n ++ d :: unit ++ [z].
Proof.
  intros Hn Hd Hz. destruct n as [|a n].
  - apply (strip_kept _ d z unit); [reflexivity| |exact Hz].
    now apply digit_not_space.
  - cbn [forallb] in Hn. apply andb_true_iff in Hn. destruct Hn as [Ha _].
    apply (strip_kept _ a z (n ++ d :: unit)).
    + cbn [app]. now rewrite <- app_assoc.
    + now apply numeral_not_space.
    + exact Hz.
Qed.

(** A pass after the one that rewrote the text: idle on
    [<number> <canonical unit>]. *)
Ltac idle_after :=
  try assumption; try reflexivity;
  try apply shrinking_bhk; try apply shrinking_sqft; try apply shrinking_crore;
  try apply shrinking_lakh; try apply shrinking_inr; try apply shrinking_rs;
  try (intros x u Hx Hu; apply unit_numeral;
       [first [apply bhk_body_numeral|apply sqft_body_numeral
              |apply crore_body_numeral|apply lakh_body_numeral]|exact Hu]);
  try (intros x u Hx Hu; now apply inr_numeral);
  try (intros x u Hx Hu; now apply rs_numeral);
  try (intros x u Hx; now apply unit_space);
  try (intros x u Hx; now apply inr_space);
  try (intros x u Hx; now apply rs_space);
  try (intros x Hx; now apply inr_digit);
  try (intros x Hx; now apply rs_digit);
  try (intros x Hx; unfold bhk_at, sqft_at, crore_at, lakh_at;
       rewrite unit_at_digit, ?drop_spaces_app by assumption; reflexivity).

(** X21: a number (digits and decimal points, ending in a digit) followed
    by optional white space and [bhk], each letter in either case, becomes
    the number followed by [ BHK]. *)
Theorem bhk_shorthand (n : pystr) (d : ascii) (ws w : pystr) :
  forallb numeral_char n = true ->
  Chars.is_digit d = true ->
  forallb Chars.is_space ws = true ->
  bhk_spelling w ->
  normalize_query (n ++ d :: ws ++ w) = n ++ d :: (" BHK" : pystr).
Proof.
  intros Hn Hd Hws Hw.
  rewrite normalize_query_passes. unfold passes.
  assert (H1 : scan bhk_at (n ++ d :: ws ++ w) = n ++ d :: (" BHK" : pystr)).
  { rewrite scan_numeral; try assumption;
      [|apply shrinking_bhk
       |intros x u Hx Hu; apply unit_numeral; [apply bhk_body_numeral|exact Hu]
       |now apply digit_numeral].
    f_equal. rewrite scan_eq by apply shrinking_bhk.
    unfold bhk_at at 1. rewrite unit_at_digit, drop_spaces_app by assumption.
    apply bhk_spelling_cases in Hw. cbn [In] in Hw.
    repeat (destruct Hw as [<-|Hw]; [reflexivity|]). contradiction. }
  rewrite H1. clear H1.
  change (n ++ d :: (" BHK" : pystr)) with (n ++ d :: [" "%char] ++ ("BHK" : pystr)).
  rewrite (pass_idle sqft_at), (pass_idle crore_at), (pass_idle lakh_at),
    (pass_idle inr_at), (pass_idle rs_at); idle_after.
  exact (strip_number_unit n d (" BH" : pystr) "K" Hn Hd eq_refl).
Qed.

Lemma bhk_shorthand_witness :
  forallb numeral_char ("" : pystr) = true
  /\ Chars.is_digit "3" = true
  /\ normalize_query "3bhk" = ("3 BHK" : pystr).
Proof.
  split; [reflexivity|]. split; [reflexivity|].
  apply (bhk_shorthand ("" : pystr) "3"%char ("" : pystr) ("bhk" : pystr));
    try reflexivity.
  exists "b"%char, "h"%char, "k"%char. repeat split.
Defined.

(** X22: a number followed by optional white space and [l], [lakh] or
    [lakhs] (the first letter in either case) becomes the number followed by
    [ Lakhs]. *)
Theorem lakh_shorthand (n : pystr) (d : ascii) (ws w : pystr) :
  forallb numeral_char n = true ->
  Chars.is_digit d = true ->
  forallb Chars.is_space ws = true ->
  lakh_spelling w ->
  normalize_query (n ++ d :: ws ++ w) = n ++ d :: (" Lakhs" : pystr).
Proof.
  intros Hn Hd Hws Hw.
  rewrite normalize_query_passes. unfold passes.
  assert (H13 : scan crore_at (scan sqft_at (scan bhk_at (n ++ d :: ws ++ w)))
                = n ++ d :: ws ++ w).
  { apply lakh_spelling_cases in Hw. cbn [In] in Hw.
    repeat (destruct Hw as [<-|Hw];
      [ rewrite (pass_idle bhk_at), (pass_idle sqft_at), (pass_idle crore_at);
        idle_after | ]).
    contradiction. }
  rewrite H13. clear H13.
  assert (H4 : scan lakh_at (n ++ d :: ws ++ w) = n ++ d :: (" Lakhs" : pystr)).
  { rewrite scan_numeral; try assumption;
      [|apply shrinking_lakh
       |intros x u Hx Hu; apply unit_numeral; [apply lakh_body_numeral|exact Hu]
       |now apply digit_numeral].
    f_equal. rewrite scan_eq by apply shrinking_lakh.
    unfold lakh_at at 1. rewrite unit_at_digit, drop_spaces_app by assumption.
    apply lakh_spelling_cases in Hw. cbn [In] in Hw.
    repeat (destruct Hw as [<-|Hw]; [reflexivity|]). contradiction. }
  rewrite H4. clear H4.
  change (n ++ d :: (" Lakhs" : pystr)) with (n ++ d :: [" "%char] ++ ("Lakhs" : pystr)).
  rewrite (pass_idle inr_at), (pass_idle rs_at); idle_after.
  exact (strip_number_unit n d (" Lakh" : pystr) "s" Hn Hd eq_refl).
Qed.

Lemma lakh_shorthand_witness :
  forallb numeral_char ("5" : pystr) = true
  /\ Chars.is_digit "0" = true
  /\ normalize_query "50L" = ("50 Lakhs" : pystr).
Proof.
  split; [reflexivity|]. split; [reflexivity|].
  apply (lakh_shorthand ("5" : pystr) "0"%char ("" : pystr) ("L" : pystr));
    try reflexivity.
  exists "L"%char, ("" : pystr). repeat split. simpl. tauto.
Defined.

Lemma nocase_letter (a c : ascii) :
  Chars.is_lower a = true -> Chars.eqc_nocase a c = true ->
  Chars.is_space c = false /\ Chars.eqc "." c = false /\ Chars.one_of "Bb" c = Chars.one_of "Bb" a.
Proof.
  intros Ha H. unfold Chars.eqc_nocase in H. apply Ascii.eqb_eq in H.
  assert (Hl : Chars.is_lower (Chars.lower a) = true
               /\ Chars.lower (Chars.lower a) = Chars.lower a
               /\ Chars.lower a = a) by (revert Ha; by_cases a).
  destruct Hl as [Hl [_ Hla]]. rewrite Hla in H. subst a. clear Hl Hla.
  revert Ha. by_cases c.
Qed.

Lemma ft_part_spelling (ws : pystr) (f t : ascii) (dot2 : pystr) :
  forallb Chars.is_space ws = true ->
  Chars.eqc_nocase "f" f = true -> Chars.eqc_nocase "t" t = true ->
  In dot2 [([] : pystr); ("." : pystr)] ->
  ft_part (drop_spaces (ws ++ f :: t :: dot2)) = Some [].
Proof.
  intros Hws Hf Ht Hd. rewrite drop_spaces_app by exact Hws.
  rewrite drop_spaces_nonspace by apply (nocase_letter "f" f eq_refl Hf).
  unfold ft_part. rewrite Hf, Ht. cbn [andb].
  destruct Hd as [<-|[<-|[]]]; reflexivity.
Qed.

Lemma sqft_spelling_body (w : pystr) : sqft_spelling w -> sqft_body w = Some [].
Proof.
  intros [a [b [dot1 [ws [f [t [dot2 [-> [Ha [Hb [Hd1 [Hws [Hf [Ht Hd2]]]]]]]]]]]]]].
  unfold sqft_body. rewrite Ha, Hb. cbn [andb].
  destruct Hd1 as [<-|[<-|[]]]; cbn [app].
  - destruct ws as [|c ws'].
    + cbn [app]. destruct (nocase_letter "f" f eq_refl Hf) as [_ [-> _]].
      now apply (ft_part_spelling []).
    + cbn [app]. cbn [forallb] in Hws. apply andb_true_iff in Hws.
      rewrite (space_not_dot c (proj1 Hws)).
      apply (ft_part_spelling (c :: ws')); try assumption.
      cbn [forallb]. now apply andb_true_iff.
  - change (Chars.eqc "." ".") with true. cbv iota. now apply ft_part_spelling.
Qed.

Lemma sqft_spelling_digits (w : pystr) : sqft_spelling w -> digits w = [].
Proof.
  intros [a [b [dot1 [ws [f [t [dot2 [-> [Ha [Hb [Hd1 [Hws [Hf [Ht Hd2]]]]]]]]]]]]]].
  unfold digits. cbn [filter].
  rewrite (nocase_not_digit "s" a eq_refl Ha), (nocase_not_digit "q" b eq_refl Hb).
  rewrite !filter_app, (spaces_no_digit ws Hws). cbn [filter app].
  rewrite (nocase_not_digit "f" f eq_refl Hf), (nocase_not_digit "t" t eq_refl Ht).
  destruct Hd1 as [<-|[<-|[]]]; destruct Hd2 as [<-|[<-|[]]]; reflexivity.
Qed.

Lemma sqft_spelling_drop (w : pystr) : sqft_spelling w -> drop_spaces w = w.
Proof.
  intros [a [b [dot1 [ws [f [t [dot2 [-> [Ha _]]]]]]]]].
  apply drop_spaces_nonspace, (nocase_letter "s" a eq_refl Ha).
Qed.

Lemma bhk_body_start (a : ascii) (u : pystr) :
  Chars.one_of "Bb" a = false -> bhk_body (a :: u) = None.
Proof. intros H. unfold bhk_body. rewrite H. now destruct u as [|? [|? ?]]. Qed.

(** X23: a number followed by optional white space and a spelling of
    square feet ([sq], an optional point, optional white space, [ft], an
    optional point, in any case) becomes the number followed by
    [ sq.ft.]. *)
Theorem sqft_shorthand (n : pystr) (d : ascii) (ws w : pystr) :
  forallb numeral_char n = true ->
  Chars.is_digit d = true ->
  forallb Chars.is_space ws = true ->
  sqft_spelling w ->
  normalize_query (n ++ d :: ws ++ w) = n ++ d :: (" sq.ft." : pystr).
Proof.
  intros Hn Hd Hws Hw.
  rewrite normalize_query_passes. unfold passes.
  assert (H1 : scan bhk_at (n ++ d :: ws ++ w) = n ++ d :: ws ++ w).
  { apply pass_idle; idle_after.
    - intros x Hx. unfold bhk_at. rewrite unit_at_digit, drop_spaces_app by assumption.
      destruct Hw as [a [b [dot1 [ws2 [f [t [dot2 [-> [Ha _]]]]]]]]].
      destruct (nocase_letter "s" a eq_refl Ha) as [Hsp [_ Hb]].
      rewrite drop_spaces_nonspace by exact Hsp.
      rewrite bhk_body_start; [reflexivity|]. now rewrite Hb.
    - apply scan_fixes; [apply shrinking_bhk|].
      apply absent_fixes, absent_unit. now apply sqft_spelling_digits. }
  rewrite H1. clear H1.
  assert (H2 : scan sqft_at (n ++ d :: ws ++ w) = n ++ d :: (" sq.ft." : pystr)).
  { rewrite scan_numeral; try assumption;
      [|apply shrinking_sqft
       |intros x u Hx Hu; apply unit_numeral; [apply sqft_body_numeral|exact Hu]
       |now apply digit_numeral].
    f_equal. rewrite scan_eq by apply shrinking_sqft.
    unfold sqft_at at 1. rewrite unit_at_digit, drop_spaces_app by assumption.
    now rewrite (sqft_spelling_drop w Hw), (sqft_spelling_body w Hw). }
  rewrite H2. clear H2.
  change (n ++ d :: (" sq.ft." : pystr)) with (n ++ d :: [" "%char] ++ ("sq.ft." : pystr)).
  rewrite (pass_idle crore_at), (pass_idle lakh_at), (pass_idle inr_at),
    (pass_idle rs_at); idle_after.
  exact (strip_number_unit n d (" sq.ft" : pystr) "." Hn Hd eq_refl).
Qed.

Lemma sqft_shorthand_witness :
  forallb numeral_char ("120" : pystr) = true
  /\ Chars.is_digit "0" = true
  /\ normalize_query "1200 Sq. Ft" = ("1200 sq.ft." : pystr).
Proof.
  split; [reflexivity|]. split; [reflexivity|].
  apply (sqft_shorthand ("120" : pystr) "0"%char (" " : pystr) ("Sq. Ft" : pystr));
    try reflexivity.
  exists "S"%char, "q"%char, ("." : pystr), (" " : pystr), "F"%char, "t"%char, ("" : pystr).
  repeat split; simpl; tauto.
Defined.

(** *** Rupee amounts *)

Lemma scan_skip (m : matcher) (ok : ascii -> bool) (pre y : pystr) :
  shrinking m ->
  (forall c u, ok c = true -> m (c :: u) = None) ->
  forallb ok pre = true ->
  scan m (pre ++ y) = pre ++ scan m y.
Proof.
  intros Hm Hok Hpre. apply scan_prefix; [exact Hm|].
  intros a c b ->. rewrite forallb_app in Hpre. apply andb_true_iff in Hpre.
  destruct Hpre as [_ Hpre]. cbn [forallb] in Hpre. apply andb_true_iff in Hpre.
  apply Hok, Hpre.
Qed.

Lemma scan_number (m : matcher) (n : pystr) :
  shrinking m ->
  (forall x u, numeral_char x = true -> numeral_headed u = true -> m (x :: u) = None) ->
  (forall x, m [x] = None) -> m [] = None ->
  forallb numeral_char n = true -> scan m n = n.
Proof.
  intros Hm Hnum H1 H0 Hn.
  assert (Hnil : scan m [] = []) by (rewrite scan_eq by exact Hm; now rewrite H0).
  destruct n as [|a n'] using rev_ind; [exact Hnil|]. clear IHn'.
  rewrite forallb_app in Hn. apply andb_true_iff in Hn. destruct Hn as [Hn Ha].
  cbn [forallb] in Ha. rewrite andb_true_r in Ha.
  rewrite scan_numeral by assumption. f_equal.
  rewrite scan_eq by exact Hm. now rewrite H1, Hnil.
Qed.

Lemma unit_single body canon (x : ascii) :
  body [] = None -> unit_at body canon [x] = None.
Proof. intros H. unfold unit_at. cbn [drop_spaces]. rewrite H. now destruct (Chars.is_digit x). Qed.

Lemma scan_unit_amount body canon (pre n : pystr) :
  shrinking (unit_at body canon) ->
  (forall y v, numeral_char y = true -> body (y :: v) = None) ->
  body [] = None ->
  forallb (fun c => negb (Chars.is_digit c)) pre = true ->
  forallb numeral_char n = true ->
  scan (unit_at body canon) (pre ++ n) = pre ++ n.
Proof.
  intros Hm Hbody H0 Hpre Hn.
  rewrite (scan_skip _ (fun c => negb (Chars.is_digit c))); try assumption.
  - f_equal. apply scan_number; try assumption.
    + intros x u _ Hu. now apply unit_numeral.
    + intros x. now apply unit_single.
    + reflexivity.
  - intros c u Hc. apply unit_at_start. now apply negb_true_iff.
Qed.

Lemma spaces_forall (ok : ascii -> bool) (ws : pystr) :
  (forall c, Chars.is_space c = true -> ok c = true) ->
  forallb Chars.is_space ws = true -> forallb ok ws = true.
Proof.
  intros Hok H. rewrite forallb_forall in *. intros c Hc. apply Hok, H, Hc.
Qed.

Lemma inr_at_start (c : ascii) (u : pystr) :
  negb (Chars.eqc "I" c) && negb (Chars.eqc "i" c) = true -> inr_at (c :: u) = None.
Proof.
  intros H. apply andb_true_iff in H. destruct H as [H1 H2].
  apply negb_true_iff in H1, H2. unfold inr_at. rewrite H1, H2.
  now destruct u as [|? [|? ?]].
Qed.

Lemma rs_amount (r s : ascii) (dot ws : pystr) (d : ascii) (n : pystr) :
  Chars.one_of "Rr" r = true -> Chars.one_of "Ss" s = true ->
  In dot [([] : pystr); ("." : pystr)] ->
  forallb Chars.is_space ws = true -> Chars.is_digit d = true ->
  forallb numeral_char n = true ->
  scan rs_at (r :: s :: dot ++ ws ++ d :: n) = ("Rs. " : pystr) ++ d :: n.
Proof.
  intros Hr Hs Hdot Hws Hd Hn. rewrite scan_eq by apply shrinking_rs.
  assert (E : rs_at (r :: s :: dot ++ ws ++ d :: n) = Some (("Rs. " : pystr) ++ [d], n)).
  { unfold rs_at. rewrite Hr, Hs. cbn [andb].
    assert (Hdrop : drop_spaces (ws ++ d :: n) = d :: n).
    { rewrite drop_spaces_app by exact Hws. apply drop_spaces_nonspace.
      now apply digit_not_space. }
    destruct Hdot as [<-|[<-|[]]]; cbn [app].
    - destruct ws as [|c ws'].
      + cbn [app] in *. assert (Chars.eqc "." d = false) as -> by (revert Hd; by_cases d).
        cbv zeta. rewrite Hdrop, Hd. reflexivity.
      + cbn [app] in *. cbn [forallb] in Hws. apply andb_true_iff in Hws.
        rewrite (space_not_dot c (proj1 Hws)). cbv zeta. rewrite Hdrop, Hd. reflexivity.
    - change (("." : pystr) ++ ws ++ d :: n) with ("."%char :: ws ++ d :: n).
      cbv iota. change (Chars.eqc "." ".") with true. cbv iota.
      rewrite Hdrop, Hd. reflexivity. }
  rewrite E. rewrite <- app_assoc. cbn [app]. do 5 f_equal.
  apply scan_number; try assumption.
  - apply shrinking_rs.
  - intros x u Hx _. now apply rs_numeral.
  - reflexivity.
  - reflexivity.
Qed.

Lemma strip_amount (d : ascii) (n : pystr) :
  Chars.is_digit d = true -> forallb numeral_char n = true ->
  strip (("Rs. " : pystr) ++ d :: n) = ("Rs. " : pystr) ++ d :: n.
Proof.
  intros Hd Hn. destruct n as [|z n'] using rev_ind.
  - apply (strip_kept _ "R" d ("s. " : pystr)); [reflexivity|reflexivity|].
    now apply digit_not_space.
  - clear IHn'. rewrite forallb_app in Hn. apply andb_true_iff in Hn.
    destruct Hn as [_ Hz]. cbn [forallb] in Hz. rewrite andb_true_r in Hz.
    apply (strip_kept _ "R" z (("s. " : pystr) ++ d :: n')); [reflexivity|reflexivity|].
    now apply numeral_not_space.
Qed.

(** X24: a rupee marker ([INR], [inr], or [Rs] in either case letter by
    letter with an optional point), optional white space and a number
    (starting with a digit, then digits and decimal points) become [Rs. ]
    and the number. *)
Theorem rupee_amount (p ws : pystr) (d : ascii) (n : pystr) :
  rupee_spelling p ->
  forallb Chars.is_space ws = true ->
  Chars.is_digit d = true ->
  forallb numeral_char n = true ->
  normalize_query (p ++ ws ++ d :: n) = ("Rs. " : pystr) ++ d :: n.
Proof.
  intros Hp Hws Hd Hn.
  assert (Hdn : forallb numeral_char (d :: n) = true).
  { cbn [forallb]. now rewrite (digit_numeral d Hd). }
  assert (Hpd : forallb (fun c => negb (Chars.is_digit c)) (p ++ ws) = true).
  { rewrite forallb_app. apply andb_true_iff. split.
    - destruct Hp as [Hp|[r [s [dot [-> [Hr [Hs Hdot]]]]]]].
      + destruct Hp as [<-|[<-|[]]]; reflexivity.
      + apply one_of_2 in Hr, Hs.
        destruct Hr as [->| ->], Hs as [->| ->], Hdot as [<-|[<-|[]]]; reflexivity.
    - apply spaces_forall; [|exact Hws]. intros c Hc. now rewrite (space_not_digit c Hc). }
  rewrite normalize_query_passes. unfold passes.
  rewrite (app_assoc p ws (d :: n)).
  unfold bhk_at, sqft_at, crore_at, lakh_at.
  rewrite (scan_unit_amount bhk_body), (scan_unit_amount sqft_body),
    (scan_unit_amount crore_body), (scan_unit_amount lakh_body);
    try assumption; try reflexivity;
    try apply shrinking_bhk; try apply shrinking_sqft; try apply shrinking_crore;
    try apply shrinking_lakh;
    try apply bhk_body_numeral; try apply sqft_body_numeral;
    try apply crore_body_numeral; try apply lakh_body_numeral.
  rewrite <- (app_assoc p ws (d :: n)).
  assert (H6 : scan rs_at (scan inr_at (p ++ ws ++ d :: n)) = ("Rs. " : pystr) ++ d :: n).
  { destruct Hp as [Hp|[r [s [dot [-> [Hr [Hs Hdot]]]]]]].
    - assert (E : scan inr_at (p ++ ws ++ d :: n) = ("Rs. " : pystr) ++ d :: n).
      { rewrite scan_eq by apply shrinking_inr.
        assert (Em : inr_at (p ++ ws ++ d :: n)
                     = Some (("Rs. " : pystr), drop_spaces (ws ++ d :: n)))
          by (destruct Hp as [<-|[<-|[]]]; reflexivity).
        rewrite Em, drop_spaces_app by exact Hws.
        rewrite drop_spaces_nonspace by now apply digit_not_space.
        f_equal. apply scan_number; try assumption.
        - apply shrinking_inr.
        - intros x u Hx _. now apply inr_numeral.
        - reflexivity.
        - reflexivity. }
      rewrite E.
      exact (rs_amount "R" "s" ("." : pystr) (" " : pystr) d n eq_refl eq_refl
               (or_intror (or_introl eq_refl)) eq_refl Hd Hn).
    - assert (E : scan inr_at ((r :: s :: dot) ++ ws ++ d :: n)
                  = (r :: s :: dot) ++ ws ++ d :: n).
      { rewrite app_assoc.
        rewrite (scan_skip inr_at
                   (fun c => negb (Chars.eqc "I" c) && negb (Chars.eqc "i" c))).
        - f_equal. apply scan_number; try assumption.
          + apply shrinking_inr.
          + intros x u Hx _. now apply inr_numeral.
          + reflexivity.
          + reflexivity.
        - apply shrinking_inr.
        - intros c u Hc. now apply inr_at_start.
        - rewrite forallb_app. apply andb_true_iff. split.
          + apply one_of_2 in Hr, Hs.
            destruct Hr as [->| ->], Hs as [->| ->], Hdot as [<-|[<-|[]]]; reflexivity.
          + apply spaces_forall; [|exact Hws]. intros c Hc.
            rewrite (space_not_eqc "I" c eq_refl Hc), (space_not_eqc "i" c eq_refl Hc).
            reflexivity. }
      rewrite E. cbn [app]. now apply rs_amount. }
  rewrite H6. now apply strip_amount.
Qed.

Lemma rupee_amount_witness :
  Chars.is_digit "5" = true
  /\ forallb numeral_char ("0" : pystr) = true
  /\ normalize_query "INR 50" = ("Rs. 50" : pystr)
  /\ normalize_query "rs.50" = ("Rs. 50" : pystr).
Proof.
  split; [reflexivity|]. split; [reflexivity|]. split.
  - apply (rupee_amount ("INR" : pystr) (" " : pystr) "5"%char ("0" : pystr));
      try reflexivity.
    left. simpl. tauto.
  - apply (rupee_amount ("rs." : pystr) ("" : pystr) "5"%char ("0" : pystr));
      try reflexivity.
    right. exists "r"%char, "s"%char, ("." : pystr). repeat split. simpl. tauto.
Defined.

End QueryMore.

(* ================================================================= *)
(** ** Cleaning the extracted text *)

Module CleanFacts.

Import Re QueryUtils Rules TextCleaning RuleFacts QueryFacts NormalFormFacts ChunkFacts
       ChunkMore FileFacts QueryMore.

Local Open Scope nat_scope.

Local Arguments Chars.one_of : simpl never.
Local Arguments Chars.is_space : simpl never.
Local Arguments Chars.is_digit : simpl never.
Local Arguments Chars.is_word : simpl never.
Local Arguments Chars.eqc : simpl never.
Local Arguments is_blank : simpl never.

(** *** The patterns and their matchers *)

Lemma after_app (l s u : pystr) : after l s = Some u -> s = l ++ u.
Proof.
  revert s. induction l as [|c l IH]; intros s; cbn [after].
  - now intros [= ->].
  - destruct s as [|x s]; [discriminate|].
    destruct (Chars.eqc c x) eqn:E; [|discriminate]. literal E.
    intros H. cbn [app]. f_equal. now apply IH.
Qed.

Lemma after_head (l s : pystr) (c x : ascii) :
  Chars.eqc c x = false -> after (c :: l) (x :: s) = None.
Proof. intros H. cbn [after]. now rewrite H. Qed.

Lemma rm_lit {A} (l : pystr) prev s cap (k : pystr -> pystr -> option pystr -> option A) :
  rmatch (lit Chars.eqc l) prev s cap k
  = match after l s with
    | Some rest => k (rev l ++ prev) rest cap
    | None => None
    end.
Proof.
  revert prev s. induction l as [|c l IH]; intros prev s; [reflexivity|].
  destruct l as [|c' l'].
  - cbn [lit after]. rewrite rm_chr. destruct s as [|x s]; [reflexivity|].
    destruct (Chars.eqc c x) eqn:E; [|reflexivity]. literal E. reflexivity.
  - change (lit Chars.eqc (c :: c' :: l'))
      with (Seq (Chr (Chars.eqc c)) (lit Chars.eqc (c' :: l'))).
    rewrite rm_seq, rm_chr. destruct s as [|x s]; [reflexivity|].
    change (after (c :: c' :: l') (x :: s))
      with (if Chars.eqc c x then after (c' :: l') s else None).
    destruct (Chars.eqc c x) eqn:E; [|reflexivity]. literal E.
    rewrite IH. destruct (after (c' :: l') s); [|reflexivity].
    f_equal. cbn [rev]. now rewrite <- !app_assoc.
Qed.

Lemma run_split (p : ascii -> bool) (s : pystr) : s = take_run p s ++ drop_run p s.
Proof.
  induction s as [|c s IH]; [reflexivity|]. cbn [take_run drop_run].
  destruct (p c); [|reflexivity]. cbn [app]. now f_equal.
Qed.

Lemma take_run_all (p : ascii -> bool) (s : pystr) : forallb p (take_run p s) = true.
Proof.
  induction s as [|c s IH]; [reflexivity|]. cbn [take_run].
  destruct (p c) eqn:E; [|reflexivity]. cbn [forallb]. now rewrite E.
Qed.

Lemma drop_run_length (p : ascii -> bool) (s : pystr) : length (drop_run p s) <= length s.
Proof.
  induction s as [|c s IH]; [reflexivity|]. cbn [drop_run].
  destruct (p c); cbn [length]; lia.
Qed.

Lemma drop_run_head (p : ascii -> bool) (s : pystr) (c : ascii) (r : pystr) :
  drop_run p s = c :: r -> p c = false.
Proof.
  induction s as [|x s IH]; [discriminate|]. cbn [drop_run].
  destruct (p x) eqn:E; [exact IH|]. now intros [= <- _].
Qed.

Lemma drop_run_app (p : ascii -> bool) (a b : pystr) :
  forallb p a = true -> drop_run p (a ++ b) = drop_run p b.
Proof.
  induction a as [|c a IH]; [reflexivity|]. cbn [forallb app drop_run]. intros H.
  apply andb_true_iff in H. destruct H as [-> H]. now apply IH.
Qed.

Lemma drop_run_stop (p : ascii -> bool) (c : ascii) (s : pystr) :
  p c = false -> drop_run p (c :: s) = c :: s.
Proof. intros H. cbn [drop_run]. now rewrite H. Qed.

(** A run followed by something that cannot start inside the run. *)
Lemma star_all {A} (p : ascii -> bool) (prev s : pystr) (k : pystr -> pystr -> option A) :
  (forall q c s', p c = true -> k q (c :: s') = None) ->
  star p prev s k = k (rev (take_run p s) ++ prev) (drop_run p s).
Proof.
  intros Hk. revert prev. induction s as [|c s IH]; intros prev; simpl; [reflexivity|].
  destruct (p c) eqn:E; [|reflexivity].
  rewrite IH. simpl. rewrite <- app_assoc. simpl.
  destruct (k _ (drop_run p s)) eqn:E2; [reflexivity|].
  now rewrite Hk.
Qed.

(** A run at the end of the pattern: the whole run is taken. *)
Lemma star_whole {A} (p : ascii -> bool) (prev s : pystr)
      (k : pystr -> pystr -> option A) (x : A) :
  k (rev (take_run p s) ++ prev) (drop_run p s) = Some x ->
  star p prev s k = Some x.
Proof.
  revert prev. induction s as [|c s IH]; intros prev; simpl; [tauto|].
  destruct (p c) eqn:E; [|tauto].
  simpl. rewrite <- app_assoc. simpl. intros H. now rewrite (IH _ H).
Qed.

Lemma digit_not_bracket (c : ascii) : Chars.is_digit c = true -> Chars.eqc "]" c = false.
Proof. by_cases c. Qed.

Lemma found_page prev s : found page_marker [] prev s = page_at s.
Proof.
  unfold found, match_at, page_marker, page_at, number, Plus, newline. cbn [seqs].
  rewrite rm_seq, rm_lit.
  destruct (after "[Page " s) as [u|] eqn:Ea; [|reflexivity].
  apply after_app in Ea. subst s.
  change (length (("[Page " : pystr) ++ u)) with (S (5 + length u)).
  fold (final (5 + length u)).
  unfold number_closed.
  rewrite !rm_seq, rm_chr. destruct u as [|d u]; [reflexivity|].
  destruct (Chars.is_digit d) eqn:Ed; [|reflexivity].
  rewrite rm_star, star_all.
  2:{ intros q c s' Hc. rewrite rm_seq, rm_chr. now rewrite (digit_not_bracket c Hc). }
  pose proof (drop_run_length Chars.is_digit u) as Hlen.
  destruct (drop_run Chars.is_digit u) as [|c v]; [reflexivity|].
  rewrite rm_seq, rm_chr. destruct (Chars.eqc "]" c); [|reflexivity].
  rewrite rm_opt, rm_chr. cbn [length] in Hlen.
  unfold opt_newline. destruct v as [|x v].
  - rewrite final_ok by (cbn [length]; lia). reflexivity.
  - destruct (Chars.eqc nl x).
    + rewrite final_ok by (cbn [length] in *; lia). reflexivity.
    + rewrite final_ok by (cbn [length] in *; lia). reflexivity.
Qed.

Lemma found_lines prev s : found blank_lines [TLit [nl; nl]] prev s = lines_at s.
Proof.
  unfold found, match_at, blank_lines, lines_at, newline. cbn [seqs].
  rewrite rm_seq, rm_chr. destruct s as [|a s]; [reflexivity|].
  destruct (Chars.eqc nl a); [|now destruct s as [|? [|? ?]]].
  rewrite rm_seq, rm_chr. destruct s as [|b s]; [reflexivity|].
  destruct (Chars.eqc nl b); [|now destruct s].
  rewrite rm_seq, rm_chr. destruct s as [|c s]; [reflexivity|].
  destruct (Chars.eqc nl c); [|reflexivity].
  cbn [andb length]. fold (final (S (S (length s)))).
  rewrite rm_star.
  rewrite (star_whole _ _ _ _ (rev (take_run (Chars.eqc nl) s) ++ c :: b :: a :: prev,
                               drop_run (Chars.eqc nl) s, None)).
  - reflexivity.
  - apply final_ok. pose proof (drop_run_length (Chars.eqc nl) s). lia.
Qed.

Lemma found_blank prev s : found blank_run [TLit " "] prev s = blank_at s.
Proof.
  unfold found, match_at, blank_run, blank_at. cbn [seqs].
  rewrite rm_seq, rm_chr. destruct s as [|a s]; [reflexivity|].
  destruct (is_blank a); [|now destruct s].
  rewrite rm_seq, rm_chr. destruct s as [|b s]; [reflexivity|].
  destruct (is_blank b); [|reflexivity].
  cbn [andb length]. fold (final (S (length s))).
  rewrite rm_star.
  rewrite (star_whole _ _ _ _ (rev (take_run is_blank s) ++ b :: a :: prev,
                               drop_run is_blank s, None)).
  - reflexivity.
  - apply final_ok. pose proof (drop_run_length is_blank s). lia.
Qed.

Lemma shrinking_page : shrinking page_at.
Proof. exact (shrinking_found _ _ _ found_page). Qed.

Lemma shrinking_lines : shrinking lines_at.
Proof. exact (shrinking_found _ _ _ found_lines). Qed.

Lemma shrinking_blank : shrinking blank_at.
Proof. exact (shrinking_found _ _ _ found_blank). Qed.

Lemma shrinking_hyphen : shrinking hyphen_at.
Proof.
  intros s repl rest H. unfold hyphen_at in H.
  destruct s as [|a [|h [|n [|b r]]]]; try discriminate.
  destruct (_ && _); [|discriminate]. injection H as _ <-. cbn [length]. lia.
Qed.

Lemma clean_text_passes (text : pystr) :
  clean_text text = strip (join [nl] (map strip (lines (cleaning_passes text)))).
Proof.
  unfold clean_text, cleaning_passes, lines.
  now rewrite (sub_scan _ _ _ found_page), (sub_scan _ _ _ found_lines),
    (sub_scan _ _ _ found_blank).
Qed.

Lemma scan_empty (m : matcher) : shrinking m -> m [] = None -> scan m [] = [].
Proof. intros Hm H. rewrite scan_eq by exact Hm. now rewrite H. Qed.

Lemma scan_all (m : matcher) (ok : ascii -> bool) (s : pystr) :
  shrinking m -> m [] = None ->
  (forall c u, ok c = true -> m (c :: u) = None) ->
  forallb ok s = true -> scan m s = s.
Proof.
  intros Hm H0 Hok Hs. rewrite <- (app_nil_r s) at 1.
  rewrite (scan_skip m ok s [] Hm Hok Hs), (scan_empty m Hm H0). apply app_nil_r.
Qed.

(** *** The page markers of the PDF parser *)

Lemma page_at_start (c : ascii) (u : pystr) :
  negb (Chars.eqc "[" c) = true -> page_at (c :: u) = None.
Proof.
  intros H. apply negb_true_iff in H. unfold page_at.
  change ("[Page " : pystr) with ("["%char :: ("Page " : pystr)).
  now rewrite after_head.
Qed.

Lemma scan_page_free (s y : pystr) :
  free_of "[" s = true -> scan page_at (s ++ y) = s ++ scan page_at y.
Proof.
  intros H. apply (scan_skip page_at (fun x => negb (Chars.eqc "[" x)));
    [exact shrinking_page|exact page_at_start|exact H].
Qed.

Lemma scan_page_idle (s : pystr) : free_of "[" s = true -> scan page_at s = s.
Proof.
  intros H. apply (scan_all page_at (fun x => negb (Chars.eqc "[" x)));
    [exact shrinking_page|reflexivity|exact page_at_start|exact H].
Qed.

Lemma after_self (l s : pystr) : after l (l ++ s) = Some s.
Proof.
  induction l as [|c l IH]; [reflexivity|]. cbn [app after].
  unfold Chars.eqc. now rewrite Ascii.eqb_refl.
Qed.

Lemma str_of_nat_number (n : nat) :
  exists d ds, (str_of_nat n : pystr) = d :: ds
               /\ Chars.is_digit d = true /\ forallb Chars.is_digit ds = true.
Proof.
  pose proof (StoreFacts.string_of_uint_digits (Nat.to_uint n)) as H.
  unfold str_of_nat.
  destruct (list_ascii_of_string (NilEmpty.string_of_uint (Nat.to_uint n)))
    as [|d ds] eqn:E.
  - exfalso. apply (DecimalFacts.unorm_nonnil (Nat.to_uint n)).
    rewrite <- Unsigned.to_of, Unsigned.of_to.
    destruct (Nat.to_uint n); try discriminate E. reflexivity.
  - cbn [forallb] in H. apply andb_true_iff in H. now exists d, ds.
Qed.

Lemma page_at_marker (n : nat) (y : pystr) :
  page_at (("[Page " : pystr) ++ (str_of_nat n : pystr) ++ ("]" : pystr) ++ [nl] ++ y)
  = Some ([], y).
Proof.
  unfold page_at. rewrite after_self.
  destruct (str_of_nat_number n) as [d [ds [-> [Hd Hds]]]].
  cbn [app]. unfold number_closed. rewrite Hd.
  rewrite drop_run_app by exact Hds. reflexivity.
Qed.

Lemma text_parts_nil (n : nat) (pages : list pystr) :
  text_parts n pages = [] <-> kept_pages pages = [].
Proof.
  revert n. induction pages as [|t pages IH]; intros n; [tauto|].
  cbn [text_parts kept_pages filter]. destruct (truthy (strip t)).
  - split; discriminate.
  - apply IH.
Qed.

Lemma free_of_app (c : ascii) (a b : pystr) :
  free_of c (a ++ b) = free_of c a && free_of c b.
Proof. apply forallb_app. Qed.

Lemma scan_page_parts (n : nat) (pages : list pystr) :
  Forall (fun text => free_of "[" text = true) pages ->
  scan page_at (join [nl; nl] (text_parts n pages)) = join [nl; nl] (kept_pages pages).
Proof.
  intros H. revert n. induction H as [|t pages Ht Hpages IH]; intros n.
  - apply scan_empty; [exact shrinking_page|reflexivity].
  - cbn [text_parts kept_pages filter]. fold (kept_pages pages).
    destruct (truthy (strip t)); [|apply IH].
    destruct (text_parts (S n) pages) as [|q parts] eqn:E.
    + apply text_parts_nil in E. rewrite E. cbn [join].
      rewrite scan_eq by exact shrinking_page.
      rewrite page_at_marker. cbn [app]. now apply scan_page_idle.
    + assert (Hk : kept_pages pages <> []).
      { intros Hk. apply text_parts_nil with (n := S n) in Hk. congruence. }
      rewrite (join_cons _ t (kept_pages pages) Hk).
      rewrite (join_cons _ _ (q :: parts)) by discriminate.
      rewrite scan_eq by exact shrinking_page.
      rewrite <- !app_assoc. rewrite page_at_marker. cbn [app].
      rewrite scan_page_free by exact Ht. f_equal.
      change (nl :: nl :: join [nl; nl] (q :: parts))
        with ([nl; nl] ++ join [nl; nl] (q :: parts)).
      rewrite scan_page_free by reflexivity. cbn [app]. do 2 f_equal.
      rewrite <- E. apply IH.
Qed.

Lemma free_of_join (c : ascii) (sep : pystr) (parts : list pystr) :
  free_of c sep = true -> Forall (fun p => free_of c p = true) parts ->
  free_of c (join sep parts) = true.
Proof.
  intros Hsep H. induction H as [|p parts Hp Hparts IH]; [reflexivity|].
  destruct parts as [|q parts]; [exact Hp|].
  rewrite join_cons by discriminate. rewrite !free_of_app, Hp, Hsep. exact IH.
Qed.

(** X25: [clean_text] removes the page markers that [parse_pdf_pypdf2]
    writes: when no page text contains an opening bracket, cleaning the
    parser's output gives what cleaning the kept page texts, joined by a
    blank line, gives. *)
Theorem page_markers_removed (pages : list pystr) :
  Forall (fun text => free_of "[" text = true) pages ->
  clean_text (parse_pdf_pypdf2 pages) = clean_text (join [nl; nl] (kept_pages pages)).
Proof.
  intros H. rewrite !clean_text_passes. unfold cleaning_passes, parse_pdf_pypdf2.
  rewrite (scan_page_parts 1 pages H). rewrite scan_page_idle; [reflexivity|].
  apply free_of_join; [reflexivity|].
  unfold kept_pages. rewrite Forall_forall in *. intros t Ht.
  apply filter_In in Ht. now apply H.
Qed.

Lemma page_markers_removed_witness :
  Forall (fun text => free_of "[" text = true)
         [("Two rooms" : pystr); (" " : pystr); ("Sea  view" : pystr)]
  /\ clean_text (parse_pdf_pypdf2
                   [("Two rooms" : pystr); (" " : pystr); ("Sea  view" : pystr)])
     = clean_text (join [nl; nl] [("Two rooms" : pystr); ("Sea  view" : pystr)]).
Proof.
  assert (H : Forall (fun text => free_of "[" text = true)
                     [("Two rooms" : pystr); (" " : pystr); ("Sea  view" : pystr)])
    by (repeat constructor).
  split; [exact H|].
  exact (page_markers_removed _ H).
Defined.

(** *** Lines and blanks of the cleaned text *)

Lemma join_lines (s : pystr) : join [nl] (lines s) = s.
Proof.
  unfold lines. induction s as [|c s IH]; [reflexivity|]. cbn [split_char].
  destruct (Ascii.eqb c nl) eqn:E.
  - apply Ascii.eqb_eq in E. subst c.
    rewrite join_cons by apply split_char_nonempty. cbn [app]. now rewrite IH.
  - destruct (split_char nl s) as [|p ps] eqn:Es.
    + now destruct (split_char_nonempty nl s).
    + destruct ps as [|p' ps].
      * cbn [join] in *. now rewrite IH.
      * rewrite (join_cons _ (c :: p)) by discriminate.
        rewrite (join_cons _ p) in IH by discriminate.
        cbn [app] in *. now rewrite IH.
Qed.

Lemma lines_free (s : pystr) : Forall (fun l => ~ In nl l) (lines s).
Proof.
  unfold lines. induction s as [|c s IH]; [repeat constructor; tauto|].
  cbn [split_char]. destruct (Ascii.eqb c nl) eqn:E.
  - constructor; [tauto|exact IH].
  - apply Ascii.eqb_neq in E. destruct (split_char nl s) as [|p ps].
    + repeat constructor. intros [H|[]]. congruence.
    + inversion IH as [|? ? Hp Hps]; subst. constructor; [|exact Hps].
      intros [H|H]; [congruence|contradiction].
Qed.

Lemma lines_join (ls : list pystr) :
  ls <> [] -> Forall (fun l => ~ In nl l) ls -> lines (join [nl] ls) = ls.
Proof.
  unfold lines. intros Hne H. revert Hne.
  induction H as [|p ls Hp Hls IH]; intros Hne; [now destruct Hne|]. clear Hne.
  destruct ls as [|q ls].
  - cbn [join]. now apply split_char_whole.
  - rewrite join_cons by discriminate.
    change (p ++ [nl] ++ join [nl] (q :: ls)) with (p ++ nl :: join [nl] (q :: ls)).
    rewrite split_char_app, (split_char_whole nl p Hp), IH by discriminate.
    reflexivity.
Qed.

Lemma lstrip_suffix (s : pystr) : exists w, forallb Chars.is_space w = true /\ s = w ++ lstrip s.
Proof.
  exists (take_spaces s). split; [apply take_spaces_spaces|].
  rewrite lstrip_drop. apply spaces_split.
Qed.

Lemma strip_split (s : pystr) :
  exists w1 w2, forallb Chars.is_space w1 = true /\ forallb Chars.is_space w2 = true
                /\ s = w1 ++ strip s ++ w2.
Proof.
  destruct (lstrip_suffix s) as [w1 [H1 E1]].
  destruct (rstrip_split (lstrip s)) as [w2 [H2 E2]].
  exists w1, w2. repeat split; try assumption.
  unfold strip. now rewrite <- E2.
Qed.

Lemma strip_In (c : ascii) (s : pystr) : In c (strip s) -> In c s.
Proof.
  destruct (strip_split s) as [w1 [w2 [_ [_ E]]]]. intros H. rewrite E.
  apply in_or_app. right. apply in_or_app. now left.
Qed.

Lemma trimmed_lstrip (s : pystr) : trimmed s -> trimmed (lstrip s).
Proof.
  unfold trimmed, lines. induction s as [|c s IH]; [tauto|]. intros H.
  cbn [lstrip]. destruct (Chars.is_space c) eqn:E; [|exact H].
  cbn [split_char] in H. destruct (Ascii.eqb c nl).
  - inversion H; subst. now apply IH.
  - exfalso. destruct (split_char nl s) as [|p ps].
    + inversion H as [|? ? Hl _]; subst. apply strip_first in Hl. congruence.
    + inversion H as [|? ? Hl _]; subst. apply strip_first in Hl. congruence.
Qed.

Lemma trimmed_snoc (s : pystr) (x : ascii) :
  Chars.is_space x = true -> trimmed (s ++ [x]) -> trimmed s.
Proof.
  unfold trimmed, lines. intros Hx H.
  destruct (Ascii.eqb x nl) eqn:E.
  - apply Ascii.eqb_eq in E. subst x. rewrite split_char_app in H.
    now apply Forall_app in H.
  - exfalso. apply Ascii.eqb_neq in E.
    destruct (in_dec ascii_dec nl s) as [Hin|Hout].
    + destruct (last_occurrence nl s Hin) as [stem [e [-> He]]].
      rewrite <- app_assoc in H. cbn [app] in H.
      rewrite split_char_app in H. apply Forall_app in H. destruct H as [_ H].
      rewrite split_char_whole in H.
      * inversion H as [|? ? Hl _]; subst. apply strip_last in Hl. congruence.
      * intros Hi. apply in_app_or in Hi. destruct Hi as [Hi|[Hi|[]]]; congruence.
    + rewrite split_char_whole in H.
      * inversion H as [|? ? Hl _]; subst. apply strip_last in Hl. congruence.
      * intros Hi. apply in_app_or in Hi. destruct Hi as [Hi|[Hi|[]]]; congruence.
Qed.

Lemma trimmed_unpad (a w : pystr) :
  forallb Chars.is_space w = true -> trimmed (a ++ w) -> trimmed a.
Proof.
  induction w as [|x w IH] using rev_ind.
  - now rewrite app_nil_r.
  - rewrite forallb_app. cbn [forallb]. rewrite andb_true_r. intros Hw.
    apply andb_true_iff in Hw. destruct Hw as [Hw Hx]. rewrite app_assoc. intros H.
    apply IH; [exact Hw|]. now apply (trimmed_snoc _ x).
Qed.

Lemma trimmed_strip (s : pystr) : trimmed s -> trimmed (strip s).
Proof.
  intros H. apply trimmed_lstrip in H. unfold strip.
  destruct (rstrip_split (lstrip s)) as [w [Hw E]].
  apply (trimmed_unpad _ w Hw). now rewrite <- E.
Qed.

Lemma trimmed_join (ls : pystr) : trimmed (join [nl] (map strip (lines ls))).
Proof.
  unfold trimmed. rewrite lines_join.
  - apply Forall_forall. intros l Hl. apply in_map_iff in Hl.
    destruct Hl as [l0 [<- _]]. apply strip_idempotent.
  - unfold lines. pose proof (split_char_nonempty nl ls) as Hne.
    destruct (split_char nl ls); [congruence|discriminate].
  - apply Forall_forall. intros l Hl. apply in_map_iff in Hl.
    destruct Hl as [l0 [<- Hl0]]. intros Hin. apply strip_In in Hin.
    pose proof (lines_free ls) as Hf. rewrite Forall_forall in Hf.
    exact (Hf l0 Hl0 Hin).
Qed.

(** X26: no line of a cleaned text starts or ends with white space, and
    neither does the text as a whole. *)
Theorem cleaned_lines_trimmed (text : pystr) :
  Forall (fun l => strip l = l) (lines (clean_text text))
  /\ strip (clean_text text) = clean_text text.
Proof.
  rewrite clean_text_passes. split.
  - apply trimmed_strip, trimmed_join.
  - apply strip_idempotent.
Qed.

(** *** Blanks *)

Lemma adjacent_cons (p q : ascii -> bool) (a : ascii) (s : pystr) :
  adjacent p q (a :: s) = (p a && headed q s) || adjacent p q s.
Proof. destruct s; cbn [adjacent headed]; [now rewrite andb_false_r|reflexivity]. Qed.

Lemma adjacent_app_r (p q : ascii -> bool) (a b : pystr) :
  adjacent p q (a ++ b) = false -> adjacent p q b = false.
Proof.
  induction a as [|x a IH]; [tauto|]. cbn [app]. rewrite adjacent_cons.
  intros H. apply orb_false_iff in H. now apply IH.
Qed.

Lemma adjacent_app_l (p q : ascii -> bool) (a b : pystr) :
  adjacent p q (a ++ b) = false -> adjacent p q a = false.
Proof.
  induction a as [|x a IH]; [reflexivity|]. cbn [app]. rewrite !adjacent_cons.
  intros H. apply orb_false_iff in H. destruct H as [H1 H2].
  rewrite (IH H2), orb_false_r. destruct a as [|y a]; [apply andb_false_r|exact H1].
Qed.

Lemma adjacent_sep (p q : ascii -> bool) (a : pystr) (c : ascii) (b : pystr) :
  p c = false -> q c = false ->
  adjacent p q a = false -> adjacent p q b = false ->
  adjacent p q (a ++ c :: b) = false.
Proof.
  intros Hp Hq Ha Hb. induction a as [|x a IH].
  - cbn [app]. now rewrite adjacent_cons, Hp, Hb.
  - cbn [app]. rewrite adjacent_cons in *. apply orb_false_iff in Ha.
    destruct Ha as [H1 H2]. rewrite (IH H2), orb_false_r.
    destruct a as [|y a]; [cbn [app headed]; rewrite Hq; apply andb_false_r|exact H1].
Qed.

Lemma adjacent_strip (p q : ascii -> bool) (s : pystr) :
  adjacent p q s = false -> adjacent p q (strip s) = false.
Proof.
  destruct (strip_split s) as [w1 [w2 [_ [_ E]]]]. intros H. rewrite E in H.
  apply adjacent_app_r in H. now apply adjacent_app_l in H.
Qed.

Lemma adjacent_parts (p q : ascii -> bool) (ls : list pystr) :
  adjacent p q (join [nl] ls) = false -> Forall (fun l => adjacent p q l = false) ls.
Proof.
  induction ls as [|l ls IH]; [constructor|]. destruct ls as [|l' ls].
  - cbn [join]. now repeat constructor.
  - rewrite join_cons by discriminate. intros H. constructor.
    + now apply adjacent_app_l in H.
    + apply IH. apply adjacent_app_r in H. cbn [app] in H.
      rewrite adjacent_cons in H. now apply orb_false_iff in H.
Qed.

Lemma adjacent_join (p q : ascii -> bool) (ls : list pystr) :
  p nl = false -> q nl = false ->
  Forall (fun l => adjacent p q l = false) ls -> adjacent p q (join [nl] ls) = false.
Proof.
  intros Hp Hq H. induction H as [|l ls Hl Hls IH]; [reflexivity|].
  destruct ls as [|l' ls]; [exact Hl|].
  rewrite join_cons by discriminate. now apply adjacent_sep.
Qed.

Lemma blank_at_Some (s repl rest : pystr) :
  blank_at s = Some (repl, rest) ->
  headed is_blank s = true /\ repl = (" " : pystr) /\ headed is_blank rest = false.
Proof.
  unfold blank_at. destruct s as [|a [|b r]]; try discriminate.
  destruct (is_blank a) eqn:Ea; [|discriminate].
  destruct (is_blank b); [|discriminate]. cbn [andb]. intros [= <- <-].
  repeat split; [exact Ea|].
  destruct (drop_run is_blank r) as [|c v] eqn:E; [reflexivity|].
  exact (drop_run_head _ _ _ _ E).
Qed.

Lemma blank_at_None (c : ascii) (s : pystr) :
  blank_at (c :: s) = None -> is_blank c = true -> headed is_blank s = false.
Proof.
  unfold blank_at. destruct s as [|b r]; [reflexivity|]. intros H Hc.
  rewrite Hc in H. cbn [headed]. now destruct (is_blank b).
Qed.

Lemma scan_blank_tidy (s : pystr) :
  adjacent is_blank is_blank (scan blank_at s) = false
  /\ (headed is_blank (scan blank_at s) = true -> headed is_blank s = true).
Proof.
  remember (length s) as n eqn:Hn. revert s Hn.
  induction n as [n IH] using lt_wf_ind. intros s ->.
  rewrite scan_eq by exact shrinking_blank.
  destruct (blank_at s) as [[repl rest]|] eqn:E.
  - pose proof (shrinking_blank _ _ _ E) as Hlen.
    destruct (blank_at_Some _ _ _ E) as [Hs [-> Hrest]].
    destruct (IH _ Hlen rest eq_refl) as [IH1 IH2].
    split; [|intros _; exact Hs].
    change ((" " : pystr) ++ scan blank_at rest) with (" "%char :: scan blank_at rest).
    rewrite adjacent_cons, IH1, orb_false_r.
    destruct (headed is_blank (scan blank_at rest)); [|apply andb_false_r].
    rewrite IH2 in Hrest by reflexivity. discriminate.
  - destruct s as [|c s]; [split; [reflexivity|discriminate]|].
    destruct (IH (length s) (Nat.lt_succ_diag_r _) s eq_refl) as [IH1 IH2].
    split; [|tauto].
    rewrite adjacent_cons, IH1, orb_false_r.
    destruct (is_blank c) eqn:Ec; [|reflexivity].
    destruct (headed is_blank (scan blank_at s)) eqn:Eh; [|reflexivity].
    rewrite (blank_at_None c s E Ec) in IH2. now specialize (IH2 eq_refl).
Qed.

(** X27: a cleaned text never holds two neighbouring blanks (spaces or
    tabs). *)
Theorem cleaned_blanks_single (text : pystr) :
  adjacent is_blank is_blank (clean_text text) = false.
Proof.
  rewrite clean_text_passes. apply adjacent_strip.
  apply adjacent_join; try reflexivity.
  apply Forall_forall. intros l Hl. apply in_map_iff in Hl.
  destruct Hl as [l0 [<- Hl0]]. apply adjacent_strip.
  pose proof (proj1 (scan_blank_tidy
    (scan lines_at (scan hyphen_at (sub table_marker [] (scan page_at text)))))) as H.
  fold (cleaning_passes text) in H.
  rewrite <- (join_lines (cleaning_passes text)) in H.
  apply adjacent_parts in H. rewrite Forall_forall in H. now apply H.
Qed.

(** *** Texts with nothing to clean *)

Lemma sub_loop_idle (r : regex) (t : template) (ok : ascii -> bool) :
  (forall prev c u, ok c = true -> match_at r prev (c :: u) = None) ->
  (forall prev, match_at r prev [] = None) ->
  forall fuel prev s, forallb ok s = true -> sub_loop fuel r t prev s = s.
Proof.
  intros Hok H0. induction fuel as [|fuel IH]; intros prev s Hs; [reflexivity|].
  cbn [sub_loop]. destruct s as [|c s]; [now rewrite H0|].
  cbn [forallb] in Hs. apply andb_true_iff in Hs. destruct Hs as [Hc Hs].
  rewrite (Hok prev c s Hc). f_equal. now apply IH.
Qed.

Lemma sub_table_idle (s : pystr) : free_of "[" s = true -> sub table_marker [] s = s.
Proof.
  intros H. unfold sub.
  apply (sub_loop_idle _ _ (fun x => negb (Chars.eqc "[" x))); [| |exact H].
  - intros prev c u Hc. apply negb_true_iff in Hc.
    unfold match_at, table_marker. cbn [seqs]. rewrite rm_seq, rm_chr. now rewrite Hc.
  - intros prev. reflexivity.
Qed.

Lemma adjacent_suffix (p q : ascii -> bool) (b s : pystr) :
  suffix b s -> adjacent p q s = false -> adjacent p q b = false.
Proof. intros [a ->]. apply adjacent_app_r. Qed.

Lemma triple_cons (p : ascii -> bool) (a : ascii) (s : pystr) :
  triple p (a :: s) = false -> triple p s = false.
Proof.
  cbn [triple]. destruct s as [|b [|c r]]; try reflexivity.
  intros H. now apply orb_false_iff in H.
Qed.

Lemma triple_suffix (p : ascii -> bool) (b s : pystr) :
  suffix b s -> triple p s = false -> triple p b = false.
Proof.
  intros [a ->]. induction a as [|x a IH]; [tauto|]. cbn [app]. intros H.
  apply IH. now apply triple_cons in H.
Qed.

Lemma scan_absent (m : matcher) (s : pystr) :
  shrinking m -> absent m s -> scan m s = s.
Proof. intros Hm H. apply scan_fixes; [exact Hm|now apply absent_fixes]. Qed.

Lemma scan_hyphen_idle (s : pystr) :
  adjacent (Chars.eqc "-") (Chars.eqc nl) s = false -> scan hyphen_at s = s.
Proof.
  intros H. apply scan_absent; [exact shrinking_hyphen|]. intros b Hb.
  pose proof (adjacent_suffix _ _ _ _ Hb H) as Ha. unfold hyphen_at.
  destruct b as [|a [|h [|n [|b' r]]]]; try reflexivity.
  rewrite adjacent_cons in Ha. apply orb_false_iff in Ha. destruct Ha as [_ Ha].
  rewrite adjacent_cons in Ha. apply orb_false_iff in Ha. destruct Ha as [Ha _].
  cbn [headed] in Ha.
  destruct (Chars.is_word a); [|reflexivity]. cbn [andb]. now rewrite Ha.
Qed.

Lemma scan_lines_idle (s : pystr) : triple (Chars.eqc nl) s = false -> scan lines_at s = s.
Proof.
  intros H. apply scan_absent; [exact shrinking_lines|]. intros b Hb.
  pose proof (triple_suffix _ _ _ Hb H) as Ha. unfold lines_at.
  destruct b as [|a [|b' [|c r]]]; try reflexivity.
  cbn [triple] in Ha. apply orb_false_iff in Ha. destruct Ha as [Ha _]. now rewrite Ha.
Qed.

Lemma scan_blank_idle (s : pystr) :
  adjacent is_blank is_blank s = false -> scan blank_at s = s.
Proof.
  intros H. apply scan_absent; [exact shrinking_blank|]. intros b Hb.
  pose proof (adjacent_suffix _ _ _ _ Hb H) as Ha. unfold blank_at.
  destruct b as [|a [|b' r]]; try reflexivity.
  rewrite adjacent_cons in Ha. apply orb_false_iff in Ha. destruct Ha as [Ha _].
  cbn [headed] in Ha. now rewrite Ha.
Qed.

Lemma cleaning_passes_idle (text : pystr) :
  free_of "[" text = true ->
  adjacent (Chars.eqc "-") (Chars.eqc nl) text = false ->
  triple (Chars.eqc nl) text = false ->
  adjacent is_blank is_blank text = false ->
  cleaning_passes text = text.
Proof.
  intros H1 H2 H3 H4. unfold cleaning_passes.
  now rewrite (scan_page_idle text H1), (sub_table_idle text H1),
    (scan_hyphen_idle text H2), (scan_lines_idle text H3), (scan_blank_idle text H4).
Qed.

(** X28: in a text without an opening bracket, without a hyphen before a
    line break, without three line breaks in a row and without two
    neighbouring blanks, [clean_text] only strips every line and the text as
    a whole. *)
Theorem clean_text_idle (text : pystr) :
  free_of "[" text = true ->
  adjacent (Chars.eqc "-") (Chars.eqc nl) text = false ->
  triple (Chars.eqc nl) text = false ->
  adjacent is_blank is_blank text = false ->
  clean_text text = strip (join [nl] (map strip (lines text))).
Proof.
  intros H1 H2 H3 H4. rewrite clean_text_passes.
  unfold cleaning_passes.
  rewrite (scan_page_idle text H1), (sub_table_idle text H1),
    (scan_hyphen_idle text H2), (scan_lines_idle text H3), (scan_blank_idle text H4).
  reflexivity.
Qed.

Lemma clean_text_idle_witness :
  free_of "[" ((" Two rooms " : pystr) ++ [nl] ++ (" sea view " : pystr)) = true
  /\ triple (Chars.eqc nl) ((" Two rooms " : pystr) ++ [nl] ++ (" sea view " : pystr)) = false
  /\ clean_text ((" Two rooms " : pystr) ++ [nl] ++ (" sea view " : pystr))
     = ("Two rooms" : pystr) ++ [nl] ++ ("sea view" : pystr).
Proof.
  split; [reflexivity|]. split; [reflexivity|].
  exact (clean_text_idle ((" Two rooms " : pystr) ++ [nl] ++ (" sea view " : pystr))
           eq_refl eq_refl eq_refl eq_refl).
Defined.

(** *** Lines that hold only white space *)

Lemma word_plain (c : ascii) :
  Chars.is_word c = true ->
  Chars.eqc "[" c = false /\ Chars.eqc "-" c = false /\ Chars.eqc nl c = false
  /\ is_blank c = false /\ Chars.is_space c = false.
Proof. by_cases c. Qed.

Lemma adjacent_free (p q : ascii -> bool) (a b : pystr) :
  forallb (fun c => negb (p c)) a = true -> adjacent p q (a ++ b) = adjacent p q b.
Proof.
  induction a as [|x a IH]; [reflexivity|]. cbn [forallb app]. intros H.
  apply andb_true_iff in H. destruct H as [Hx Ha]. apply negb_true_iff in Hx.
  now rewrite adjacent_cons, Hx, IH.
Qed.

Lemma adjacent_none (p q : ascii -> bool) (a : pystr) :
  forallb (fun c => negb (p c)) a = true -> adjacent p q a = false.
Proof.
  intros H. rewrite <- (app_nil_r a). now rewrite adjacent_free.
Qed.

Lemma triple_adjacent (p : ascii -> bool) (s : pystr) :
  adjacent p p s = false -> triple p s = false.
Proof.
  induction s as [|a s IH]; [reflexivity|]. rewrite adjacent_cons. intros H.
  apply orb_false_iff in H. destruct H as [H1 H2]. cbn [triple].
  destruct s as [|b [|c r]]; try reflexivity.
  rewrite (IH H2), orb_false_r. cbn [headed] in H1.
  destruct (p a); [|reflexivity]. cbn [andb] in *. now rewrite H1.
Qed.

Lemma words_free (f : ascii -> bool) (a : pystr) :
  (forall c, Chars.is_word c = true -> f c = false) ->
  forallb Chars.is_word a = true -> forallb (fun c => negb (f c)) a = true.
Proof.
  intros Hf H. rewrite forallb_forall in *. intros c Hc.
  now rewrite (Hf c (H c Hc)).
Qed.

(** The part of [spaced] after the first line break. *)
Lemma spaced_tail_free (f : ascii -> bool) (k : nat) (b : pystr) :
  f " "%char = false -> f nl = false ->
  forallb (fun c => negb (f c)) b = true ->
  forallb (fun c => negb (f c)) (concat (repeat [" "%char; nl] k) ++ b) = true.
Proof.
  intros Hs Hn Hb. induction k as [|k IH]; [exact Hb|].
  cbn [repeat concat app forallb]. now rewrite Hs, Hn.
Qed.

Lemma spaced_tail_adjacent (p q : ascii -> bool) (k : nat) (b : pystr) :
  p " "%char && q nl = false -> p nl && q " "%char = false ->
  p nl && headed q b = false -> adjacent p q b = false ->
  adjacent p q (nl :: concat (repeat [" "%char; nl] k) ++ b) = false.
Proof.
  intros H1 H2 H3 Hb. induction k as [|k IH].
  - cbn [repeat concat app]. now rewrite adjacent_cons, H3, Hb.
  - cbn [repeat concat app]. rewrite adjacent_cons. cbn [headed]. rewrite H2.
    rewrite adjacent_cons. cbn [headed]. rewrite H1. exact IH.
Qed.

Lemma spaced_lines (a : pystr) (k : nat) (b : pystr) :
  forallb Chars.is_word a = true -> forallb Chars.is_word b = true ->
  lines (spaced a k b) = a :: repeat (" " : pystr) k ++ [b].
Proof.
  intros Ha Hb. unfold lines, spaced.
  assert (Hfree : forall w, forallb Chars.is_word w = true -> ~ In nl w).
  { intros w Hw Hin. rewrite forallb_forall in Hw. specialize (Hw _ Hin).
    discriminate Hw. }
  rewrite split_char_app, (split_char_whole nl a (Hfree a Ha)). cbn [app]. f_equal.
  induction k as [|k IH].
  - cbn [repeat concat app]. now apply split_char_whole, Hfree.
  - cbn [repeat concat app].
    change (" "%char :: nl :: concat (repeat [" "%char; nl] k) ++ b)
      with ((" " : pystr) ++ nl :: concat (repeat [" "%char; nl] k) ++ b).
    rewrite split_char_app, IH. reflexivity.
Qed.

Lemma words_strip (a : pystr) : forallb Chars.is_word a = true -> strip a = a.
Proof.
  intros H. rewrite forallb_forall in H. apply strip_fixed_ends.
  - intros c r ->. apply word_plain, H. now left.
  - intros c r ->. apply word_plain, H. apply in_or_app. right. now left.
Qed.

Lemma join_empty_lines (k : nat) (b : pystr) :
  join [nl] (repeat ([] : pystr) k ++ [b]) = repeat nl k ++ b.
Proof.
  induction k as [|k IH]; [reflexivity|]. cbn [repeat app].
  rewrite join_cons by (destruct k; discriminate). cbn [app]. now rewrite IH.
Qed.

(** X29: white space on a blank line keeps it from being collapsed.  For
    words [a] and [b], the text of the line [a], [k] lines that hold one
    space each, and the line [b] is cleaned to [a] and [b] with [k + 1]
    line breaks between them, however large [k] is. *)
Theorem spaced_lines_survive (a : pystr) (k : nat) (b : pystr) :
  a <> [] -> b <> [] ->
  forallb Chars.is_word a = true -> forallb Chars.is_word b = true ->
  clean_text (spaced a k b) = a ++ repeat nl (S k) ++ b.
Proof.
  intros Hane Hbne Ha Hb.
  assert (Hwa : forall f, (forall c, Chars.is_word c = true -> f c = false) ->
                          forallb (fun c => negb (f c)) a = true)
    by (intros f Hf; now apply words_free).
  assert (Hwb : forall f, (forall c, Chars.is_word c = true -> f c = false) ->
                          forallb (fun c => negb (f c)) b = true)
    by (intros f Hf; now apply words_free).
  assert (Hhead : forall f, (forall c, Chars.is_word c = true -> f c = false) ->
                            headed f b = false).
  { intros f Hf. destruct b as [|c b']; [reflexivity|]. cbn [forallb] in Hb.
    apply andb_true_iff in Hb. now apply Hf. }
  rewrite clean_text_passes, cleaning_passes_idle.
  - rewrite (spaced_lines a k b Ha Hb). cbn [map]. rewrite map_app, map_repeat.
    cbn [map]. rewrite (words_strip a Ha), (words_strip b Hb).
    change (strip (" " : pystr)) with ([] : pystr).
    rewrite join_cons by (destruct k; discriminate).
    rewrite join_empty_lines. cbn [app repeat].
    apply strip_fixed_ends.
    + intros c r E. destruct a as [|x a']; [congruence|]. injection E as <- _.
      cbn [forallb] in Ha. apply andb_true_iff in Ha. now apply word_plain.
    + intros c r E. rewrite forallb_forall in Hb.
      destruct b as [|y b'] using rev_ind; [congruence|]. clear IHb'.
      change (nl :: repeat nl k ++ b' ++ [y]) with ((nl :: repeat nl k) ++ b' ++ [y]) in E.
      rewrite !app_assoc in E. apply app_inj_tail in E. destruct E as [_ <-].
      apply word_plain, Hb. apply in_or_app. right. now left.
  - unfold spaced, free_of. rewrite forallb_app. apply andb_true_iff. split.
    + apply Hwa. intros c Hc. apply word_plain, Hc.
    + cbn [forallb]. change (negb (Chars.eqc "[" nl)) with true. cbn [andb].
      apply (spaced_tail_free (Chars.eqc "[")); try reflexivity.
      apply Hwb. intros c Hc. apply word_plain, Hc.
  - unfold spaced. rewrite adjacent_free by (apply Hwa; intros c Hc; apply word_plain, Hc).
    apply spaced_tail_adjacent; try reflexivity.
    apply adjacent_none, Hwb. intros c Hc. apply word_plain, Hc.
  - apply triple_adjacent. unfold spaced.
    rewrite adjacent_free by (apply Hwa; intros c Hc; apply word_plain, Hc).
    apply spaced_tail_adjacent; try reflexivity.
    + rewrite (Hhead (Chars.eqc nl)); [reflexivity|]. intros c Hc. apply word_plain, Hc.
    + apply adjacent_none, Hwb. intros c Hc. apply word_plain, Hc.
  - unfold spaced. rewrite adjacent_free by (apply Hwa; intros c Hc; apply word_plain, Hc).
    apply spaced_tail_adjacent; try reflexivity.
    apply adjacent_none, Hwb. intros c Hc. apply word_plain, Hc.
Qed.

Lemma spaced_lines_survive_witness :
  spaced "Flat" 3 "Villa"
  = ("Flat" : pystr) ++ [nl; " "%char; nl; " "%char; nl; " "%char; nl] ++ ("Villa" : pystr)
  /\ clean_text (spaced "Flat" 3 "Villa")
     = ("Flat" : pystr) ++ [nl; nl; nl; nl] ++ ("Villa" : pystr).
Proof.
  split; [reflexivity|].
  apply (spaced_lines_survive ("Flat" : pystr) 3 ("Villa" : pystr));
    try reflexivity; discriminate.
Defined.

End CleanFacts.

(* ================================================================= *)
(** ** Choosing the embedding provider *)

Module ProviderFacts.

Import Embeddings AppFacts FileFacts.

Local Open Scope nat_scope.


End ProviderFacts.
